(** * MarketPulse: a shallow embedding of the data-plane pipeline

    The development follows the C++ sources: [common/crc32.cpp],
    [common/frame.{hpp,cpp}], [common/symbol_registry.cpp],
    [common/metrics.cpp], [normalize/normalizer.cpp], [main_core.cpp],
    [publisher/pub_server.cpp], [recorder/recorder.cpp] and
    [replay/replayer.cpp].

    Conventions: a fixed-width unsigned integer is a [Z] in its range, with
    the wrap-around written where the code can wrap; a byte is
    [Init.Byte.byte]; packed structs are laid out little-endian, as on the
    hosts the code is built for; [double] values are IEEE-754 binary64,
    through the [SpecFloat] specification of the standard library. *)

From Stdlib Require Import ZArith List String Ascii Lia Bool Arith Sorted.
From Stdlib Require Import Floats.SpecFloat.
From coqutil Require Import Byte Word.LittleEndianList.
From stdpp Require Import gmap.
Import ListNotations.
Local Open Scope Z_scope.

(** ** Generic helpers on byte buffers *)

(** Read [len] bytes at offset [off] of a buffer as a little-endian
    unsigned integer (what [memcpy] into a packed struct field does). *)
Definition get_le (off len : nat) (p : list byte) : Z :=
  le_combine (firstn len (skipn off p)).

(** Two's-complement reading of a 64-bit pattern ([int64_t] fields). *)
Definition to_signed64 (u : Z) : Z :=
  if u <? 2 ^ 63 then u else u - 2 ^ 64.

(** [std::vector::resize] on a cleared buffer followed by a [memcpy] of the
    source bytes: the first [n] bytes of the source, zero-filled. *)
Definition resize_copy (n : nat) (src : list byte) : list byte :=
  firstn n (src ++ repeat Byte.x00 (n - length src)).

(** ** common/crc32.cpp *)
Module Crc32.

Definition polynomial : Z := 0xEDB88320.

(** Body of the inner loop of [init_table]. *)
Definition table_step (crc : Z) : Z :=
  if negb (Z.land crc 1 =? 0)
  then Z.lxor (Z.shiftr crc 1) polynomial
  else Z.shiftr crc 1.

(** [crc32_table[i]] as [init_table] leaves it. *)
Definition table_entry (i : Z) : Z := Nat.iter 8 table_step i.

Definition crc32_table : list Z :=
  Eval vm_compute in List.map (fun i => table_entry (Z.of_nat i)) (seq 0 256).

(** Body of the loop of [calculate_crc32]. *)
Definition update (crc : Z) (b : byte) : Z :=
  Z.lxor (Z.shiftr crc 8)
         (nth (Z.to_nat (Z.lxor (Z.land crc 0xFF) (byte.unsigned b))) crc32_table 0).

Definition calculate_crc32 (data : list byte) : Z :=
  Z.lxor (fold_left update data 0xFFFFFFFF) 0xFFFFFFFF.

(** *** The CRC-32 of the specification

    The frame format names its checksum by its parameters: the CRC-32
    of IEEE 802.3 in its reflected form, polynomial [0xEDB88320],
    register initialised to [0xFFFFFFFF], result XORed with
    [0xFFFFFFFF].  The definitions below follow those words, one
    message bit at a time and without a table; they use nothing of the
    code above. *)
Definition ieee_polynomial_reflected : Z := 0xEDB88320.

(** One message bit enters the register: the bit leaving at the low end
    is XORed with the message bit, the register shifts right by one, and
    the polynomial is XORed in when that bit is 1. *)
Definition reference_bit (crc : Z) (bit : bool) : Z :=
  if xorb (Z.testbit crc 0) bit
  then Z.lxor (Z.shiftr crc 1) ieee_polynomial_reflected
  else Z.shiftr crc 1.

(** The bits of a byte, least significant first (the reflected order). *)
Definition bits_of_byte (b : byte) : list bool :=
  List.map (fun i => Z.testbit (byte.unsigned b) (Z.of_nat i)) (seq 0 8).

Definition reference_update (crc : Z) (b : byte) : Z :=
  fold_left reference_bit (bits_of_byte b) crc.

Definition reference_crc32 (data : list byte) : Z :=
  Z.lxor (fold_left reference_update data 0xFFFFFFFF) 0xFFFFFFFF.

End Crc32.

(** ** common/frame.hpp, common/frame.cpp *)
Module Wire.
Import Crc32.

Record FrameHeader := mkHeader {
  magic    : Z;   (* uint32_t, default 0x4D444146 *)
  version  : Z;   (* uint16_t, default 1 *)
  msg_type : Z;   (* uint16_t *)
  body_len : Z;   (* uint32_t *)
  crc32    : Z    (* uint32_t, no default initialiser *)
}.

Record L1Body := mkL1 {
  l1_ts_ns : Z; l1_symbol_id : Z;
  bid_px : Z; bid_sz : Z; ask_px : Z; ask_sz : Z;
  l1_seq : Z
}.

Record L2Body := mkL2 {
  l2_ts_ns : Z; l2_symbol_id : Z;
  l2_side : Z; l2_action : Z; l2_level : Z;
  l2_price : Z; l2_size : Z; l2_seq : Z
}.

Record TradeBody := mkTrade {
  tr_ts_ns : Z; tr_symbol_id : Z;
  tr_price : Z; tr_size : Z; tr_aggressor_side : Z; tr_seq : Z
}.

Record HbBody := mkHb { hb_ts_ns : Z }.

Record ControlAckBody := mkAck { ack_code : Z; reserved : Z }.

(** [std::variant<L1Body, L2Body, TradeBody, HbBody, ControlAckBody>] *)
Inductive FrameBody :=
| BodyL1 (b : L1Body)
| BodyL2 (b : L2Body)
| BodyTrade (b : TradeBody)
| BodyHb (b : HbBody)
| BodyAck (b : ControlAckBody).

Record Frame := mkFrame { header : FrameHeader; body : FrameBody }.

Definition FRAME_MAGIC : Z := 0x4D444146.
Definition HEADER_SIZE : nat := 16.   (* sizeof(FrameHeader), packed *)

(** [enum class MessageType] *)
Definition MT_L1 : Z := 1.
Definition MT_L2 : Z := 2.
Definition MT_Trade : Z := 3.
Definition MT_Heartbeat : Z := 4.
Definition MT_ControlAck : Z := 5.

(** [sizeof] of the packed body structs. *)
Definition sizeof_L1 : nat := 52.
Definition sizeof_L2 : nat := 40.
Definition sizeof_Trade : nat := 37.
Definition sizeof_Hb : nat := 8.
Definition sizeof_Ack : nat := 8.

Definition body_msg_type (b : FrameBody) : Z :=
  match b with
  | BodyL1 _ => MT_L1 | BodyL2 _ => MT_L2 | BodyTrade _ => MT_Trade
  | BodyHb _ => MT_Heartbeat | BodyAck _ => MT_ControlAck
  end.

Definition body_sizeof (b : FrameBody) : nat :=
  match b with
  | BodyL1 _ => sizeof_L1 | BodyL2 _ => sizeof_L2 | BodyTrade _ => sizeof_Trade
  | BodyHb _ => sizeof_Hb | BodyAck _ => sizeof_Ack
  end.

(** The [explicit Frame(const XBody&)] constructors: they set [msg_type]
    and [body_len]; [magic] and [version] take their default member
    initialisers; [crc32] has none and is left indeterminate, which the
    argument [crc0] stands for. *)
Definition Frame_of (b : FrameBody) (crc0 : Z) : Frame :=
  {| header := {| magic := FRAME_MAGIC; version := 1;
                  msg_type := body_msg_type b;
                  body_len := Z.of_nat (body_sizeof b);
                  crc32 := crc0 |};
     body := b |}.

(** Object representation of the packed structs. *)
Definition bytes_of_header (h : FrameHeader) : list byte :=
  le_split 4 (magic h) ++ le_split 2 (version h) ++ le_split 2 (msg_type h)
  ++ le_split 4 (body_len h) ++ le_split 4 (crc32 h).

Definition bytes_of_L1 (b : L1Body) : list byte :=
  le_split 8 (l1_ts_ns b) ++ le_split 4 (l1_symbol_id b)
  ++ le_split 8 (bid_px b) ++ le_split 8 (bid_sz b)
  ++ le_split 8 (ask_px b) ++ le_split 8 (ask_sz b)
  ++ le_split 8 (l1_seq b).

Definition bytes_of_L2 (b : L2Body) : list byte :=
  le_split 8 (l2_ts_ns b) ++ le_split 4 (l2_symbol_id b)
  ++ le_split 1 (l2_side b) ++ le_split 1 (l2_action b)
  ++ le_split 2 (l2_level b)
  ++ le_split 8 (l2_price b) ++ le_split 8 (l2_size b)
  ++ le_split 8 (l2_seq b).

Definition bytes_of_Trade (b : TradeBody) : list byte :=
  le_split 8 (tr_ts_ns b) ++ le_split 4 (tr_symbol_id b)
  ++ le_split 8 (tr_price b) ++ le_split 8 (tr_size b)
  ++ le_split 1 (tr_aggressor_side b) ++ le_split 8 (tr_seq b).

Definition bytes_of_Hb (b : HbBody) : list byte := le_split 8 (hb_ts_ns b).

Definition bytes_of_Ack (b : ControlAckBody) : list byte :=
  le_split 4 (ack_code b) ++ le_split 4 (reserved b).

Definition bytes_of_body (b : FrameBody) : list byte :=
  match b with
  | BodyL1 x => bytes_of_L1 x
  | BodyL2 x => bytes_of_L2 x
  | BodyTrade x => bytes_of_Trade x
  | BodyHb x => bytes_of_Hb x
  | BodyAck x => bytes_of_Ack x
  end.

Definition header_of_bytes (p : list byte) : FrameHeader :=
  {| magic := get_le 0 4 p; version := get_le 4 2 p; msg_type := get_le 6 2 p;
     body_len := get_le 8 4 p; crc32 := get_le 12 4 p |}.

Definition L1_of_bytes (p : list byte) : L1Body :=
  {| l1_ts_ns := get_le 0 8 p; l1_symbol_id := get_le 8 4 p;
     bid_px := to_signed64 (get_le 12 8 p); bid_sz := get_le 20 8 p;
     ask_px := to_signed64 (get_le 28 8 p); ask_sz := get_le 36 8 p;
     l1_seq := get_le 44 8 p |}.

Definition L2_of_bytes (p : list byte) : L2Body :=
  {| l2_ts_ns := get_le 0 8 p; l2_symbol_id := get_le 8 4 p;
     l2_side := get_le 12 1 p; l2_action := get_le 13 1 p;
     l2_level := get_le 14 2 p;
     l2_price := to_signed64 (get_le 16 8 p); l2_size := get_le 24 8 p;
     l2_seq := get_le 32 8 p |}.

Definition Trade_of_bytes (p : list byte) : TradeBody :=
  {| tr_ts_ns := get_le 0 8 p; tr_symbol_id := get_le 8 4 p;
     tr_price := to_signed64 (get_le 12 8 p); tr_size := get_le 20 8 p;
     tr_aggressor_side := get_le 28 1 p; tr_seq := get_le 29 8 p |}.

Definition Hb_of_bytes (p : list byte) : HbBody :=
  {| hb_ts_ns := get_le 0 8 p |}.

Definition Ack_of_bytes (p : list byte) : ControlAckBody :=
  {| ack_code := get_le 0 4 p; reserved := get_le 4 4 p |}.

(** [encode_frame]: the buffer holds the header (with the CRC of the
    [body_len] body bytes) followed by the body region.  The frames of
    this program have [body_len = sizeof(body)]; were [body_len]
    smaller, the C++ [memcpy] would run past the buffer, which the
    model does not follow (it keeps the first [body_len] bytes). *)
Definition encode_frame (frame : Frame) : list byte :=
  let region :=
    resize_copy (Z.to_nat (body_len (header frame))) (bytes_of_body (body frame)) in
  let hdr :=
    {| magic := magic (header frame); version := version (header frame);
       msg_type := msg_type (header frame); body_len := body_len (header frame);
       crc32 := calculate_crc32 region |} in
  bytes_of_header hdr ++ region.

(** The [switch] on [header.msg_type] that ends [decode_frame]. *)
Definition decode_body (hdr : FrameHeader) (body_ptr : list byte) : option Frame :=
  match msg_type hdr with
  | 1 => if negb (body_len hdr =? Z.of_nat sizeof_L1) then None
         else Some {| header := hdr; body := BodyL1 (L1_of_bytes body_ptr) |}
  | 2 => if negb (body_len hdr =? Z.of_nat sizeof_L2) then None
         else Some {| header := hdr; body := BodyL2 (L2_of_bytes body_ptr) |}
  | 3 => if negb (body_len hdr =? Z.of_nat sizeof_Trade) then None
         else Some {| header := hdr; body := BodyTrade (Trade_of_bytes body_ptr) |}
  | 4 => if negb (body_len hdr =? Z.of_nat sizeof_Hb) then None
         else Some {| header := hdr; body := BodyHb (Hb_of_bytes body_ptr) |}
  | 5 => if negb (body_len hdr =? Z.of_nat sizeof_Ack) then None
         else Some {| header := hdr; body := BodyAck (Ack_of_bytes body_ptr) |}
  | _ => None
  end.

(** [decode_frame]: [None] is [std::nullopt], the only failure value the
    return type [std::optional<Frame>] has. *)
Definition decode_frame (data : list byte) : option Frame :=
  if (length data <? HEADER_SIZE)%nat then None else
  let hdr := header_of_bytes data in
  if negb (magic hdr =? FRAME_MAGIC) || negb (version hdr =? 1) then None else
  if Z.of_nat (length data) <? Z.of_nat HEADER_SIZE + body_len hdr then None else
  let body_ptr := skipn HEADER_SIZE data in
  let calculated_crc := calculate_crc32 (firstn (Z.to_nat (body_len hdr)) body_ptr) in
  if negb (calculated_crc =? crc32 hdr) then None else
  decode_body hdr body_ptr.

(** The fixed body size [decode_frame] accepts for a message type. *)
Definition known_body_size (mt : Z) : option Z :=
  match mt with
  | 1 => Some (Z.of_nat sizeof_L1)
  | 2 => Some (Z.of_nat sizeof_L2)
  | 3 => Some (Z.of_nat sizeof_Trade)
  | 4 => Some (Z.of_nat sizeof_Hb)
  | 5 => Some (Z.of_nat sizeof_Ack)
  | _ => None
  end.

(** The ranges of the C++ field types. *)
Definition u8 (x : Z) : Prop := 0 <= x < 2 ^ 8.
Definition u16 (x : Z) : Prop := 0 <= x < 2 ^ 16.
Definition u32 (x : Z) : Prop := 0 <= x < 2 ^ 32.
Definition u64 (x : Z) : Prop := 0 <= x < 2 ^ 64.
Definition i64 (x : Z) : Prop := - 2 ^ 63 <= x < 2 ^ 63.

Definition valid_body (b : FrameBody) : Prop :=
  match b with
  | BodyL1 x => u64 (l1_ts_ns x) /\ u32 (l1_symbol_id x) /\ i64 (bid_px x)
                /\ u64 (bid_sz x) /\ i64 (ask_px x) /\ u64 (ask_sz x) /\ u64 (l1_seq x)
  | BodyL2 x => u64 (l2_ts_ns x) /\ u32 (l2_symbol_id x) /\ u8 (l2_side x)
                /\ u8 (l2_action x) /\ u16 (l2_level x) /\ i64 (l2_price x)
                /\ u64 (l2_size x) /\ u64 (l2_seq x)
  | BodyTrade x => u64 (tr_ts_ns x) /\ u32 (tr_symbol_id x) /\ i64 (tr_price x)
                /\ u64 (tr_size x) /\ u8 (tr_aggressor_side x) /\ u64 (tr_seq x)
  | BodyHb x => u64 (hb_ts_ns x)
  | BodyAck x => u32 (ack_code x) /\ u32 (reserved x)
  end.

Definition valid_header (h : FrameHeader) : Prop :=
  u32 (magic h) /\ u16 (version h) /\ u16 (msg_type h)
  /\ u32 (body_len h) /\ u32 (crc32 h).

(** The [ts_ns] the recorder and the replayer read through [std::visit].
    [ControlAckBody] has no such field; control frames never reach those
    components, and the local variable keeps its initial value 0. *)
Definition body_ts_ns (b : FrameBody) : Z :=
  match b with
  | BodyL1 x => l1_ts_ns x
  | BodyL2 x => l2_ts_ns x
  | BodyTrade x => tr_ts_ns x
  | BodyHb x => hb_ts_ns x
  | BodyAck _ => 0
  end.


(** Concrete frames used to exercise the codec. *)
Definition scenario_l1_body : FrameBody :=
  BodyL1 {| l1_ts_ns := 1000000000; l1_symbol_id := 1;
            bid_px := 1000000000; bid_sz := 100000000;
            ask_px := 1001000000; ask_sz := 200000000; l1_seq := 1 |}.

Definition sample_heartbeat : Frame :=
  Frame_of (BodyHb {| hb_ts_ns := 1000000000 |}) 0.

(** A heartbeat frame on the wire with its last byte still missing, and
    the same frame with its last byte damaged. *)
Definition truncated_wire : list byte := firstn 23 (encode_frame sample_heartbeat).

Definition corrupted_wire : list byte :=
  firstn 23 (encode_frame sample_heartbeat) ++ [Byte.xff].

(** The reasons for which the decoder rejects a buffer: too short for the
    announced body; wrong magic or version, a body length that is not the
    fixed size of the message type, a CRC that does not match. *)
Definition need_more_bytes (data : list byte) : Prop :=
  Z.of_nat (length data) < Z.of_nat HEADER_SIZE + body_len (header_of_bytes data).

Definition corrupt (data : list byte) : Prop :=
  let hdr := header_of_bytes data in
  magic hdr <> FRAME_MAGIC
  \/ version hdr <> 1
  \/ (exists sz, known_body_size (msg_type hdr) = Some sz /\ body_len hdr <> sz)
  \/ calculate_crc32 (firstn (Z.to_nat (body_len hdr)) (skipn HEADER_SIZE data))
     <> crc32 hdr.

End Wire.

(** ** IEEE-754 binary64 ([double]) *)
Module Double.

Definition prec : Z := 53.
Definition emax : Z := 1024.

Definition double := spec_float.

Definition mul : double -> double -> double := SFmul prec emax.
Definition div : double -> double -> double := SFdiv prec emax.
Definition add : double -> double -> double := SFadd prec emax.
Definition sub : double -> double -> double := SFsub prec emax.
Definition ltb : double -> double -> bool := SFltb.
Definition leb : double -> double -> bool := SFleb.

(** Conversion of an integer to [double] (round to nearest, ties to even). *)
Definition of_Z (z : Z) : double := binary_normalize prec emax z 0 false.

(** The [double] a decimal literal [num/den] denotes: the correctly
    rounded quotient (both arguments below [2^53]). *)
Definition of_decimal (num den : Z) : double := div (of_Z num) (of_Z den).

(** [std::min(a, b)] is [(b < a) ? b : a]. *)
Definition min (a b : double) : double := if ltb b a then b else a.

(** Integer part of a finite [double], the fraction discarded (rounding
    toward zero), as a floating-integral conversion computes it. *)
Definition truncate (d : double) : option Z :=
  match d with
  | S754_zero _ => Some 0
  | S754_finite s m e => Some (cond_Zopp s (Z.shiftl (Z.pos m) e))
  | S754_infinity _ | S754_nan => None
  end.

(** [static_cast<int64_t>(d)]: truncation; the behaviour is undefined
    ([None]) when the truncated value is not representable. *)
Definition to_int64 (d : double) : option Z :=
  match truncate d with
  | Some z => if (- 2 ^ 63 <=? z) && (z <? 2 ^ 63) then Some z else None
  | None => None
  end.

(** [static_cast<uint64_t>(d)], likewise. *)
Definition to_uint64 (d : double) : option Z :=
  match truncate d with
  | Some z => if (0 <=? z) && (z <? 2 ^ 64) then Some z else None
  | None => None
  end.

(** [z] is an integer nearest to the finite double [d]:
    [|d - z| <= 1/2], written without fractions. *)
Definition is_nearest_integer (d : double) (z : Z) : Prop :=
  match d with
  | S754_zero _ => z = 0
  | S754_finite s m e =>
      let v := cond_Zopp s (Z.pos m) in
      if 0 <=? e then z = v * 2 ^ e
      else 2 * Z.abs (v - z * 2 ^ (- e)) <= 2 ^ (- e)
  | _ => False
  end.

(** [z] is [d] with its fraction discarded: [|z| <= |d| < |z| + 1] and
    [z] has the sign of [d] (or is zero). *)
Definition is_truncation (d : double) (z : Z) : Prop :=
  match d with
  | S754_zero _ => z = 0
  | S754_finite s m e =>
      if 0 <=? e then z = cond_Zopp s (Z.pos m * 2 ^ e)
      else Z.abs z * 2 ^ (- e) <= Z.pos m < (Z.abs z + 1) * 2 ^ (- e)
           /\ (if s then z <= 0 else 0 <= z)
  | _ => False
  end.

End Double.

(** ** common/symbol_registry.cpp *)
Module Registry.

Record SymbolRegistry := mkRegistry {
  symbol_to_id_ : gmap string Z;
  symbols_ : list string;          (* indexed by id *)
  next_id_ : Z                     (* std::atomic<uint32_t>, starts at 1 *)
}.

(** The constructor reserves slot 0 as invalid. *)
Definition SymbolRegistry_new : SymbolRegistry :=
  {| symbol_to_id_ := ∅; symbols_ := [EmptyString]; next_id_ := 1 |}.

Definition get_or_add (symbol : string) (r : SymbolRegistry) : Z * SymbolRegistry :=
  match symbol_to_id_ r !! symbol with
  | Some id => (id, r)
  | None =>
      let id := next_id_ r in
      let grown :=
        if (Z.of_nat (length (symbols_ r)) <=? id)
        then symbols_ r ++ repeat EmptyString (Z.to_nat (id + 1) - length (symbols_ r))
        else symbols_ r in
      (id, {| symbol_to_id_ := <[symbol := id]> (symbol_to_id_ r);
              symbols_ := <[Z.to_nat id := symbol]> grown;
              next_id_ := (id + 1) mod 2 ^ 32 |})
  end.

(** [SymbolRegistry::by_id]: the empty view for an id past the table. *)
Definition by_id (id : Z) (r : SymbolRegistry) : string :=
  if Z.of_nat (length (symbols_ r)) <=? id then EmptyString
  else nth (Z.to_nat id) (symbols_ r) EmptyString.

(** [SymbolRegistry::get_all]: the slots from 1 on that hold a non-empty
    name, each with its index. *)
Definition get_all (r : SymbolRegistry) : list (Z * string) :=
  List.filter (fun p => negb (String.eqb (snd p) EmptyString))
    (List.map (fun i => (Z.of_nat i, nth i (symbols_ r) EmptyString))
              (seq 1 (length (symbols_ r) - 1))).


(** *** Auxiliary notions for the proofs *)

(** The registry after [get_or_add] was called on each of [syms] in turn. *)
Definition add_all (syms : list string) (r : SymbolRegistry) : SymbolRegistry :=
  fold_left (fun r s => snd (get_or_add s r)) syms r.

(** The two tables agree: the ids in use are 1 .. [next_id_ - 1], the
    vector holds at each of them the symbol the map sends there, and
    slot 0 stays empty. *)
Record consistent (r : SymbolRegistry) : Prop := {
  cons_next : next_id_ r = Z.of_nat (length (symbols_ r));
  cons_size : next_id_ r = 1 + Z.of_nat (size (symbol_to_id_ r));
  cons_slot0 : symbols_ r !! 0%nat = Some EmptyString;
  cons_map : forall s id,
      symbol_to_id_ r !! s = Some id
      <-> 1 <= id /\ symbols_ r !! Z.to_nat id = Some s
}.

End Registry.

(** ** feed/mock_feed.hpp (RawEvent), normalize/normalizer.cpp *)
Module Normalizer.
Import Wire Double Registry.

Inductive EventType := L1 | L2 | Trade.

Record RawEvent := mkRawEvent {
  type : EventType;
  symbol : string;
  timestamp_ns : Z;
  bid_price : double; ask_price : double;
  bid_size : double;  ask_size : double;
  action : Z;          (* BookAction, uint8_t *)
  side : Z;            (* Side, uint8_t *)
  level : Z;
  price : double; size : double;
  trade_price : double; trade_size : double;
  aggressor_side : Z;
  sequence : Z
}.

Definition PRICE_SCALE : Z := 100000000.
Definition SIZE_SCALE : Z := 100000000.

(** [static_cast<int64_t>(x * PRICE_SCALE)]: the integer constant is
    converted to [double], the product is a [double] product. *)
Definition scale_price (x : double) : option Z := to_int64 (mul x (of_Z PRICE_SCALE)).

(** [static_cast<uint64_t>(x * SIZE_SCALE)] *)
Definition scale_size (x : double) : option Z := to_uint64 (mul x (of_Z SIZE_SCALE)).

(** [Normalizer::normalize_event].  [None] stands for an out-of-range
    floating-integral conversion, which C++ leaves undefined.  The
    [default:] branch of the switch is unreachable for the three
    enumerators.  [crc0] is the indeterminate [crc32] of the fresh frame. *)
Definition normalize_event (event : RawEvent) (crc0 : Z) (reg : SymbolRegistry)
  : option Frame * SymbolRegistry :=
  let '(symbol_id, reg') := get_or_add (symbol event) reg in
  let frame :=
    match type event with
    | L1 =>
        bid_px ← scale_price (bid_price event);
        bid_sz ← scale_size (bid_size event);
        ask_px ← scale_price (ask_price event);
        ask_sz ← scale_size (ask_size event);
        Some (Frame_of (BodyL1 {| l1_ts_ns := timestamp_ns event;
                                  l1_symbol_id := symbol_id;
                                  bid_px := bid_px; bid_sz := bid_sz;
                                  ask_px := ask_px; ask_sz := ask_sz;
                                  l1_seq := sequence event |}) crc0)
    | L2 =>
        px ← scale_price (price event);
        sz ← scale_size (size event);
        Some (Frame_of (BodyL2 {| l2_ts_ns := timestamp_ns event;
                                  l2_symbol_id := symbol_id;
                                  l2_side := side event;
                                  l2_action := action event;
                                  l2_level := level event;
                                  l2_price := px; l2_size := sz;
                                  l2_seq := sequence event |}) crc0)
    | Trade =>
        px ← scale_price (trade_price event);
        sz ← scale_size (trade_size event);
        Some (Frame_of (BodyTrade {| tr_ts_ns := timestamp_ns event;
                                     tr_symbol_id := symbol_id;
                                     tr_price := px; tr_size := sz;
                                     tr_aggressor_side := aggressor_side event;
                                     tr_seq := sequence event |}) crc0)
    end in
  (frame, reg').

(** Every price of an event and every size of an event, with the field
    of the frame body it is stored in. *)
Definition price_fields (event : RawEvent) (f : Frame) : list (double * Z) :=
  match type event, body f with
  | L1, BodyL1 b => [(bid_price event, bid_px b); (ask_price event, ask_px b)]
  | L2, BodyL2 b => [(price event, l2_price b)]
  | Trade, BodyTrade b => [(trade_price event, tr_price b)]
  | _, _ => []
  end.

Definition size_fields (event : RawEvent) (f : Frame) : list (double * Z) :=
  match type event, body f with
  | L1, BodyL1 b => [(bid_size event, bid_sz b); (ask_size event, ask_sz b)]
  | L2, BodyL2 b => [(size event, l2_size b)]
  | Trade, BodyTrade b => [(trade_size event, tr_size b)]
  | _, _ => []
  end.

(** The L1 event of the end-to-end scenario: BTCUSDT, bid 10.00 x 1.0,
    ask 10.01 x 2.0. *)
Definition scenario_l1 : RawEvent :=
  {| type := L1; symbol := "BTCUSDT"; timestamp_ns := 1000000000;
     bid_price := of_decimal 1000 100; ask_price := of_decimal 1001 100;
     bid_size := of_Z 1; ask_size := of_Z 2;
     action := 1; side := 0; level := 0;
     price := S754_zero false; size := S754_zero false;
     trade_price := S754_zero false; trade_size := S754_zero false;
     aggressor_side := 255; sequence := 1 |}.

(** The same event with bid 0.29. *)
Definition l1_bid_029 : RawEvent :=
  {| type := L1; symbol := "BTCUSDT"; timestamp_ns := 1000000000;
     bid_price := of_decimal 29 100; ask_price := of_decimal 1001 100;
     bid_size := of_Z 1; ask_size := of_Z 2;
     action := 1; side := 0; level := 0;
     price := S754_zero false; size := S754_zero false;
     trade_price := S754_zero false; trade_size := S754_zero false;
     aggressor_side := 255; sequence := 1 |}.


(** A price field [z] stored for the event price [x]: the product
    [x * 1e8] with its fraction discarded, in the range of [int64_t]. *)
Definition price_ok (xz : double * Z) : Prop :=
  is_truncation (mul (fst xz) (of_Z PRICE_SCALE)) (snd xz) /\ i64 (snd xz).

Definition size_ok (xz : double * Z) : Prop :=
  is_truncation (mul (fst xz) (of_Z SIZE_SCALE)) (snd xz) /\ u64 (snd xz).

(** The integer fields of an event lie in the ranges of their C++
    types. *)
Definition valid_event (event : RawEvent) : Prop :=
  u64 (timestamp_ns event) /\ u64 (sequence event)
  /\ u8 (action event) /\ u8 (side event) /\ u16 (level event)
  /\ u8 (aggressor_side event).

End Normalizer.

(** ** main_core.cpp (frame distribution) *)
Module Distributor.
Import Wire Registry.

(** [MarketDataCore::generate_topic].  The visitor reads
    [body.symbol_id], a member the quote, book and trade bodies have;
    the frames that reach the distributor come from the normalizer and
    are of these three kinds.  For the other two alternatives there is
    no such member to read ([None]). *)
Definition generate_topic (frame : Frame) (reg : SymbolRegistry) : option string :=
  match
    match body frame with
    | BodyL1 b => Some (l1_symbol_id b, "l1"%string)
    | BodyL2 b => Some (l2_symbol_id b, "l2"%string)
    | BodyTrade b => Some (tr_symbol_id b, "trade"%string)
    | BodyHb _ | BodyAck _ => None
    end
  with
  | Some (symbol_id, msg_type) =>
      let symbol := by_id symbol_id reg in
      let symbol := if String.eqb symbol EmptyString then "UNKNOWN"%string else symbol in
      Some (msg_type ++ "." ++ symbol)%string
  | None => None
  end.

(** The first component of the topic of an event. *)
Definition topic_prefix (t : Normalizer.EventType) : string :=
  match t with
  | Normalizer.L1 => "l1"
  | Normalizer.L2 => "l2"
  | Normalizer.Trade => "trade"
  end.

End Distributor.

(** ** common/metrics.cpp (counters) *)
Module Metrics.

(** The state of [MetricsCollector] the pipeline uses is [counters_]: name
    to [std::atomic<uint64_t>], a [gmap string Z]; an absent name reads 0. *)

Definition get_counter (name : string) (m : gmap string Z) : Z :=
  default 0 (m !! name).

Definition increment_counter (name : string) (delta : Z) (m : gmap string Z)
  : gmap string Z :=
  <[name := (get_counter name m + delta) mod 2 ^ 64]> m.

(** *** LatencyHistogram *)

Record LatencyHistogram := mkHistogram {
  buckets_ : list Z;        (* upper bounds, ns *)
  counts_ : list Z;         (* one per bound, then the overflow bucket *)
  total_count_ : Z;
  max_value_ : Z
}.

Definition LatencyHistogram_new (buckets_ns : list Z) : LatencyHistogram :=
  {| buckets_ := buckets_ns; counts_ := repeat 0 (length buckets_ns + 1);
     total_count_ := 0; max_value_ := 0 |}.

(** The bounds [MetricsCollector::record_latency] creates histograms
    with. *)
Definition default_buckets_ : list Z :=
  [100000; 500000; 1000000; 2000000; 5000000; 10000000; 50000000].

(** The search loop of [record]: the index of the first bound the
    latency does not exceed; [bucket_idx] keeps its initial 0 when there
    is none. *)
Fixpoint find_bucket (latency_ns : Z) (i : nat) (buckets : list Z) : nat :=
  match buckets with
  | [] => 0%nat
  | b :: rest => if latency_ns <=? b then i else find_bucket latency_ns (S i) rest
  end.

(** [LatencyHistogram::record].  [buckets_.back()] is evaluated when
    [bucket_idx] is 0; on an empty vector that is undefined ([None]).
    [counts_] has one element more than [buckets_], as the constructor
    makes it, and the index stays within it. *)
Definition record (latency_ns : Z) (h : LatencyHistogram) : option LatencyHistogram :=
  let bucket_idx := find_bucket latency_ns 0 (buckets_ h) in
  match last (buckets_ h) with
  | None => None
  | Some back =>
      let bucket_idx :=
        if (bucket_idx =? 0)%nat && (back <? latency_ns)
        then length (buckets_ h) else bucket_idx in
      Some {| buckets_ := buckets_ h;
              counts_ :=
                match counts_ h !! bucket_idx with
                | Some c => <[bucket_idx := (c + 1) mod 2 ^ 64]> (counts_ h)
                | None => counts_ h
                end;
              total_count_ := (total_count_ h + 1) mod 2 ^ 64;
              max_value_ := if max_value_ h <? latency_ns then latency_ns
                            else max_value_ h |}
  end.


(** *** Auxiliary notions for the proofs *)

(** A run of [increment_counter] calls, oldest first. *)
Definition increment_all (incs : list (string * Z)) (m : gmap string Z) : gmap string Z :=
  fold_left (fun m nd => increment_counter (fst nd) (snd nd) m) incs m.

(** The sum of the deltas a run adds to the counter [name]. *)
Definition delta_sum (name : string) (incs : list (string * Z)) : Z :=
  fold_right (fun nd acc => if String.eqb (fst nd) name then snd nd + acc else acc) 0 incs.

(** The bucket a latency belongs to: the first whose bound it does not
    exceed; the overflow bucket, past the last bound, when it exceeds
    them all. *)
Fixpoint bucket_of (latency_ns : Z) (buckets : list Z) : nat :=
  match buckets with
  | [] => 0%nat
  | b :: rest => if latency_ns <=? b then 0%nat else S (bucket_of latency_ns rest)
  end.

(** The number of latencies a histogram has counted, all buckets
    together. *)
Definition count_sum (counts : list Z) : Z := fold_right Z.add 0 counts.

(** What the histogram with bounds [bs] keeps from one [record] to the
    next, [n] calls having been made. *)
Record hist_inv (bs : list Z) (n : Z) (h : LatencyHistogram) : Prop := {
  hi_buckets : buckets_ h = bs;
  hi_length : length (counts_ h) = (length bs + 1)%nat;
  hi_nonneg : Forall (fun x => 0 <= x) (counts_ h);
  hi_sum : count_sum (counts_ h) = n;
  hi_total : total_count_ h = n
}.

(** A run of [record] calls on a histogram. *)
Fixpoint record_all (latencies : list Z) (h : LatencyHistogram) : option LatencyHistogram :=
  match latencies with
  | [] => Some h
  | l :: rest =>
      match record l h with
      | Some h' => record_all rest h'
      | None => None
      end
  end.

End Metrics.

(** ** publisher/pub_server.cpp *)
Module Publisher.
Import Wire Metrics.

(** *** Topic patterns and [std::regex]

    The ECMAScript regular expressions that the topics of this system
    give rise to are made of ordinary characters, [.] (any character
    but a line terminator) and [.*]: for these, [fragment_compile] and
    [fragment_match] spell out what the library does.

    Any other expression is left to the library, which is no part of
    this repository and of which nothing is assumed: [regex_error e]
    tells whether the constructor of [std::regex] throws for the
    expression [e], and [library_match e s] what [std::regex_match]
    answers for it and the target [s]. *)
Class StdRegex := {
  regex_error : list ascii -> bool;
  library_match : list ascii -> list ascii -> bool
}.

Inductive RegexItem :=
| RChar (c : ascii)
| RAny
| RAnyStar.

(** A compiled expression: one of the fragment, or another one, kept as
    it was written. *)
Inductive Regex :=
| Items (re : list RegexItem)
| Expression (e : list ascii).

Definition is_line_terminator (c : ascii) : bool :=
  Ascii.eqb c "010" || Ascii.eqb c "013".

Definition dot_matches (c : ascii) : bool := negb (is_line_terminator c).

(** The characters that are not ordinary in an expression: the
    metacharacters of the grammar, and the null character, which the
    scanners of the libraries treat in their own ways. *)
Definition is_special (c : ascii) : bool :=
  existsb (Ascii.eqb c) (list_ascii_of_string "^$\.*+?()[]{}|") || Ascii.eqb c "000".

(** The expressions of the fragment; [None] for any other. *)
Fixpoint fragment_compile (s : list ascii) : option (list RegexItem) :=
  match s with
  | [] => Some []
  | c :: rest =>
      if Ascii.eqb c "." then
        match rest with
        | c2 :: rest2 =>
            if Ascii.eqb c2 "*" then cons RAnyStar <$> fragment_compile rest2
            else cons RAny <$> fragment_compile rest
        | [] => Some [RAny]
        end
      else if is_special c then None
      else cons (RChar c) <$> fragment_compile rest
  end.

(** The whole target must match. *)
Fixpoint fragment_match (re : list RegexItem) (s : list ascii) : bool :=
  match re with
  | [] => match s with [] => true | _ :: _ => false end
  | RChar c :: re' =>
      match s with
      | x :: s' => Ascii.eqb c x && fragment_match re' s'
      | [] => false
      end
  | RAny :: re' =>
      match s with
      | x :: s' => dot_matches x && fragment_match re' s'
      | [] => false
      end
  | RAnyStar :: re' =>
      (fix star (s : list ascii) : bool :=
         fragment_match re' s
         || match s with
            | x :: s' => dot_matches x && star s'
            | [] => false
            end) s
  end.

(** The constructor [std::regex(e)]; [None] when it throws
    [std::regex_error]. *)
Definition regex_compile `{StdRegex} (e : list ascii) : option Regex :=
  match fragment_compile e with
  | Some re => Some (Items re)
  | None => if regex_error e then None else Some (Expression e)
  end.

(** [std::regex_match(s, re)] *)
Definition regex_match `{StdRegex} (re : Regex) (s : list ascii) : bool :=
  match re with
  | Items re => fragment_match re s
  | Expression e => library_match e s
  end.

(** The loop of the constructor: each [*] becomes [.*]; the search
    resumes after the two inserted characters. *)
Fixpoint replace_stars (s : list ascii) : list ascii :=
  match s with
  | [] => []
  | c :: rest =>
      if Ascii.eqb c "*" then "."%char :: "*"%char :: replace_stars rest
      else c :: replace_stars rest
  end.

Record TopicSubscription := mkSub {
  pattern : string;
  compiled_regex : Regex;
  is_wildcard : bool;
  lossless : bool
}.

Definition contains_star (p : string) : bool :=
  existsb (Ascii.eqb "*") (list_ascii_of_string p).

(** [TopicSubscription::TopicSubscription]; [None] when the [std::regex]
    constructor throws.  A pattern without [*] leaves [compiled_regex]
    default-constructed; it is not looked at. *)
Definition TopicSubscription_new `{StdRegex} (pattern : string) (lossless : bool)
  : option TopicSubscription :=
  if contains_star pattern then
    re ← regex_compile (replace_stars (list_ascii_of_string pattern));
    Some (mkSub pattern re true lossless)
  else Some (mkSub pattern (Items []) false lossless).

(** [PubServer::matches_topic] *)
Definition matches_topic `{StdRegex} (topic : string) (sub : TopicSubscription) : bool :=
  if is_wildcard sub
  then regex_match (compiled_regex sub) (list_ascii_of_string topic)
  else String.eqb topic (pattern sub).

(** What a glob pattern denotes.  With [nonempty = true] every [*] stands
    for a non-empty substring, with [nonempty = false] for any substring;
    [.] stands for one character, as in the regular expression. *)
Inductive glob_denotes (nonempty : bool) : list ascii -> list ascii -> Prop :=
| gd_nil : glob_denotes nonempty [] []
| gd_star w p s :
    forallb dot_matches w = true ->
    (nonempty = true -> w <> []) ->
    glob_denotes nonempty p s ->
    glob_denotes nonempty ("*"%char :: p) (w ++ s)
| gd_dot x p s :
    dot_matches x = true ->
    glob_denotes nonempty p s ->
    glob_denotes nonempty ("."%char :: p) (x :: s)
| gd_char c p s :
    is_special c = false ->
    glob_denotes nonempty p s ->
    glob_denotes nonempty (c :: p) (c :: s).

(** A pattern whose regular expression is one of the fragment: besides
    [*] and [.] it has ordinary characters only. *)
Definition plain_pattern (p : list ascii) : bool :=
  forallb (fun c => Ascii.eqb c "*" || Ascii.eqb c "." || negb (is_special c)) p.

(** *** ClientConnection *)

Record QueuedFrame := mkQueued { qf_topic : string; qf_data : list byte }.

Record ClientConnection := mkClient {
  auth_token_ : string;
  running_ : bool;
  authenticated_ : bool;
  socket_open_ : bool;                 (* [socket_] not closed yet *)
  subscriptions_ : list TopicSubscription;
  send_queue_ : list QueuedFrame;      (* oldest first *)
  socket_written_ : list QueuedFrame;  (* written to the socket, oldest first *)
  frames_sent_ : Z;
  frames_dropped_ : Z
}.

Definition MAX_QUEUE_SIZE : Z := 10000.

Definition ClientConnection_new (auth_token : string) : ClientConnection :=
  {| auth_token_ := auth_token; running_ := false; authenticated_ := false;
     socket_open_ := true; subscriptions_ := []; send_queue_ := [];
     socket_written_ := []; frames_sent_ := 0; frames_dropped_ := 0 |}.

Definition set_running (b : bool) (c : ClientConnection) : ClientConnection :=
  {| auth_token_ := auth_token_ c; running_ := b; authenticated_ := authenticated_ c;
     socket_open_ := socket_open_ c; subscriptions_ := subscriptions_ c;
     send_queue_ := send_queue_ c; socket_written_ := socket_written_ c;
     frames_sent_ := frames_sent_ c; frames_dropped_ := frames_dropped_ c |}.

Definition set_authenticated (b : bool) (c : ClientConnection) : ClientConnection :=
  {| auth_token_ := auth_token_ c; running_ := running_ c; authenticated_ := b;
     socket_open_ := socket_open_ c; subscriptions_ := subscriptions_ c;
     send_queue_ := send_queue_ c; socket_written_ := socket_written_ c;
     frames_sent_ := frames_sent_ c; frames_dropped_ := frames_dropped_ c |}.

Definition close_socket (c : ClientConnection) : ClientConnection :=
  {| auth_token_ := auth_token_ c; running_ := running_ c;
     authenticated_ := authenticated_ c;
     socket_open_ := false; subscriptions_ := subscriptions_ c;
     send_queue_ := send_queue_ c; socket_written_ := socket_written_ c;
     frames_sent_ := frames_sent_ c; frames_dropped_ := frames_dropped_ c |}.

Definition set_subscriptions (l : list TopicSubscription) (c : ClientConnection)
  : ClientConnection :=
  {| auth_token_ := auth_token_ c; running_ := running_ c;
     authenticated_ := authenticated_ c;
     socket_open_ := socket_open_ c; subscriptions_ := l;
     send_queue_ := send_queue_ c; socket_written_ := socket_written_ c;
     frames_sent_ := frames_sent_ c; frames_dropped_ := frames_dropped_ c |}.

Definition enqueue (q : QueuedFrame) (c : ClientConnection) : ClientConnection :=
  {| auth_token_ := auth_token_ c; running_ := running_ c;
     authenticated_ := authenticated_ c;
     socket_open_ := socket_open_ c; subscriptions_ := subscriptions_ c;
     send_queue_ := send_queue_ c ++ [q]; socket_written_ := socket_written_ c;
     frames_sent_ := frames_sent_ c; frames_dropped_ := frames_dropped_ c |}.

Definition count_drop (c : ClientConnection) : ClientConnection :=
  {| auth_token_ := auth_token_ c; running_ := running_ c;
     authenticated_ := authenticated_ c;
     socket_open_ := socket_open_ c; subscriptions_ := subscriptions_ c;
     send_queue_ := send_queue_ c; socket_written_ := socket_written_ c;
     frames_sent_ := frames_sent_ c;
     frames_dropped_ := (frames_dropped_ c + 1) mod 2 ^ 64 |}.

(** A connection together with the process-wide metrics sink. *)
Definition ClientState : Type := ClientConnection * gmap string Z.

(** *** Calls and [subscriptions_mutex_]

    [subscriptions_mutex_] is a plain [std::mutex].  [send_frame] locks
    it when it finds the queue full, and the subscribe branch of
    [process_control_message] holds it from its [lock_guard] to the end
    of the branch, the call of [send_control_ack(200)] included.  A
    thread that locks a [std::mutex] it already holds does not get past
    the lock.  So a call ends in one of two ways: it returns, or it
    blocks for ever; the state is the connection as the call leaves
    it. *)
Inductive Outcome :=
| Returns (st : ClientState)
| Blocks (st : ClientState).

Definition state_of (o : Outcome) : ClientState :=
  match o with
  | Returns st => st
  | Blocks st => st
  end.

(** [ClientConnection::send_frame], called by a thread that holds
    [subscriptions_mutex_] ([holds_mutex = true]) or does not.
    [size_approx] is taken to be the length of the queue, and the test
    and the [enqueue] to be one step: one producer at a time. *)
Definition send_frame_call (holds_mutex : bool) (topic : string) (frame : Frame)
           (st : ClientState) : Outcome :=
  let '(c, m) := st in
  if negb (running_ c) || negb (authenticated_ c) then Returns st
  else if MAX_QUEUE_SIZE <=? Z.of_nat (length (send_queue_ c)) then
    (* std::lock_guard<std::mutex> lock(subscriptions_mutex_) *)
    if holds_mutex then Blocks st
    else
      let is_lossless := existsb lossless (subscriptions_ c) in
      if is_lossless
      then Returns (count_drop c,
                    increment_counter "publisher_frames_dropped_backpressure" 1 m)
      else Returns (count_drop c,
                    increment_counter "publisher_frames_dropped_queue_full" 1 m)
  else
    Returns (enqueue {| qf_topic := topic; qf_data := encode_frame frame |} c, m).

(** [send_frame] as [publish], the heartbeat loop and every branch of
    [process_control_message] but one call it: by a thread that does
    not hold the mutex.  That call returns. *)
Definition send_frame (topic : string) (frame : Frame) (st : ClientState) : ClientState :=
  state_of (send_frame_call false topic frame st).

(** The frames built in place have an indeterminate [crc32] field, which
    [encode_frame] overwrites; 0 stands for it. *)
Definition send_heartbeat (now : Z) (st : ClientState) : ClientState :=
  send_frame "heartbeat" (Frame_of (BodyHb {| hb_ts_ns := now |}) 0) st.

(** [ClientConnection::send_control_ack] *)
Definition send_control_ack_call (holds_mutex : bool) (code : Z) (st : ClientState)
  : Outcome :=
  send_frame_call holds_mutex "control"
                  (Frame_of (BodyAck {| ack_code := code; reserved := 0 |}) 0) st.

Definition send_control_ack (code : Z) (st : ClientState) : ClientState :=
  state_of (send_control_ack_call false code st).

(** [ClientConnection::stop] *)
Definition stop (st : ClientState) : ClientState :=
  let '(c, m) := st in
  if negb (running_ c) then st
  else (close_socket (set_running false c), m).

(** [ClientConnection::start] *)
Definition start (st : ClientState) : ClientState :=
  let '(c, m) := st in
  if running_ c then st else (set_running true c, m).

(** One round of [write_loop], as the loop is meant: up to 100 frames
    leave the queue and are written to the socket.  (The code hands
    [try_dequeue_bulk] the storage of a vector that is reserved but
    holds no elements; the model takes the frames to arrive in it.)
    The write succeeds here; a failing one is the event [EvWriteError]
    of the server below, where [stop] is taken to return although the
    writer thread, which calls it, is the thread it joins. *)
Definition write_batch (st : ClientState) : ClientState :=
  let '(c, m) := st in
  if negb (running_ c) then st else
  let batch := firstn 100 (send_queue_ c) in
  match batch with
  | [] => st
  | _ :: _ =>
    ({| auth_token_ := auth_token_ c; running_ := running_ c;
        authenticated_ := authenticated_ c;
        socket_open_ := socket_open_ c; subscriptions_ := subscriptions_ c;
        send_queue_ := skipn 100 (send_queue_ c);
        socket_written_ := socket_written_ c ++ batch;
        frames_sent_ := (frames_sent_ c + Z.of_nat (length batch)) mod 2 ^ 64;
        frames_dropped_ := frames_dropped_ c |},
     increment_counter "publisher_frames_sent_total" (Z.of_nat (length batch)) m)
  end.

(** *** Control messages

    A line read from the socket, as [nlohmann::json] sees it.
    [json.value(key, default)] gives the default when the key is
    absent and throws when the value has another type. *)
Inductive JsonField (A : Type) :=
| Absent
| Present (a : A)
| WrongType.
Arguments Absent {A}.
Arguments Present {A} a.
Arguments WrongType {A}.

Record JsonObject := mkJson {
  j_op : JsonField string;
  j_token : JsonField string;
  j_topics : JsonField (list string);
  j_lossless : JsonField bool
}.

Inductive ControlMessage :=
| ParseError                 (* [json::parse] throws *)
| NotAnObject                (* [json.value] throws on a non-object *)
| Object (o : JsonObject).

Definition value {A : Type} (f : JsonField A) (default_value : A) : option A :=
  match f with
  | Absent => Some default_value
  | Present a => Some a
  | WrongType => None
  end.

(** The [for] loop of the subscribe branch: [emplace_back] for each
    topic; a throwing constructor leaves the earlier ones in place and
    ends the loop ([false]). *)
Fixpoint add_subscriptions `{StdRegex} (topics : list string) (lossless : bool)
         (subs : list TopicSubscription) : list TopicSubscription * bool :=
  match topics with
  | [] => (subs, true)
  | topic :: rest =>
      match TopicSubscription_new topic lossless with
      | Some sub => add_subscriptions rest lossless (subs ++ [sub])
      | None => (subs, false)
      end
  end.

(** [ClientConnection::process_control_message]; the [catch] branch is
    [send_control_ack(400)], reached with the mutex released by the
    unwinding.  Only the acknowledgement of a successful subscribe is
    sent under the mutex. *)
Definition process_control_message `{StdRegex} (message : ControlMessage) (st : ClientState)
  : Outcome :=
  let '(c, m) := st in
  match message with
  | ParseError | NotAnObject => Returns (send_control_ack 400 st)
  | Object json =>
    match value (j_op json) EmptyString with
    | None => Returns (send_control_ack 400 st)
    | Some op =>
      if String.eqb op "auth" then
        match value (j_token json) EmptyString with
        | None => Returns (send_control_ack 400 st)
        | Some token =>
          if String.eqb token (auth_token_ c) then
            Returns (send_control_ack 200 (set_authenticated true c, m))
          else
            let '(c1, m1) := send_control_ack 401 st in
            Returns (stop (c1, increment_counter "publisher_auth_failures_total" 1 m1))
        end
      else if String.eqb op "subscribe" then
        if negb (authenticated_ c) then Returns (send_control_ack 401 st)
        else
          match value (j_topics json) [] with
          | None => Returns (send_control_ack 400 st)
          | Some topics =>
            match value (j_lossless json) false with
            | None => Returns (send_control_ack 400 st)
            | Some lossless =>
              (* std::lock_guard<std::mutex> lock(subscriptions_mutex_) *)
              let '(subs, ok) := add_subscriptions topics lossless (subscriptions_ c) in
              if ok then
                match send_control_ack_call true 200 (set_subscriptions subs c, m) with
                | Returns (c1, m1) =>
                    Returns (c1, increment_counter "publisher_subscriptions_total"
                                                   (Z.of_nat (length topics)) m1)
                | Blocks st1 => Blocks st1
                end
              else Returns (send_control_ack 400 (set_subscriptions subs c, m))
            end
          end
      else if String.eqb op "unsubscribe" then Returns (send_control_ack 200 st)
      else Returns (send_control_ack 400 st)
    end
  end.

(** The operations that reach one connection.  A control message that
    blocks its thread leaves the connection as it was at the lock; the
    other threads go on. *)
Inductive ClientOp :=
| OpSendFrame (topic : string) (frame : Frame)
| OpHeartbeat (now : Z)
| OpControl (message : ControlMessage)
| OpWriteBatch
| OpStart
| OpStop.

Definition client_step `{StdRegex} (st : ClientState) (op : ClientOp) : ClientState :=
  match op with
  | OpSendFrame topic frame => send_frame topic frame st
  | OpHeartbeat now => send_heartbeat now st
  | OpControl message => state_of (process_control_message message st)
  | OpWriteBatch => write_batch st
  | OpStart => start st
  | OpStop => stop st
  end.

(** *** PubServer

    [heap] holds the [ClientConnection] objects; a [shared_ptr] to one
    is its index.  [clients_] is the vector of such pointers. *)
Record PubServer := mkServer {
  srv_running_ : bool;
  srv_auth_token_ : string;
  heap : list ClientConnection;
  clients_ : list nat;
  metrics : gmap string Z;
  total_connections : Z;
  active_connections : Z;
  frames_published : Z
}.

Definition PubServer_new (auth_token : string) : PubServer :=
  {| srv_running_ := true; srv_auth_token_ := auth_token; heap := [];
     clients_ := []; metrics := ∅; total_connections := 0;
     active_connections := 0; frames_published := 0 |}.

Definition is_authenticated (h : list ClientConnection) (id : nat) : bool :=
  match h !! id with
  | Some c => authenticated_ c
  | None => false
  end.

(** Run an operation of connection [id] in the server state. *)
Definition on_client (id : nat) (f : ClientState -> ClientState)
           (hm : list ClientConnection * gmap string Z)
  : list ClientConnection * gmap string Z :=
  let '(h, m) := hm in
  match h !! id with
  | Some c => let '(c', m') := f (c, m) in (<[id := c']> h, m')
  | None => hm
  end.

Definition with_heap (hm : list ClientConnection * gmap string Z) (s : PubServer)
  : PubServer :=
  {| srv_running_ := srv_running_ s; srv_auth_token_ := srv_auth_token_ s;
     heap := fst hm; clients_ := clients_ s; metrics := snd hm;
     total_connections := total_connections s;
     active_connections := active_connections s;
     frames_published := frames_published s |}.

(** The completion handler of [accept_connections], on a successful
    accept. *)
Definition accept_connections (s : PubServer) : PubServer :=
  let id := length (heap s) in
  let '(c, m) := start (ClientConnection_new (srv_auth_token_ s), metrics s) in
  let clients' := clients_ s ++ [id] in
  {| srv_running_ := srv_running_ s; srv_auth_token_ := srv_auth_token_ s;
     heap := heap s ++ [c]; clients_ := clients'; metrics := m;
     total_connections := (total_connections s + 1) mod 2 ^ 64;
     active_connections := Z.of_nat (length clients');
     frames_published := frames_published s |}.

(** [PubServer::publish] *)
Definition publish `{StdRegex} (topic : string) (frame : Frame) (s : PubServer)
  : PubServer :=
  if negb (srv_running_ s) then s else
  let clients_snapshot := clients_ s in
  let hm :=
    fold_left
      (fun hm id =>
         if negb (is_authenticated (fst hm) id) then hm
         else
           let should_send :=
             match fst hm !! id with
             | Some c => existsb (matches_topic topic) (subscriptions_ c)
             | None => false
             end in
           if should_send then on_client id (send_frame topic frame) hm else hm)
      clients_snapshot (heap s, metrics s) in
  {| srv_running_ := srv_running_ s; srv_auth_token_ := srv_auth_token_ s;
     heap := fst hm; clients_ := clients_ s;
     metrics := increment_counter "publisher_frames_published_total" 1 (snd hm);
     total_connections := total_connections s;
     active_connections := active_connections s;
     frames_published := (frames_published s + 1) mod 2 ^ 64 |}.

(** One round of [heartbeat_loop], after the one-second sleep. *)
Definition heartbeat_loop (now : Z) (s : PubServer) : PubServer :=
  if negb (srv_running_ s) then s else
  let clients' := List.filter (is_authenticated (heap s)) (clients_ s) in
  let hm :=
    fold_left
      (fun hm id =>
         if is_authenticated (fst hm) id then on_client id (send_heartbeat now) hm
         else hm)
      clients' (heap s, metrics s) in
  {| srv_running_ := srv_running_ s; srv_auth_token_ := srv_auth_token_ s;
     heap := fst hm; clients_ := clients'; metrics := snd hm;
     total_connections := total_connections s;
     active_connections := Z.of_nat (length clients');
     frames_published := frames_published s |}.

(** What can happen to a running server. *)
Inductive Event :=
| EvAccept
| EvControl (id : nat) (message : ControlMessage) (* a line from client [id] *)
| EvWriteBatch (id : nat)
| EvWriteError (id : nat)                         (* a socket write fails *)
| EvPublish (topic : string) (frame : Frame)
| EvHeartbeat (now : Z).

Definition running_client (h : list ClientConnection) (id : nat) : bool :=
  match h !! id with
  | Some c => running_ c
  | None => false
  end.

Definition server_step `{StdRegex} (s : PubServer) (ev : Event) : PubServer :=
  match ev with
  | EvAccept => accept_connections s
  | EvControl id message =>
      (* the read loop goes on only while the connection is running *)
      if running_client (heap s) id
      then with_heap (on_client id (fun st => state_of (process_control_message message st))
                                (heap s, metrics s)) s
      else s
  | EvWriteBatch id => with_heap (on_client id write_batch (heap s, metrics s)) s
  | EvWriteError id => with_heap (on_client id stop (heap s, metrics s)) s
  | EvPublish topic frame => publish topic frame s
  | EvHeartbeat now => heartbeat_loop now s
  end.

Definition run_server `{StdRegex} (s : PubServer) (evs : list Event) : PubServer :=
  fold_left server_step evs s.

(** The frames client [id] has been handed: queued or already written. *)
Definition delivered (s : PubServer) (id : nat) : list QueuedFrame :=
  match heap s !! id with
  | Some c => socket_written_ c ++ send_queue_ c
  | None => []
  end.


(** *** Auxiliary notions for the proofs *)

(** The regex item a pattern character turns into. *)
Definition glob_item (c : ascii) : option RegexItem :=
  if Ascii.eqb c "*" then Some RAnyStar
  else if Ascii.eqb c "." then Some RAny
  else if is_special c then None
  else Some (RChar c).

Fixpoint glob_items (p : list ascii) : option (list RegexItem) :=
  match p with
  | [] => Some []
  | c :: rest =>
      match glob_item c, glob_items rest with
      | Some i, Some re => Some (i :: re)
      | _, _ => None
      end
  end.

(** The queue entry [send_control_ack(code)] makes. *)
Definition control_frame (code : Z) : QueuedFrame :=
  {| qf_topic := "control";
     qf_data := encode_frame (Frame_of (BodyAck {| ack_code := code; reserved := 0 |}) 0) |}.

(** What an operation may do to the queue of [c]: append [extra], which is
    empty or one frame that found room. *)
Definition queue_grows_by (extra : list QueuedFrame) (c c' : ClientConnection) : Prop :=
  send_queue_ c' = send_queue_ c ++ extra
  /\ socket_written_ c' = socket_written_ c
  /\ (extra <> [] -> Z.of_nat (length (send_queue_ c)) < MAX_QUEUE_SIZE
                     /\ length extra = 1%nat).

(** The frames a connection holds, written or queued. *)
Definition held (c : ClientConnection) : list QueuedFrame :=
  socket_written_ c ++ send_queue_ c.

(** A connection [id], in state [c] when the heartbeat round dropped it
    from [clients_]: it stays out of the list, and all it is handed from
    then on are replies to its own control messages. *)
Definition dropped (id : nat) (c : ClientConnection) (s : PubServer) : Prop :=
  srv_running_ s = true
  /\ ~ In id (clients_ s)
  /\ exists c' extra,
       heap s !! id = Some c'
       /\ held c' = held c ++ extra
       /\ Forall (fun q => qf_topic q = "control"%string) extra.


(** The concrete runs use patterns of the fragment, for which the
    library is not consulted; they are computed with a library that
    knows no other expression. *)
Definition fragment_only : StdRegex :=
  {| regex_error := fun _ => true; library_match := fun _ _ => false |}.

(** Concrete connections and messages. *)
Definition unauth_client : ClientConnection :=
  fst (start (ClientConnection_new "secret", ∅)).



Definition msg_op (op : string) : ControlMessage :=
  Object {| j_op := Present op; j_token := Absent; j_topics := Absent;
            j_lossless := Absent |}.

Definition msg_auth (token : string) : ControlMessage :=
  Object {| j_op := Present "auth"%string; j_token := Present token; j_topics := Absent;
            j_lossless := Absent |}.

Definition msg_subscribe (topics : list string) : ControlMessage :=
  Object {| j_op := Present "subscribe"%string; j_token := Absent;
            j_topics := Present topics; j_lossless := Present false |}.

(** A server with one connection that has not authenticated yet. *)
Definition one_unauth_server : PubServer :=
  accept_connections (PubServer_new "secret").

(** The connection authenticates and subscribes after the heartbeat round;
    a quote is published and another round goes by. *)
Definition late_auth_events : list Event :=
  [ EvControl 0 (msg_auth "secret");
    EvControl 0 (msg_subscribe ["l1.*"%string]);
    EvPublish "l1.BTCUSDT" (Frame_of scenario_l1_body 0);
    EvHeartbeat 2000000000;
    EvWriteBatch 0 ].

End Publisher.

(** ** recorder/recorder.cpp *)
Module Recorder.
Import Wire.

Record MdfHeader := mkMdfHeader {
  mdf_magic : Z;        (* uint32_t, 0x4D444649 *)
  mdf_version : Z;      (* uint16_t, 1 *)
  mdf_reserved : Z;     (* uint16_t, 0 *)
  start_ts_ns : Z;      (* uint64_t *)
  end_ts_ns : Z;        (* uint64_t *)
  symbol_count : Z;     (* uint32_t *)
  frame_count : Z       (* uint32_t *)
}.

Record IndexEntry := mkIndexEntry {
  ts_ns_first : Z;      (* uint64_t *)
  file_offset : Z       (* uint64_t *)
}.

Definition MDF_MAGIC : Z := 0x4D444649.
Definition sizeof_MdfHeader : nat := 32.
Definition sizeof_IndexEntry : nat := 16.

Definition bytes_of_MdfHeader (h : MdfHeader) : list byte :=
  le_split 4 (mdf_magic h) ++ le_split 2 (mdf_version h)
  ++ le_split 2 (mdf_reserved h)
  ++ le_split 8 (start_ts_ns h) ++ le_split 8 (end_ts_ns h)
  ++ le_split 4 (symbol_count h) ++ le_split 4 (frame_count h).

Definition bytes_of_IndexEntry (e : IndexEntry) : list byte :=
  le_split 8 (ts_ns_first e) ++ le_split 8 (file_offset e).

(** An output stream writing [bytes] at position [pos] of a file. *)
Definition overwrite (pos : nat) (bytes content : list byte) : list byte :=
  firstn pos content ++ bytes ++ skipn (pos + length bytes) content.

(** [Recorder::generate_filename]: [data_dir_], ["/md_"] and the UTC date
    and time of the timestamp, to the second.  The count of seconds
    stands for that text: [put_time] prints different seconds
    differently, and equal seconds alike. *)
Definition generate_filename (timestamp_ns : Z) : Z := timestamp_ns / 1000000000.

(** The recorder, its two open files and the data directory.
    [mdf_file_] is the content of the open data file, the put pointer at
    its end; [idx_file_] the entries written to the open index file, in
    order.  Stream writes succeed.  The files of [data_dir_] are named
    by their base path; [closed_mdf_] and [closed_idx_] hold those that
    are not open.  [closed_segments] is not a member of the class: it
    logs every pair of files at the moment it is closed, oldest first,
    whatever becomes of the files later. *)
Record Recorder := mkRecorder {
  roll_bytes_ : Z;                      (* uint64_t *)
  index_interval_ : Z;                  (* uint32_t *)
  mdf_file_ : option (list byte);
  idx_file_ : option (list IndexEntry);
  current_file_start_ts_ : Z;           (* uint64_t *)
  current_file_bytes_ : Z;              (* uint64_t *)
  current_frame_count_ : Z;             (* uint32_t *)
  frames_since_last_index_ : Z;         (* uint32_t *)
  needs_fsync_ : bool;
  frames_written : Z;
  bytes_written : Z;
  files_rolled : Z;
  current_mdf_path_ : option Z;         (* also [current_idx_path_]; [None] when empty *)
  closed_segments : list (list byte * list IndexEntry);  (* log of the closes *)
  closed_mdf_ : gmap Z (list byte);         (* [data_dir_]: the [.mdf] files not open *)
  closed_idx_ : gmap Z (list IndexEntry)    (* [data_dir_]: the [.idx] files not open *)
}.

Definition Recorder_new (roll_bytes index_interval : Z) : Recorder :=
  {| roll_bytes_ := roll_bytes; index_interval_ := index_interval;
     mdf_file_ := None; idx_file_ := None;
     current_file_start_ts_ := 0; current_file_bytes_ := 0;
     current_frame_count_ := 0; frames_since_last_index_ := 0;
     needs_fsync_ := false; frames_written := 0; bytes_written := 0;
     files_rolled := 0; current_mdf_path_ := None; closed_segments := [];
     closed_mdf_ := ∅; closed_idx_ := ∅ |}.

(** The bytes of the index file. *)
Definition idx_file_bytes (entries : list IndexEntry) : list byte :=
  flat_map bytes_of_IndexEntry entries.

(** [Recorder::update_mdf_header]: seek to 0, write the header, seek
    back.  [now] is the reading of the system clock. *)
Definition update_mdf_header (now : Z) (r : Recorder) : Recorder :=
  match mdf_file_ r with
  | None => r
  | Some content =>
      let header :=
        {| mdf_magic := MDF_MAGIC; mdf_version := 1; mdf_reserved := 0;
           start_ts_ns := current_file_start_ts_ r;
           end_ts_ns := now mod 2 ^ 64;
           symbol_count := 0;
           frame_count := current_frame_count_ r |} in
      {| roll_bytes_ := roll_bytes_ r; index_interval_ := index_interval_ r;
         mdf_file_ := Some (overwrite 0 (bytes_of_MdfHeader header) content);
         idx_file_ := idx_file_ r;
         current_file_start_ts_ := current_file_start_ts_ r;
         current_file_bytes_ := current_file_bytes_ r;
         current_frame_count_ := current_frame_count_ r;
         frames_since_last_index_ := frames_since_last_index_ r;
         needs_fsync_ := needs_fsync_ r;
         frames_written := frames_written r; bytes_written := bytes_written r;
         files_rolled := files_rolled r; closed_segments := closed_segments r;
         current_mdf_path_ := current_mdf_path_ r;
         closed_mdf_ := closed_mdf_ r; closed_idx_ := closed_idx_ r |}
  end.

(** [Recorder::write_index_entry] *)
Definition write_index_entry (timestamp_ns file_offset : Z) (r : Recorder) : Recorder :=
  match idx_file_ r with
  | None => r
  | Some entries =>
      {| roll_bytes_ := roll_bytes_ r; index_interval_ := index_interval_ r;
         mdf_file_ := mdf_file_ r;
         idx_file_ := Some (entries ++ [{| ts_ns_first := timestamp_ns;
                                           file_offset := file_offset |}]);
         current_file_start_ts_ := current_file_start_ts_ r;
         current_file_bytes_ := current_file_bytes_ r;
         current_frame_count_ := current_frame_count_ r;
         frames_since_last_index_ := frames_since_last_index_ r;
         needs_fsync_ := needs_fsync_ r;
         frames_written := frames_written r; bytes_written := bytes_written r;
         files_rolled := files_rolled r; closed_segments := closed_segments r;
         current_mdf_path_ := current_mdf_path_ r;
         closed_mdf_ := closed_mdf_ r; closed_idx_ := closed_idx_ r |}
  end.

Definition reset_frames_since_last_index (r : Recorder) : Recorder :=
  {| roll_bytes_ := roll_bytes_ r; index_interval_ := index_interval_ r;
     mdf_file_ := mdf_file_ r; idx_file_ := idx_file_ r;
     current_file_start_ts_ := current_file_start_ts_ r;
     current_file_bytes_ := current_file_bytes_ r;
     current_frame_count_ := current_frame_count_ r;
     frames_since_last_index_ := 0;
     needs_fsync_ := needs_fsync_ r;
     frames_written := frames_written r; bytes_written := bytes_written r;
     files_rolled := files_rolled r; closed_segments := closed_segments r;
         current_mdf_path_ := current_mdf_path_ r;
         closed_mdf_ := closed_mdf_ r; closed_idx_ := closed_idx_ r |}.

(** [Recorder::write_frame] *)
Definition write_frame (now : Z) (frame : Frame) (r : Recorder) : Recorder :=
  match mdf_file_ r with
  | None => r
  | Some content =>
      let encoded := encode_frame frame in
      let size := Z.of_nat (length encoded) in
      let r1 :=
        {| roll_bytes_ := roll_bytes_ r; index_interval_ := index_interval_ r;
           mdf_file_ := Some (content ++ encoded);
           idx_file_ := idx_file_ r;
           current_file_start_ts_ := current_file_start_ts_ r;
           current_file_bytes_ := (current_file_bytes_ r + size) mod 2 ^ 64;
           current_frame_count_ := (current_frame_count_ r + 1) mod 2 ^ 32;
           frames_since_last_index_ := (frames_since_last_index_ r + 1) mod 2 ^ 32;
           needs_fsync_ := true;
           frames_written := (frames_written r + 1) mod 2 ^ 64;
           bytes_written := (bytes_written r + size) mod 2 ^ 64;
           files_rolled := files_rolled r;
           closed_segments := closed_segments r;
         current_mdf_path_ := current_mdf_path_ r;
         closed_mdf_ := closed_mdf_ r; closed_idx_ := closed_idx_ r |} in
      let r2 :=
        if index_interval_ r1 <=? frames_since_last_index_ r1 then
          let timestamp_ns := body_ts_ns (body frame) in
          let file_offset := (current_file_bytes_ r1 - size) mod 2 ^ 64 in
          reset_frames_since_last_index (write_index_entry timestamp_ns file_offset r1)
        else r1 in
      if current_frame_count_ r2 mod 1000 =? 0 then update_mdf_header now r2 else r2
  end.

(** A stream is closed: its content is the file of its path from now
    on. *)
Definition store_closed {A : Type} (file : option A) (path : option Z)
           (dir : gmap Z A) : gmap Z A :=
  match file, path with
  | Some content, Some p => <[p := content]> dir
  | _, _ => dir
  end.

(** [Recorder::close_current_files]: the final header update, the two
    streams closed, the paths cleared. *)
Definition close_current_files (now : Z) (r : Recorder) : Recorder :=
  let r1 := update_mdf_header now r in
  {| roll_bytes_ := roll_bytes_ r1; index_interval_ := index_interval_ r1;
     mdf_file_ := None; idx_file_ := None;
     current_file_start_ts_ := current_file_start_ts_ r1;
     current_file_bytes_ := current_file_bytes_ r1;
     current_frame_count_ := current_frame_count_ r1;
     frames_since_last_index_ := frames_since_last_index_ r1;
     needs_fsync_ := needs_fsync_ r1;
     frames_written := frames_written r1; bytes_written := bytes_written r1;
     files_rolled := files_rolled r1;
     current_mdf_path_ := None;
     closed_segments :=
       match mdf_file_ r1 with
       | Some content => closed_segments r1 ++ [(content, default [] (idx_file_ r1))]
       | None => closed_segments r1
       end;
     closed_mdf_ := store_closed (mdf_file_ r1) (current_mdf_path_ r1) (closed_mdf_ r1);
     closed_idx_ := store_closed (idx_file_ r1) (current_mdf_path_ r1) (closed_idx_ r1) |}.

(** [Recorder::open_new_files]; [mdf_ok] and [idx_ok] say whether the two
    files could be opened.  The paths come from the timestamp, to the
    second.  An [std::ofstream] opened without [std::ios::app] creates
    the file or truncates the one there is: whatever file had the path
    is gone.  When the index file does not open, the data file, just
    created empty, is closed again. *)
Definition open_new_files (mdf_ok idx_ok : bool) (timestamp_ns : Z) (r : Recorder)
  : Recorder :=
  let base_path := generate_filename timestamp_ns in
  if negb mdf_ok then
    {| roll_bytes_ := roll_bytes_ r; index_interval_ := index_interval_ r;
       mdf_file_ := None;
       idx_file_ := idx_file_ r;
       current_file_start_ts_ := current_file_start_ts_ r;
       current_file_bytes_ := current_file_bytes_ r;
       current_frame_count_ := current_frame_count_ r;
       frames_since_last_index_ := frames_since_last_index_ r;
       needs_fsync_ := needs_fsync_ r;
       frames_written := frames_written r; bytes_written := bytes_written r;
       files_rolled := files_rolled r;
       current_mdf_path_ := Some base_path;
       closed_segments := closed_segments r;
       closed_mdf_ := closed_mdf_ r; closed_idx_ := closed_idx_ r |}
  else if negb idx_ok then
    {| roll_bytes_ := roll_bytes_ r; index_interval_ := index_interval_ r;
       mdf_file_ := None;
       idx_file_ := None;
       current_file_start_ts_ := current_file_start_ts_ r;
       current_file_bytes_ := current_file_bytes_ r;
       current_frame_count_ := current_frame_count_ r;
       frames_since_last_index_ := frames_since_last_index_ r;
       needs_fsync_ := needs_fsync_ r;
       frames_written := frames_written r; bytes_written := bytes_written r;
       files_rolled := files_rolled r;
       current_mdf_path_ := Some base_path;
       closed_segments := closed_segments r;
       closed_mdf_ := <[base_path := []]> (closed_mdf_ r);
       closed_idx_ := closed_idx_ r |}
  else
    let header :=
      {| mdf_magic := MDF_MAGIC; mdf_version := 1; mdf_reserved := 0;
         start_ts_ns := timestamp_ns; end_ts_ns := timestamp_ns;
         symbol_count := 0; frame_count := 0 |} in
    {| roll_bytes_ := roll_bytes_ r; index_interval_ := index_interval_ r;
       mdf_file_ := Some (bytes_of_MdfHeader header);
       idx_file_ := Some [];
       current_file_start_ts_ := timestamp_ns;
       current_file_bytes_ := Z.of_nat sizeof_MdfHeader;
       current_frame_count_ := 0;
       frames_since_last_index_ := 0;
       needs_fsync_ := needs_fsync_ r;
       frames_written := frames_written r; bytes_written := bytes_written r;
       files_rolled := files_rolled r;
       current_mdf_path_ := Some base_path;
       closed_segments := closed_segments r;
       closed_mdf_ := delete base_path (closed_mdf_ r);
       closed_idx_ := delete base_path (closed_idx_ r) |}.

(** [Recorder::roll_file_if_needed] *)
Definition roll_file_if_needed (mdf_ok idx_ok : bool) (now timestamp_ns : Z)
           (r : Recorder) : Recorder :=
  let should_roll :=
    match mdf_file_ r, idx_file_ r with
    | Some _, Some _ => roll_bytes_ r <=? current_file_bytes_ r
    | _, _ => true
    end in
  if should_roll then
    let r1 := open_new_files mdf_ok idx_ok timestamp_ns (close_current_files now r) in
    {| roll_bytes_ := roll_bytes_ r1; index_interval_ := index_interval_ r1;
       mdf_file_ := mdf_file_ r1; idx_file_ := idx_file_ r1;
       current_file_start_ts_ := current_file_start_ts_ r1;
       current_file_bytes_ := current_file_bytes_ r1;
       current_frame_count_ := current_frame_count_ r1;
       frames_since_last_index_ := frames_since_last_index_ r1;
       needs_fsync_ := needs_fsync_ r1;
       frames_written := frames_written r1; bytes_written := bytes_written r1;
       files_rolled := (files_rolled r1 + 1) mod 2 ^ 64;
       closed_segments := closed_segments r1;
         current_mdf_path_ := current_mdf_path_ r1;
         closed_mdf_ := closed_mdf_ r1; closed_idx_ := closed_idx_ r1 |}
  else r.

(** [Recorder::force_roll] *)
Definition force_roll (r : Recorder) : Recorder :=
  {| roll_bytes_ := roll_bytes_ r; index_interval_ := index_interval_ r;
     mdf_file_ := mdf_file_ r; idx_file_ := idx_file_ r;
     current_file_start_ts_ := current_file_start_ts_ r;
     current_file_bytes_ := roll_bytes_ r;
     current_frame_count_ := current_frame_count_ r;
     frames_since_last_index_ := frames_since_last_index_ r;
     needs_fsync_ := needs_fsync_ r;
     frames_written := frames_written r; bytes_written := bytes_written r;
     files_rolled := files_rolled r; closed_segments := closed_segments r;
         current_mdf_path_ := current_mdf_path_ r;
         closed_mdf_ := closed_mdf_ r; closed_idx_ := closed_idx_ r |}.

(** The body of the [for] loop of [recording_thread]: the roll decision
    on the timestamp of the frame, then the write.  [now_roll] and [now]
    are the readings of the system clock in the two header updates. *)
Definition record_frame (mdf_ok idx_ok : bool) (now_roll now : Z) (frame : Frame)
           (r : Recorder) : Recorder :=
  write_frame now frame
    (roll_file_if_needed mdf_ok idx_ok now_roll (body_ts_ns (body frame)) r).

(** The data files of [data_dir_], by base path: the closed ones and the
    open one, taken with all that was written to it. *)
Definition mdf_directory (r : Recorder) : gmap Z (list byte) :=
  store_closed (mdf_file_ r) (current_mdf_path_ r) (closed_mdf_ r).

(** The index files of [data_dir_], likewise. *)
Definition idx_directory (r : Recorder) : gmap Z (list IndexEntry) :=
  store_closed (idx_file_ r) (current_mdf_path_ r) (closed_idx_ r).

(** Appending a run of frames to the open segment: [write_frame] on each,
    each with its own clock reading. *)
Definition write_frames (frames : list (Z * Frame)) (r : Recorder) : Recorder :=
  fold_left (fun r nf => write_frame (fst nf) (snd nf) r) frames r.

(** Total encoded size of a run of frames. *)
Definition encoded_size (frames : list (Z * Frame)) : Z :=
  fold_right (fun nf acc => Z.of_nat (length (encode_frame (snd nf))) + acc) 0 frames.

(** Adjacent pairs of a list. *)
Fixpoint adjacent {A : Type} (l : list A) : list (A * A) :=
  match l with
  | a :: (b :: _) as tl => (a, b) :: adjacent tl
  | _ => []
  end.

(** A frame as the constructors and [decode_frame] make them:
    [body_len] is the size of the body. *)
Definition well_formed (f : Frame) : Prop :=
  body_len (header f) = Z.of_nat (body_sizeof (body f)).


(** *** Auxiliary notions for the proofs *)

(** A run of the recording loop in which the files open every time; an
    item is the two clock readings and the frame. *)
Definition record_frames (items : list (Z * Z * Frame)) (r : Recorder) : Recorder :=
  fold_left (fun r it => record_frame true true (fst (fst it)) (snd (fst it)) (snd it) r)
            items r.

(** The frame bytes of a segment file: what follows its header. *)
Definition payload (content : list byte) : list byte := skipn sizeof_MdfHeader content.

(** The frame bytes on disk, the closed segments first, then the open
    one. *)
Definition recorded_bytes (r : Recorder) : list byte :=
  flat_map (fun seg => payload (fst seg)) (closed_segments r)
  ++ payload (default [] (mdf_file_ r)).

(** The segment files on disk, oldest first. *)
Definition segment_files (r : Recorder) : list (list byte) :=
  List.map fst (closed_segments r)
  ++ match mdf_file_ r with Some content => [content] | None => [] end.

(** The encodings of a run of frames, one after the other. *)
Definition encode_all (frames : list Frame) : list byte := flat_map encode_frame frames.

(** The open segment after the frames [frames] were appended to a
    segment opened at [ts] in the recorder [r0]. *)
Record open_segment (r0 : Recorder) (ts : Z) (frames : list (Z * Frame)) (r : Recorder)
  : Prop := {
  os_mdf : exists h, mdf_file_ r
                     = Some (bytes_of_MdfHeader h
                             ++ encode_all (List.map snd frames));
  os_idx : is_Some (idx_file_ r);
  os_count : current_frame_count_ r = Z.of_nat (length frames) mod 2 ^ 32;
  os_start : current_file_start_ts_ r = ts;
  os_closed : closed_segments r = closed_segments r0;
  os_roll : roll_bytes_ r = roll_bytes_ r0;
  os_path : current_mdf_path_ r = Some (generate_filename ts);
  os_dir_mdf : closed_mdf_ r = delete (generate_filename ts) (closed_mdf_ r0);
  os_dir_idx : closed_idx_ r = delete (generate_filename ts) (closed_idx_ r0)
}.

(** The recorder after the recording loop has processed [frames], with
    [roll_bytes_ = rb]. *)
Record recording (rb : Z) (frames : list Frame) (r : Recorder) : Prop := {
  rc_roll : roll_bytes_ r = rb;
  rc_open :
    (mdf_file_ r = None /\ idx_file_ r = None)
    \/ exists h body entries,
         mdf_file_ r = Some (bytes_of_MdfHeader h ++ body)
         /\ idx_file_ r = Some entries
         /\ current_file_bytes_ r = (32 + Z.of_nat (length body)) mod 2 ^ 64;
  rc_bytes : recorded_bytes r = encode_all frames;
  rc_closed :
    Forall (fun seg => (32 <= length (fst seg))%nat
                       /\ rb <= Z.of_nat (length (fst seg)) mod 2 ^ 64)
           (closed_segments r);
  rc_rolled : files_rolled r = Z.of_nat (length (segment_files r)) mod 2 ^ 64
}.

(** The second an item of the recording loop falls in: the base path of
    the segment it opens, if it opens one. *)
Definition item_path (it : Z * Z * Frame) : Z :=
  generate_filename (body_ts_ns (body (snd it))).

(** The frame bytes of the data files of the paths [names], in that
    order. *)
Definition frame_bytes_of (names : list Z) (dir : gmap Z (list byte)) : list byte :=
  flat_map (fun n => payload (default [] (dir !! n))) names.

(** The data directory after the recording loop has processed [frames]
    and opened a segment under each of the paths [names], in that order,
    no path twice. *)
Record stored (names : list Z) (frames : list Frame) (r : Recorder) : Prop := {
  st_nodup : NoDup names;
  st_dom : dom (mdf_directory r) = list_to_set names;
  st_bytes : frame_bytes_of names (mdf_directory r) = encode_all frames;
  st_open :
    (names = [] /\ mdf_file_ r = None /\ idx_file_ r = None)
    \/ exists p h data entries,
         last names = Some p
         /\ current_mdf_path_ r = Some p
         /\ mdf_file_ r = Some (bytes_of_MdfHeader h ++ data)
         /\ idx_file_ r = Some entries;
  st_rolled : files_rolled r = Z.of_nat (length names) mod 2 ^ 64
}.

Definition frame_ts (nf : Z * Frame) : Z := body_ts_ns (body (snd nf)).

(** The index entry [e] marks a frame of the run [frames]: its offset is
    where that frame starts in the file, its timestamp is the frame's. *)
Definition marks (frames : list (Z * Frame)) (e : IndexEntry) : Prop :=
  exists pre nf post,
    frames = pre ++ nf :: post
    /\ file_offset e = 32 + encoded_size pre
    /\ ts_ns_first e = frame_ts nf.

(** An index entry is written at every [interval]-th frame. *)
Definition interval (r : Recorder) : Z := Z.max (index_interval_ r) 1.

(** The state of an open segment after the frames [pre] were appended. *)
Record seg_inv (k : Z) (pre : list (Z * Frame)) (r : Recorder) : Prop := {
  inv_interval : index_interval_ r = k;
  inv_content :
    exists content, mdf_file_ r = Some content
      /\ Z.of_nat (length content) = 32 + encoded_size pre;
  inv_entries :
    exists entries, idx_file_ r = Some entries
      /\ Z.of_nat (length entries) = Z.of_nat (length pre) / Z.max k 1
      /\ Forall (fun e => 32 <= file_offset e < 32 + encoded_size pre
                          /\ In (ts_ns_first e) (List.map frame_ts pre)) entries
      /\ Forall (fun p => file_offset (fst p) < file_offset (snd p)) (adjacent entries)
      /\ (StronglySorted Z.le (List.map frame_ts pre) ->
          Forall (fun p => ts_ns_first (fst p) <= ts_ns_first (snd p))
                 (adjacent entries))
      /\ (forall e, hd_error entries = Some e ->
            file_offset e
            = 32 + encoded_size (firstn (Z.to_nat (Z.max k 1) - 1) pre));
  inv_bytes : current_file_bytes_ r = 32 + encoded_size pre;
  inv_since : frames_since_last_index_ r = Z.of_nat (length pre) mod Z.max k 1
}.

(** Four heartbeat-sized frames whose timestamps are not in order, as
    several normalizer workers can deliver them. *)
Definition hb (ts : Z) : Z * Frame := (0, Frame_of (BodyHb {| hb_ts_ns := ts |}) 0).

Definition unordered_run : list (Z * Frame) := [hb 1; hb 5; hb 2; hb 3].

(** Three heartbeat frames as the recording loop takes them, with its
    clock readings. *)
Definition heartbeat_items : list (Z * Z * Frame) :=
  [(10, 11, snd (hb 1)); (20, 21, snd (hb 2)); (30, 31, snd (hb 3))].

(** Three heartbeat frames one second apart. *)
Definition spaced_items : list (Z * Z * Frame) :=
  [(10, 11, snd (hb 1000000000)); (20, 21, snd (hb 2000000000));
   (30, 31, snd (hb 3000000000))].

End Recorder.

(** ** replay/replayer.cpp *)
Module Replayer.
Import Wire Double Recorder.

(** *** The data directory and input streams *)

Record FsFile := mkFile {
  f_name : string;         (* path of the file *)
  f_regular : bool;        (* [is_regular_file] *)
  f_readable : bool;       (* opening it for reading succeeds *)
  f_bytes : list byte;
  f_max_offset : Z         (* largest offset its file system accepts in a seek *)
}.

(** The entries of [data_dir_], in [directory_iterator] order. *)
Definition Directory := list FsFile.

Definition lookup_file (dir : Directory) (path : string) : option FsFile :=
  List.find (fun f => String.eqb (f_name f) path) dir.

(** [std::ifstream]: [good] is cleared by a short read or a failed seek.
    [s_max_offset] is the limit of the file system the file is on. *)
Record IFStream := mkStream {
  is_open : bool;
  s_bytes : list byte;
  s_pos : nat;
  s_good : bool;
  s_max_offset : Z
}.

Definition open_stream (dir : Directory) (path : string) : IFStream :=
  match lookup_file dir path with
  | Some f =>
      if f_readable f
      then {| is_open := true; s_bytes := f_bytes f; s_pos := 0; s_good := true;
              s_max_offset := f_max_offset f |}
      else {| is_open := false; s_bytes := []; s_pos := 0; s_good := false;
              s_max_offset := f_max_offset f |}
  | None => {| is_open := false; s_bytes := []; s_pos := 0; s_good := false;
               s_max_offset := 0 |}
  end.

(** The largest offset a seek on the stream can ask for: the limit of
    the file system, which is never below that of a 32-bit [off_t]. *)
Definition seek_limit (s : IFStream) : Z := Z.max (2 ^ 31 - 1) (s_max_offset s).

(** [seekg(off)]: nothing on a failed stream.  The unsigned offset is
    converted to the signed [streamoff] and handed to [lseek], which
    refuses a negative offset and one beyond the limit of the file
    system; an offset past the end of the file is accepted. *)
Definition seekg (off : Z) (s : IFStream) : IFStream :=
  if negb (s_good s) then s
  else if (off <? 2 ^ 63) && (off <=? seek_limit s)
  then {| is_open := is_open s; s_bytes := s_bytes s; s_pos := Z.to_nat off;
          s_good := true; s_max_offset := s_max_offset s |}
  else {| is_open := is_open s; s_bytes := s_bytes s; s_pos := s_pos s;
          s_good := false; s_max_offset := s_max_offset s |}.

(** [read(buf, n)] followed by [gcount()]: the bytes read and the stream
    after the read. *)
Definition read (n : nat) (s : IFStream) : list byte * IFStream :=
  if negb (s_good s) then ([], s) else
  let got := firstn n (skipn (s_pos s) (s_bytes s)) in
  (got,
   {| is_open := is_open s; s_bytes := s_bytes s;
      s_pos := (s_pos s + length got)%nat;
      s_good := (length got =? n)%nat; s_max_offset := s_max_offset s |}).

(** *** Sessions *)

Record ReplaySession := mkSession {
  session_id : string;
  rs_start_ts_ns : Z;
  rs_end_ts_ns : Z;
  rate_multiplier : double;
  topics : list string;
  running : bool;
  paused : bool;
  current_ts_ns : Z;
  frames_sent : Z;
  mdf_file : IFStream;
  idx_file : IFStream;
  mdf_path : string;
  idx_path : string;
  tokens : double;
  last_token_time : Z        (* steady clock, ns *)
}.

Record Replayer := mkReplayer {
  sessions_ : gmap string ReplaySession;
  total_sessions : Z;
  active_sessions : Z;
  virtual_topic_prefixes : list string    (* handed to the publisher *)
}.

Definition Replayer_new : Replayer :=
  {| sessions_ := ∅; total_sessions := 0; active_sessions := 0;
     virtual_topic_prefixes := [] |}.

Definition MAX_RATE_MULTIPLIER : double := of_Z 100.
Definition MAX_CONCURRENT_SESSIONS : nat := 10.

(** [Replayer::find_files_for_timestamp]: the first regular [.mdf] file
    named [md_...] of at least 18 characters whose [.idx] sibling
    exists.  The timestamp is not used. *)
Definition is_candidate (f : FsFile) : bool :=
  let name := f_name f in
  let n := String.length name in
  f_regular f
  && String.eqb (substring (n - 4) 4 name) ".mdf"
  && (18 <=? n)%nat
  && String.eqb (substring 0 3 name) "md_".

Definition idx_path_of (mdf_path : string) : string :=
  (substring 0 (String.length mdf_path - 4) mdf_path ++ ".idx")%string.

Fixpoint find_in (dir entries : Directory) : option (string * string) :=
  match entries with
  | [] => None
  | f :: rest =>
      if is_candidate f
      then match lookup_file dir (idx_path_of (f_name f)) with
           | Some _ => Some (f_name f, idx_path_of (f_name f))
           | None => find_in dir rest
           end
      else find_in dir rest
  end.

Definition find_files_for_timestamp (timestamp_ns : Z) (dir : Directory)
  : option (string * string) :=
  find_in dir dir.

(** The index file read as an array of [IndexEntry]. *)
Fixpoint entries_of_bytes (n : nat) (p : list byte) : list IndexEntry :=
  match n with
  | O => []
  | S n' => {| ts_ns_first := get_le 0 8 p; file_offset := get_le 8 8 p |}
            :: entries_of_bytes n' (skipn sizeof_IndexEntry p)
  end.

(** [std::lower_bound] with the comparison [entry.ts_ns_first < target]:
    the halving loop, [first] and [len] its two variables. *)
Fixpoint lower_bound_loop (fuel : nat) (entries : list IndexEntry) (target : Z)
         (first len : nat) : nat :=
  match fuel with
  | O => first
  | S fuel' =>
      if (len =? 0)%nat then first else
      let half := Nat.div2 len in
      let middle := (first + half)%nat in
      match entries !! middle with
      | Some e =>
          if ts_ns_first e <? target
          then lower_bound_loop fuel' entries target (middle + 1) (len - half - 1)
          else lower_bound_loop fuel' entries target first half
      | None => first
      end
  end.

Definition lower_bound (entries : list IndexEntry) (target : Z) : nat :=
  lower_bound_loop (S (length entries)) entries target 0 (length entries).

(** [Replayer::seek_to_timestamp]: the data stream after the seek, and
    the returned flag. *)
Definition seek_to_timestamp (mdf idx : IFStream) (target_ts_ns : Z)
  : IFStream * bool :=
  let idx_size := length (s_bytes idx) in
  let num_entries := (idx_size / sizeof_IndexEntry)%nat in
  if (num_entries =? 0)%nat then
    (seekg (Z.of_nat sizeof_MdfHeader) mdf, true)
  else
    let entries := entries_of_bytes num_entries (s_bytes idx) in
    let it := lower_bound entries target_ts_ns in
    let mdf' :=
      if (it =? 0)%nat then seekg (Z.of_nat sizeof_MdfHeader) mdf
      else match entries !! (it - 1)%nat with
           | Some e => seekg (file_offset e) mdf
           | None => mdf
           end in
    (mdf', s_good mdf').

Definition hex_digit (d : Z) : string :=
  match d with
  | 0 => "0" | 1 => "1" | 2 => "2" | 3 => "3" | 4 => "4" | 5 => "5"
  | 6 => "6" | 7 => "7" | 8 => "8" | 9 => "9" | 10 => "a" | 11 => "b"
  | 12 => "c" | 13 => "d" | 14 => "e" | _ => "f"
  end.

(** [Replayer::generate_session_id]; [draws] are the eight values the
    random generator yields, each between 0 and 15. *)
Definition generate_session_id (draws : list Z) : string :=
  ("rpl_" ++ String.concat EmptyString (List.map hex_digit draws))%string.

Inductive StartResult :=
| Started (id : string)
| InvalidArgument (what : string)     (* [std::invalid_argument] *)
| RuntimeError (what : string).       (* [std::runtime_error] *)


(** [Replayer::start_session].  [dir] is the data directory, [draws] the
    random digits for the session id, [now] the steady clock. *)
Definition start_session (dir : Directory) (draws : list Z) (now : Z)
           (from_ts_ns to_ts_ns : Z) (topics : list string) (rate_multiplier : double)
           (r : Replayer) : StartResult * Replayer :=
  if to_ts_ns <=? from_ts_ns then (InvalidArgument "Invalid timestamp range", r)
  else if leb rate_multiplier (of_Z 0) || ltb MAX_RATE_MULTIPLIER rate_multiplier
  then (InvalidArgument "Invalid rate multiplier", r)
  else if match topics with [] => true | _ :: _ => false end
  then (InvalidArgument "No topics specified", r)
  else if (MAX_CONCURRENT_SESSIONS <=? size (sessions_ r))%nat
  then (RuntimeError "Maximum concurrent sessions exceeded", r)
  else
    match find_files_for_timestamp from_ts_ns dir with
    | None => (RuntimeError "No data files found for timestamp range", r)
    | Some (mdf_path, idx_path) =>
        let id := generate_session_id draws in
        let mdf := open_stream dir mdf_path in
        let idx := open_stream dir idx_path in
        if negb (is_open mdf) || negb (is_open idx)
        then (RuntimeError "Failed to open data files", r)
        else
          let '(mdf', ok) := seek_to_timestamp mdf idx from_ts_ns in
          if negb ok then (RuntimeError "Failed to seek to start timestamp", r)
          else
            let session :=
              {| session_id := id; rs_start_ts_ns := from_ts_ns;
                 rs_end_ts_ns := to_ts_ns; rate_multiplier := rate_multiplier;
                 topics := topics; running := true; paused := false;
                 current_ts_ns := from_ts_ns; frames_sent := 0;
                 mdf_file := mdf'; idx_file := idx;
                 mdf_path := mdf_path; idx_path := idx_path;
                 tokens := of_Z 1000; last_token_time := now |} in
            let sessions' := <[id := session]> (sessions_ r) in
            (Started id,
             {| sessions_ := sessions';
                total_sessions := (total_sessions r + 1) mod 2 ^ 64;
                active_sessions := Z.of_nat (size sessions');
                virtual_topic_prefixes :=
                  virtual_topic_prefixes r ++ [("replay." ++ id)%string] |})
    end.

(** *** Playback *)

Definition with_stream (mdf : IFStream) (s : ReplaySession) : ReplaySession :=
  {| session_id := session_id s; rs_start_ts_ns := rs_start_ts_ns s;
     rs_end_ts_ns := rs_end_ts_ns s; rate_multiplier := rate_multiplier s;
     topics := topics s; running := running s; paused := paused s;
     current_ts_ns := current_ts_ns s; frames_sent := frames_sent s;
     mdf_file := mdf; idx_file := idx_file s;
     mdf_path := mdf_path s; idx_path := idx_path s;
     tokens := tokens s; last_token_time := last_token_time s |}.

Definition with_current_ts (ts : Z) (s : ReplaySession) : ReplaySession :=
  {| session_id := session_id s; rs_start_ts_ns := rs_start_ts_ns s;
     rs_end_ts_ns := rs_end_ts_ns s; rate_multiplier := rate_multiplier s;
     topics := topics s; running := running s; paused := paused s;
     current_ts_ns := ts; frames_sent := frames_sent s;
     mdf_file := mdf_file s; idx_file := idx_file s;
     mdf_path := mdf_path s; idx_path := idx_path s;
     tokens := tokens s; last_token_time := last_token_time s |}.

Definition with_tokens (t : double) (time : Z) (s : ReplaySession) : ReplaySession :=
  {| session_id := session_id s; rs_start_ts_ns := rs_start_ts_ns s;
     rs_end_ts_ns := rs_end_ts_ns s; rate_multiplier := rate_multiplier s;
     topics := topics s; running := running s; paused := paused s;
     current_ts_ns := current_ts_ns s; frames_sent := frames_sent s;
     mdf_file := mdf_file s; idx_file := idx_file s;
     mdf_path := mdf_path s; idx_path := idx_path s;
     tokens := t; last_token_time := time |}.

Definition count_sent (s : ReplaySession) : ReplaySession :=
  {| session_id := session_id s; rs_start_ts_ns := rs_start_ts_ns s;
     rs_end_ts_ns := rs_end_ts_ns s; rate_multiplier := rate_multiplier s;
     topics := topics s; running := running s; paused := paused s;
     current_ts_ns := current_ts_ns s;
     frames_sent := (frames_sent s + 1) mod 2 ^ 64;
     mdf_file := mdf_file s; idx_file := idx_file s;
     mdf_path := mdf_path s; idx_path := idx_path s;
     tokens := tokens s; last_token_time := last_token_time s |}.

(** [Replayer::read_next_frame]: every call consumes the bytes it reads
    from the data stream. *)
Definition read_next_frame (s : ReplaySession) : option Frame * ReplaySession :=
  let mdf := mdf_file s in
  if negb (s_good mdf) then (None, s) else
  let '(hbytes, mdf1) := read HEADER_SIZE mdf in
  if negb (length hbytes =? HEADER_SIZE)%nat then (None, with_stream mdf1 s) else
  let hdr := header_of_bytes hbytes in
  if negb (magic hdr =? FRAME_MAGIC) || negb (version hdr =? 1)
  then (None, with_stream mdf1 s) else
  let '(body_data, mdf2) := read (Z.to_nat (body_len hdr)) mdf1 in
  if negb (Z.of_nat (length body_data) =? body_len hdr)
  then (None, with_stream mdf2 s)
  else (decode_frame (hbytes ++ body_data), with_stream mdf2 s).

(** [Replayer::add_tokens] *)
Definition add_tokens (elapsed_seconds : double) (s : ReplaySession) : ReplaySession :=
  let tokens_to_add := mul (mul elapsed_seconds (of_Z 1000)) (rate_multiplier s) in
  with_tokens (min (add (tokens s) tokens_to_add) (of_Z 10000)) (last_token_time s) s.

(** [Replayer::consume_tokens]; [now] is the steady clock. *)
Definition consume_tokens (now : Z) (tokens_needed : double) (s : ReplaySession)
  : bool * ReplaySession :=
  let elapsed := div (of_Z (now - last_token_time s)) (of_Z 1000000000) in
  let s1 := add_tokens elapsed s in
  let s2 := with_tokens (tokens s1) now s1 in
  if leb tokens_needed (tokens s2)
  then (true, with_tokens (sub (tokens s2) tokens_needed) now s2)
  else (false, s2).

Definition base_topic_of (b : FrameBody) : string :=
  match b with
  | BodyL1 _ => "l1.UNKNOWN"
  | BodyL2 _ => "l2.UNKNOWN"
  | BodyTrade _ => "trade.UNKNOWN"
  | _ => EmptyString
  end.

Definition pattern_has_star (p : string) : bool :=
  existsb (Ascii.eqb "*") (list_ascii_of_string p).

(** The session's topic test in [playback_thread]. *)
Definition should_send (topics : list string) (base_topic : string) : bool :=
  existsb (fun topic_pattern =>
             String.eqb topic_pattern "*"
             || pattern_has_star topic_pattern
             || String.prefix topic_pattern base_topic) topics.

Definition get_virtual_topic (session_id base_topic : string) : string :=
  ("replay." ++ session_id ++ "." ++ base_topic)%string.

(** The state of the playback thread: the session, the local
    [prev_timestamp_ns], and the calls to [publisher_->publish] made so
    far, oldest first. *)
Record Playback := mkPlayback {
  session : ReplaySession;
  prev_timestamp_ns : option Z;
  published : list (string * Frame)
}.

Inductive Control := Continue | Break.

(** One turn of the [while] loop of [playback_thread]; [now] is the
    steady clock at the turn. *)
Definition playback_turn (now : Z) (p : Playback) : Control * Playback :=
  let s := session p in
  if negb (running s) then (Break, p)
  else if paused s then (Continue, p)
  else
    let '(frame_opt, s1) := read_next_frame s in
    match frame_opt with
    | None => (Break, {| session := s1; prev_timestamp_ns := prev_timestamp_ns p;
                         published := published p |})
    | Some frame =>
        let frame_timestamp_ns := body_ts_ns (body frame) in
        if rs_end_ts_ns s1 <? frame_timestamp_ns
        then (Break, {| session := s1; prev_timestamp_ns := prev_timestamp_ns p;
                        published := published p |})
        else
          let s2 := with_current_ts frame_timestamp_ns s1 in
          let throttled :=
            match prev_timestamp_ns p with
            | Some prev =>
                let original_delay_ns := (frame_timestamp_ns - prev) mod 2 ^ 64 in
                let scaled_delay_s :=
                  div (div (of_Z original_delay_ns) (of_Z 1000000000))
                      (rate_multiplier s2) in
                if ltb (of_decimal 1 1000) scaled_delay_s then
                  let tokens_needed := mul scaled_delay_s (of_Z 1000) in
                  let '(ok, s3) := consume_tokens now tokens_needed s2 in
                  (negb ok, s3)
                else (false, s2)
            | None => (false, s2)
            end in
          let '(wait, s3) := throttled in
          if wait
          then (* sleep, then [continue] *)
            (Continue, {| session := s3; prev_timestamp_ns := prev_timestamp_ns p;
                          published := published p |})
          else
            let base_topic := base_topic_of (body frame) in
            if should_send (topics s3) base_topic
            then (Continue,
                  {| session := count_sent s3;
                     prev_timestamp_ns := Some frame_timestamp_ns;
                     published := published p
                                  ++ [(get_virtual_topic (session_id s3) base_topic, frame)] |})
            else (Continue,
                  {| session := s3; prev_timestamp_ns := Some frame_timestamp_ns;
                     published := published p |})
    end.

(** The loop, one clock reading per turn, until it breaks; [None] when
    the readings run out before it does. *)
Fixpoint playback_thread (nows : list Z) (p : Playback) : option Playback :=
  match nows with
  | [] => None
  | now :: rest =>
      match playback_turn now p with
      | (Break, p') => Some p'
      | (Continue, p') => playback_thread rest p'
      end
  end.

(** The frames stored in a segment body, in file order. *)
Fixpoint frames_of_segment (fuel : nat) (data : list byte) : list Frame :=
  match fuel with
  | O => []
  | S fuel' =>
      match decode_frame data with
      | Some f =>
          f :: frames_of_segment fuel'
                 (skipn (HEADER_SIZE + Z.to_nat (body_len (header f))) data)
      | None => []
      end
  end.


(** *** Session control *)

Definition with_sessions (m : gmap string ReplaySession) (r : Replayer) : Replayer :=
  {| sessions_ := m; total_sessions := total_sessions r;
     active_sessions := active_sessions r;
     virtual_topic_prefixes := virtual_topic_prefixes r |}.

Definition with_paused (b : bool) (time : Z) (s : ReplaySession) : ReplaySession :=
  {| session_id := session_id s; rs_start_ts_ns := rs_start_ts_ns s;
     rs_end_ts_ns := rs_end_ts_ns s; rate_multiplier := rate_multiplier s;
     topics := topics s; running := running s; paused := b;
     current_ts_ns := current_ts_ns s; frames_sent := frames_sent s;
     mdf_file := mdf_file s; idx_file := idx_file s;
     mdf_path := mdf_path s; idx_path := idx_path s;
     tokens := tokens s; last_token_time := time |}.

(** [Replayer::pause_session] *)
Definition pause_session (id : string) (r : Replayer) : Replayer :=
  match sessions_ r !! id with
  | Some s => with_sessions (<[id := with_paused true (last_token_time s) s]> (sessions_ r)) r
  | None => r
  end.

(** [Replayer::resume_session]; [now] is the steady clock. *)
Definition resume_session (id : string) (now : Z) (r : Replayer) : Replayer :=
  match sessions_ r !! id with
  | Some s => with_sessions (<[id := with_paused false now s]> (sessions_ r)) r
  | None => r
  end.

(** [Replayer::seek_session]: the data stream is moved by the seek
    whether or not the seek succeeds; [current_ts_ns] follows when it
    does. *)
Definition seek_session (id : string) (ts_ns : Z) (r : Replayer) : Replayer :=
  match sessions_ r !! id with
  | Some s =>
      if (rs_start_ts_ns s <=? ts_ns) && (ts_ns <=? rs_end_ts_ns s) then
        let '(mdf', ok) := seek_to_timestamp (mdf_file s) (idx_file s) ts_ns in
        let s1 := with_stream mdf' s in
        with_sessions
          (<[id := if ok then with_current_ts ts_ns s1 else s1]> (sessions_ r)) r
      else r
  | None => r
  end.

(** [Replayer::stop_session]: the session leaves the table. *)
Definition stop_session (id : string) (r : Replayer) : Replayer :=
  match sessions_ r !! id with
  | Some _ =>
      let sessions' := delete id (sessions_ r) in
      {| sessions_ := sessions'; total_sessions := total_sessions r;
         active_sessions := Z.of_nat (size sessions');
         virtual_topic_prefixes := virtual_topic_prefixes r |}
  | None => r
  end.

(** The calls the control plane makes on the replayer. *)
Inductive ReplayCall :=
| CallStart (dir : Directory) (draws : list Z) (now : Z) (from_ts_ns to_ts_ns : Z)
            (topics : list string) (rate_multiplier : double)
| CallPause (id : string)
| CallResume (id : string) (now : Z)
| CallSeek (id : string) (ts_ns : Z)
| CallStop (id : string).

Definition replay_call (r : Replayer) (c : ReplayCall) : Replayer :=
  match c with
  | CallStart dir draws now from_ts_ns to_ts_ns topics rate =>
      snd (start_session dir draws now from_ts_ns to_ts_ns topics rate r)
  | CallPause id => pause_session id r
  | CallResume id now => resume_session id now r
  | CallSeek id ts_ns => seek_session id ts_ns r
  | CallStop id => stop_session id r
  end.

(** The rates the test [rate <= 0 || rate > MAX_RATE_MULTIPLIER] lets
    through: a rate above 0 and at most 100, and also a NaN, with which
    every comparison is false. *)
Definition rate_accepted (rate : double) : Prop :=
  rate = S754_nan
  \/ (ltb (of_Z 0) rate = true /\ leb rate MAX_RATE_MULTIPLIER = true).

(** What [start_session] checked of a session, and the key it is stored
    under. *)
Definition valid_session (id : string) (s : ReplaySession) : Prop :=
  session_id s = id
  /\ rs_start_ts_ns s < rs_end_ts_ns s
  /\ rate_accepted (rate_multiplier s)
  /\ topics s <> []
  /\ running s = true.

(** Reading frames one after the other, until [read_next_frame] fails
    or [n] frames are read. *)
Fixpoint read_frames (n : nat) (s : ReplaySession) : list Frame * ReplaySession :=
  match n with
  | O => ([], s)
  | S n' =>
      match read_next_frame s with
      | (Some f, s') => let '(fs, s'') := read_frames n' s' in (f :: fs, s'')
      | (None, s') => ([], s')
      end
  end.

(** A frame as the decoder returns it: the [crc32] field holds the CRC
    of the body. *)
Definition sealed (f : Frame) : Frame :=
  Frame_of (body f) (Crc32.calculate_crc32 (bytes_of_body (body f))).

(** A frame made by one of the constructors, every body field in the
    range of its type. *)
Definition constructed (f : Frame) : Prop :=
  exists b crc0, f = Frame_of b crc0 /\ valid_body b.



(** The state of the session table the control plane relies on. *)
Definition table_inv (r : Replayer) : Prop :=
  (size (sessions_ r) <= MAX_CONCURRENT_SESSIONS)%nat
  /\ active_sessions r = Z.of_nat (size (sessions_ r))
  /\ forall id s, sessions_ r !! id = Some s -> valid_session id s.

(** The index entry a seek to [target] starts from: the last one whose
    timestamp is below the target. *)
Definition seek_entry (entries : list IndexEntry) (target : Z) : option IndexEntry :=
  last (List.filter (fun e => ts_ns_first e <? target) entries).

(** *** Concrete segments and directories *)

Definition trade_at (ts seq : Z) : Frame :=
  Frame_of (BodyTrade {| tr_ts_ns := ts; tr_symbol_id := 1; tr_price := 1000000000;
                         tr_size := 100000000; tr_aggressor_side := 0;
                         tr_seq := seq |}) 0.

(** A segment as the recorder leaves it: the header, then three trades,
    the second three seconds after the first; no index entry yet. *)
Definition quiet_gap_segment : list byte :=
  bytes_of_MdfHeader {| mdf_magic := MDF_MAGIC; mdf_version := 1; mdf_reserved := 0;
                        start_ts_ns := 1000000000; end_ts_ns := 4001000000;
                        symbol_count := 0; frame_count := 3 |}
  ++ encode_frame (trade_at 1000000000 1)
  ++ encode_frame (trade_at 4000000000 2)
  ++ encode_frame (trade_at 4001000000 3).

Definition quiet_gap_dir : Directory :=
  [ {| f_name := "md_19700101_000001.mdf"; f_regular := true; f_readable := true;
       f_bytes := quiet_gap_segment;
       f_max_offset := 17592186040320 |};
    {| f_name := "md_19700101_000001.idx"; f_regular := true; f_readable := true;
       f_bytes := [];
       f_max_offset := 17592186040320 |} ].


Definition zero_draws : list Z := [0; 0; 0; 0; 0; 0; 0; 0].

(** The session a successful start registered. *)
Definition started (res : StartResult * Replayer) : option ReplaySession :=
  match fst res with
  | Started id => sessions_ (snd res) !! id
  | _ => None
  end.

(** A session on the segment of [quiet_gap_dir], as [start_session]
    registers it. *)
Definition sample_session : ReplaySession :=
  {| session_id := "rpl_00000000"; rs_start_ts_ns := 0; rs_end_ts_ns := 10000000000;
     rate_multiplier := of_Z 1; topics := ["trade"%string];
     running := true; paused := false; current_ts_ns := 0; frames_sent := 0;
     mdf_file := seekg (Z.of_nat sizeof_MdfHeader)
                   (open_stream quiet_gap_dir "md_19700101_000001.mdf");
     idx_file := open_stream quiet_gap_dir "md_19700101_000001.idx";
     mdf_path := "md_19700101_000001.mdf"; idx_path := "md_19700101_000001.idx";
     tokens := of_Z 1000; last_token_time := 0 |}.

(** Replay of [quiet_gap_segment] from 0 to 10 s at rate 1, topics
    ["trade"], the loop turning every 100 microseconds. *)
Definition quiet_gap_playback : option Playback :=
  match started (start_session quiet_gap_dir zero_draws 0 0 10000000000
                               ["trade"%string] (of_Z 1) Replayer_new) with
  | Some s =>
      playback_thread [1000; 101000; 201000; 301000]
        {| session := s; prev_timestamp_ns := None; published := [] |}
  | None => None
  end.


End Replayer.

(** * Properties *)

(** ** CRC-32 *)
Module CrcFacts.
Import Crc32.

Lemma log2_lt_of_range n a : 0 < n -> 0 <= a < 2 ^ n -> Z.log2 a < n.
Proof.
  intros Hn Ha. destruct (Z.eq_dec a 0) as [->|Hz]; [simpl; lia|].
  apply Z.log2_lt_pow2; lia.
Qed.

Lemma lxor_range n a b :
  0 <= n -> 0 <= a < 2 ^ n -> 0 <= b < 2 ^ n -> 0 <= Z.lxor a b < 2 ^ n.
Proof.
  intros Hn Ha Hb.
  assert (Hnn : 0 <= Z.lxor a b) by (apply Z.lxor_nonneg; lia).
  split; [exact Hnn|].
  destruct (Z.eq_dec n 0) as [->|Hn0].
  - assert (a = 0) by (simpl in *; lia). assert (b = 0) by (simpl in *; lia).
    subst. rewrite Z.lxor_0_l. lia.
  - destruct (Z.eq_dec (Z.lxor a b) 0) as [->|Hz]; [apply Z.pow_pos_nonneg; lia|].
    apply Z.log2_lt_pow2; [lia|].
    pose proof (Z.log2_lxor a b ltac:(lia) ltac:(lia)).
    pose proof (log2_lt_of_range n a ltac:(lia) Ha).
    pose proof (log2_lt_of_range n b ltac:(lia) Hb). lia.
Qed.

Lemma table_is_map :
  crc32_table = List.map (fun i => table_entry (Z.of_nat i)) (seq 0 256).
Proof. vm_compute. reflexivity. Qed.

Lemma table_nth i : 0 <= i < 256 -> nth (Z.to_nat i) crc32_table 0 = table_entry i.
Proof.
  intros Hi. rewrite table_is_map.
  rewrite (nth_indep _ 0 (table_entry (Z.of_nat 0)))
    by (rewrite List.length_map, List.length_seq; lia).
  rewrite (map_nth (fun i => table_entry (Z.of_nat i)) (seq 0 256) 0%nat).
  rewrite seq_nth by lia. rewrite Nat.add_0_l, Z2Nat.id by lia. reflexivity.
Qed.

Lemma table_bounded :
  forallb (fun x => (0 <=? x) && (x <? 2 ^ 32)) crc32_table = true.
Proof. vm_compute. reflexivity. Qed.

Lemma table_nth_range n : 0 <= nth n crc32_table 0 < 2 ^ 32.
Proof.
  destruct (Nat.lt_ge_cases n (length crc32_table)) as [Hlt|Hge].
  - pose proof table_bounded as Hb. rewrite forallb_forall in Hb.
    specialize (Hb _ (nth_In _ 0 Hlt)). lia.
  - rewrite nth_overflow by exact Hge. lia.
Qed.

Lemma update_range crc b : 0 <= crc < 2 ^ 32 -> 0 <= update crc b < 2 ^ 32.
Proof.
  intros Hc. unfold update. apply lxor_range; try lia.
  - split; [apply Z.shiftr_nonneg; lia|].
    rewrite Z.shiftr_div_pow2 by lia.
    apply Z.div_lt_upper_bound; lia.
  - apply table_nth_range.
Qed.

Lemma fold_update_range data :
  forall crc, 0 <= crc < 2 ^ 32 -> 0 <= fold_left update data crc < 2 ^ 32.
Proof.
  induction data as [|b data IH]; intros crc Hc; simpl; [exact Hc|].
  apply IH, update_range, Hc.
Qed.

Lemma calculate_crc32_range data : 0 <= calculate_crc32 data < 2 ^ 32.
Proof.
  unfold calculate_crc32. apply lxor_range; try lia.
  apply fold_update_range. lia.
Qed.

(** The step of the bit-at-a-time algorithm is linear over XOR. *)
Lemma land1_lxor x y :
  (Z.land (Z.lxor x y) 1 =? 0)
  = negb (xorb (negb (Z.land x 1 =? 0)) (negb (Z.land y 1 =? 0))).
Proof.
  change 1 with (Z.ones 1). rewrite !Z.land_ones by lia. change (2 ^ 1) with 2.
  rewrite <- !Z.bit0_mod, Z.lxor_spec.
  destruct (Z.testbit x 0), (Z.testbit y 0); reflexivity.
Qed.

Lemma table_step_lxor x y :
  table_step (Z.lxor x y) = Z.lxor (table_step x) (table_step y).
Proof.
  unfold table_step. rewrite land1_lxor, Z.shiftr_lxor.
  destruct (Z.land x 1 =? 0), (Z.land y 1 =? 0); simpl.
  - reflexivity.
  - rewrite Z.lxor_assoc. reflexivity.
  - rewrite !Z.lxor_assoc. f_equal. apply Z.lxor_comm.
  - rewrite Z.lxor_assoc, (Z.lxor_comm polynomial), <- !Z.lxor_assoc.
    rewrite (Z.lxor_assoc _ polynomial polynomial), Z.lxor_nilpotent, Z.lxor_0_r.
    reflexivity.
Qed.

Lemma iter_step_lxor n x y :
  Nat.iter n table_step (Z.lxor x y)
  = Z.lxor (Nat.iter n table_step x) (Nat.iter n table_step y).
Proof.
  induction n; simpl; [reflexivity|]. rewrite IHn. apply table_step_lxor.
Qed.

Lemma iter_step_shiftl n h : Nat.iter n table_step (Z.shiftl h (Z.of_nat n)) = h.
Proof.
  induction n.
  - simpl. apply Z.shiftl_0_r.
  - rewrite Nat.iter_succ_r.
    assert (Hs : table_step (Z.shiftl h (Z.of_nat (S n))) = Z.shiftl h (Z.of_nat n)).
    { unfold table_step.
      assert (Hl : Z.land (Z.shiftl h (Z.of_nat (S n))) 1 = 0).
      { change 1 with (Z.ones 1). rewrite Z.land_ones by lia. change (2 ^ 1) with 2.
        rewrite <- Z.bit0_mod. rewrite Z.shiftl_spec_low; [reflexivity|lia]. }
      rewrite Hl. simpl negb. cbv iota.
      rewrite Z.shiftr_shiftl_l by lia. f_equal. lia. }
    rewrite Hs. exact IHn.
Qed.

(** One table look-up does the work of eight bit steps. *)
Lemma update_eight_steps crc b :
  0 <= crc -> update crc b = Nat.iter 8 table_step (Z.lxor crc (byte.unsigned b)).
Proof.
  intros Hc. unfold update.
  pose proof (byte.unsigned_range b) as Hb.
  set (lo := Z.lxor (Z.land crc 255) (byte.unsigned b)).
  assert (Hlo : 0 <= lo < 256).
  { subst lo. change 256 with (2 ^ 8). apply lxor_range; try lia.
    change 255 with (Z.ones 8). rewrite Z.land_ones by lia. apply Z.mod_pos_bound. lia. }
  rewrite table_nth by exact Hlo.
  assert (Hsplit : Z.lxor crc (byte.unsigned b)
                   = Z.lxor (Z.shiftl (Z.shiftr crc 8) 8) lo).
  { subst lo. rewrite <- Z.lxor_assoc. f_equal.
    change 255 with (Z.ones 8).
    apply Z.bits_inj'. intros n Hn.
    rewrite Z.lxor_spec, Z.land_spec.
    destruct (Z.lt_ge_cases n 8).
    - rewrite Z.shiftl_spec_low by lia. rewrite Z.ones_spec_low by lia.
      rewrite andb_true_r. reflexivity.
    - rewrite Z.shiftl_spec by lia. rewrite Z.shiftr_spec by lia.
      rewrite Z.ones_spec_high by lia. rewrite andb_false_r, xorb_false_r.
      f_equal. lia. }
  rewrite Hsplit, iter_step_lxor.
  rewrite (iter_step_shiftl 8). reflexivity.
Qed.

(** The loop body of [init_table] is the register step of the
    specification with no message bit; this is where the polynomial of
    the code meets the polynomial of the specification. *)
Lemma reference_bit_step crc bit :
  reference_bit crc bit = table_step (Z.lxor crc (Z.b2z bit)).
Proof.
  unfold reference_bit, table_step.
  assert (Hlow : negb (Z.land (Z.lxor crc (Z.b2z bit)) 1 =? 0)
                 = xorb (Z.testbit crc 0) bit).
  { change 1 with (Z.ones 1). rewrite Z.land_ones by lia. change (2 ^ 1) with 2.
    rewrite <- Z.bit0_mod, Z.lxor_spec, Z.b2z_bit0.
    destruct (xorb (Z.testbit crc 0) bit); reflexivity. }
  assert (Hhigh : Z.shiftr (Z.lxor crc (Z.b2z bit)) 1 = Z.shiftr crc 1).
  { rewrite Z.shiftr_lxor. destruct bit; cbn [Z.b2z].
    - change (Z.shiftr 1 1) with 0. apply Z.lxor_0_r.
    - change (Z.shiftr 0 1) with 0. apply Z.lxor_0_r. }
  rewrite Hlow, Hhigh. reflexivity.
Qed.

(** The low [n + 1] bits of a number: its lowest bit, and the low [n]
    bits of its half one place up. *)
Lemma low_bits_succ B n :
  0 <= n ->
  B mod 2 ^ (n + 1)
  = Z.lxor (Z.b2z (Z.testbit B 0)) (Z.shiftl ((B / 2) mod 2 ^ n) 1).
Proof.
  intros Hn. rewrite <- !Z.land_ones by lia.
  apply Z.bits_inj'. intros k Hk.
  rewrite Z.lxor_spec, Z.land_spec.
  destruct (Z.eq_dec k 0) as [->|Hk0].
  - rewrite Z.shiftl_spec_low by lia. rewrite Z.b2z_bit0.
    rewrite Z.ones_spec_low by lia. rewrite andb_true_r, xorb_false_r. reflexivity.
  - rewrite Z.shiftl_spec by lia. rewrite Z.land_spec.
    assert (Hb : Z.testbit (Z.b2z (Z.testbit B 0)) k = false).
    { destruct (Z.testbit B 0); cbn [Z.b2z]; [|apply Z.testbit_0_l].
      apply Z.bits_above_log2; [lia|]. change (Z.log2 1) with 0. lia. }
    rewrite Hb. cbn [xorb].
    rewrite <- (Z.div2_div B), Z.div2_spec, Z.shiftr_spec by lia.
    replace (k - 1 + 1) with k by lia. f_equal.
    destruct (Z.lt_ge_cases k (n + 1)).
    + rewrite !Z.ones_spec_low by lia. reflexivity.
    + rewrite !Z.ones_spec_high by lia. reflexivity.
Qed.

(** Feeding the low [n] bits of [B] one at a time is XORing them into
    the register at once and stepping [n] times. *)
Lemma reference_bits_iter n : forall B crc,
  fold_left reference_bit
            (List.map (fun i => Z.testbit B (Z.of_nat i)) (seq 0 n)) crc
  = Nat.iter n table_step (Z.lxor crc (B mod 2 ^ Z.of_nat n)).
Proof.
  induction n as [|n IH]; intros B crc.
  - cbn [seq List.map fold_left Nat.iter Z.of_nat]. change (2 ^ 0) with 1.
    rewrite Z.mod_1_r, Z.lxor_0_r. reflexivity.
  - cbn [seq List.map fold_left]. rewrite <- seq_shift, List.map_map.
    rewrite (map_ext (fun i => Z.testbit B (Z.of_nat (S i)))
                     (fun i => Z.testbit (B / 2) (Z.of_nat i))).
    2:{ intros i. rewrite <- Z.div2_div, Z.div2_spec, Z.shiftr_spec by lia.
        f_equal. lia. }
    rewrite IH, Nat.iter_succ_r. f_equal.
    replace (Z.of_nat (S n)) with (Z.of_nat n + 1) by lia.
    rewrite low_bits_succ by lia.
    rewrite <- Z.lxor_assoc, table_step_lxor, <- reference_bit_step.
    change (Z.of_nat 0) with 0. f_equal.
    symmetry. apply (iter_step_shiftl 1).
Qed.

(** One table look-up does the work of the eight bit steps of the
    specification. *)
Lemma update_reference crc b : 0 <= crc -> update crc b = reference_update crc b.
Proof.
  intros Hc. rewrite update_eight_steps by exact Hc.
  unfold reference_update, bits_of_byte. rewrite reference_bits_iter.
  pose proof (byte.unsigned_range b) as Hb.
  change (2 ^ Z.of_nat 8) with 256. rewrite Z.mod_small by lia. reflexivity.
Qed.

(** The table-driven [calculate_crc32] computes the CRC-32 of the
    specification. *)
Lemma calculate_crc32_reference data : calculate_crc32 data = reference_crc32 data.
Proof.
  unfold calculate_crc32, reference_crc32. f_equal.
  assert (H : forall crc, 0 <= crc < 2 ^ 32 ->
                fold_left update data crc = fold_left reference_update data crc).
  { induction data as [|b data IH]; intros crc Hc; simpl; [reflexivity|].
    rewrite <- update_reference by lia. apply IH, update_range, Hc. }
  apply H. lia.
Qed.

(** The standard check value: the CRC-32 of the ASCII digits 1 to 9. *)
Example crc32_check_value :
  calculate_crc32 (List.map (fun c => byte.of_Z (Z.of_nat (nat_of_ascii c)))
                            (list_ascii_of_string "123456789"))
  = 0xCBF43926.
Proof. vm_compute. reflexivity. Qed.

(** The CRC-32 of the specification has the same check value. *)
Example reference_check_value :
  reference_crc32 (List.map (fun c => byte.of_Z (Z.of_nat (nat_of_ascii c)))
                            (list_ascii_of_string "123456789"))
  = 0xCBF43926.
Proof. vm_compute. reflexivity. Qed.

End CrcFacts.

(** ** Wire framing *)
Module WireFacts.
Import Crc32 Wire CrcFacts.

Lemma to_signed64_wrap x : i64 x -> to_signed64 (x mod 2 ^ 64) = x.
Proof.
  unfold i64, to_signed64. intros Hx.
  destruct (Z.ltb_spec (x mod 2 ^ 64) (2 ^ 63)); Z.div_mod_to_equations; lia.
Qed.

Lemma le_roundtrip n x : 0 <= x < 2 ^ (Z.of_nat n * 8) -> le_combine (le_split n x) = x.
Proof. intros Hx. rewrite le_combine_split. apply Z.mod_small, Hx. Qed.

(** A field read back at its offset from the bytes it was written to. *)
Ltac le_field :=
  lazymatch goal with
  | |- to_signed64 (get_le _ ?n _) = ?v =>
      change (to_signed64 (le_combine (le_split n v)) = v);
      rewrite le_combine_split; apply to_signed64_wrap; assumption
  | |- get_le _ ?n _ = ?v =>
      change (le_combine (le_split n v) = v);
      apply le_roundtrip; assumption
  end.

Lemma L1_roundtrip x : valid_body (BodyL1 x) -> L1_of_bytes (bytes_of_L1 x) = x.
Proof.
  destruct x; cbn [valid_body l1_ts_ns l1_symbol_id bid_px bid_sz ask_px ask_sz l1_seq].
  intros (? & ? & ? & ? & ? & ? & ?).
  unfold L1_of_bytes. f_equal; le_field.
Qed.

Lemma L2_roundtrip x : valid_body (BodyL2 x) -> L2_of_bytes (bytes_of_L2 x) = x.
Proof.
  destruct x;
    cbn [valid_body l2_ts_ns l2_symbol_id l2_side l2_action l2_level l2_price
                    l2_size l2_seq].
  intros (? & ? & ? & ? & ? & ? & ? & ?).
  unfold L2_of_bytes. f_equal; le_field.
Qed.

Lemma Trade_roundtrip x :
  valid_body (BodyTrade x) -> Trade_of_bytes (bytes_of_Trade x) = x.
Proof.
  destruct x;
    cbn [valid_body tr_ts_ns tr_symbol_id tr_price tr_size tr_aggressor_side tr_seq].
  intros (? & ? & ? & ? & ? & ?).
  unfold Trade_of_bytes. f_equal; le_field.
Qed.

Lemma Hb_roundtrip x : valid_body (BodyHb x) -> Hb_of_bytes (bytes_of_Hb x) = x.
Proof.
  destruct x; cbn [valid_body hb_ts_ns]. intros ?.
  unfold Hb_of_bytes. f_equal; le_field.
Qed.

Lemma Ack_roundtrip x : valid_body (BodyAck x) -> Ack_of_bytes (bytes_of_Ack x) = x.
Proof.
  destruct x; cbn [valid_body ack_code reserved]. intros (? & ?).
  unfold Ack_of_bytes. f_equal; le_field.
Qed.

Lemma header_roundtrip h rest :
  valid_header h -> header_of_bytes (bytes_of_header h ++ rest) = h.
Proof.
  destruct h; unfold valid_header; cbn [magic version msg_type body_len crc32].
  intros (? & ? & ? & ? & ?).
  unfold header_of_bytes. f_equal; le_field.
Qed.

Lemma length_bytes_of_header h : length (bytes_of_header h) = HEADER_SIZE.
Proof. reflexivity. Qed.

Lemma length_bytes_of_body b : length (bytes_of_body b) = body_sizeof b.
Proof. destruct b; reflexivity. Qed.

Lemma resize_copy_exact n src : length src = n -> resize_copy n src = src.
Proof.
  intros <-. unfold resize_copy. rewrite Nat.sub_diag. cbn [repeat].
  rewrite app_nil_r. apply firstn_all.
Qed.

Lemma skipn_header h rest : skipn HEADER_SIZE (bytes_of_header h ++ rest) = rest.
Proof. reflexivity. Qed.

Lemma length_encode_frame f : (16 <= length (encode_frame f))%nat.
Proof.
  unfold encode_frame. rewrite length_app.
  change (length (bytes_of_header _)) with 16%nat. lia.
Qed.

Lemma encode_frame_Frame_of b crc0 :
  encode_frame (Frame_of b crc0)
  = bytes_of_header (header (Frame_of b (calculate_crc32 (bytes_of_body b))))
    ++ bytes_of_body b.
Proof.
  unfold encode_frame. cbn [Frame_of header body magic version msg_type body_len crc32].
  rewrite Nat2Z.id, resize_copy_exact by apply length_bytes_of_body. reflexivity.
Qed.

Lemma valid_header_Frame_of b :
  valid_header (header (Frame_of b (calculate_crc32 (bytes_of_body b)))).
Proof.
  unfold valid_header. cbn [Frame_of header magic version msg_type body_len crc32].
  pose proof (calculate_crc32_range (bytes_of_body b)).
  unfold u32, u16, FRAME_MAGIC.
  destruct b; cbn [body_msg_type body_sizeof];
    unfold MT_L1, MT_L2, MT_Trade, MT_Heartbeat, MT_ControlAck,
           sizeof_L1, sizeof_L2, sizeof_Trade, sizeof_Hb, sizeof_Ack; lia.
Qed.

Lemma body_roundtrip b :
  valid_body b ->
  match b with
  | BodyL1 x => L1_of_bytes (bytes_of_body b) = x
  | BodyL2 x => L2_of_bytes (bytes_of_body b) = x
  | BodyTrade x => Trade_of_bytes (bytes_of_body b) = x
  | BodyHb x => Hb_of_bytes (bytes_of_body b) = x
  | BodyAck x => Ack_of_bytes (bytes_of_body b) = x
  end.
Proof.
  destruct b; cbn [bytes_of_body]; intros Hv;
    auto using L1_roundtrip, L2_roundtrip, Trade_roundtrip, Hb_roundtrip, Ack_roundtrip.
Qed.

(** [decode_frame] on a well-formed header followed by its body region
    reaches the final switch. *)
Lemma decode_frame_wire h region :
  valid_header h -> magic h = FRAME_MAGIC -> version h = 1 ->
  Z.of_nat (length region) = body_len h -> crc32 h = calculate_crc32 region ->
  decode_frame (bytes_of_header h ++ region) = decode_body h region.
Proof.
  intros Hh Hm Hv Hlen Hcrc. unfold decode_frame.
  rewrite (header_roundtrip h region Hh), skipn_header.
  rewrite length_app, length_bytes_of_header.
  destruct (Nat.ltb_spec (HEADER_SIZE + length region) HEADER_SIZE) as [Hlt|_]; [lia|].
  rewrite Hm, Hv, !Z.eqb_refl. cbn [negb orb].
  destruct (Z.ltb_spec (Z.of_nat (HEADER_SIZE + length region))
                       (Z.of_nat HEADER_SIZE + body_len h)) as [Hlt|_]; [lia|].
  replace (Z.to_nat (body_len h)) with (length region) by lia.
  rewrite firstn_all, <- Hcrc, Z.eqb_refl. cbn [negb].
  reflexivity.
Qed.

(** Claim C1.  For every valid frame body [b], decoding the encoding of
    [Frame(b)] returns [Frame(b)] with the CRC in the header's [crc32],
    the one field the constructor leaves unset (hence the arbitrary
    [crc0]); so a frame whose [crc32] already is the CRC comes back
    equal to itself.  The header
    on the wire carries magic 0x4D444146, version 1, the message type of
    the variant, a [body_len] equal to the exact byte size of the body,
    and the CRC-32 of the specification (reflected, polynomial
    0xEDB88320, initial value and final XOR 0xFFFFFFFF) of the body
    bytes, which follow the 16 header bytes. *)
Theorem encode_decode_roundtrip (b : FrameBody) (crc0 : Z) :
  valid_body b ->
  let f := Frame_of b crc0 in
  let wire := encode_frame f in
  let crc := reference_crc32 (bytes_of_body b) in
  decode_frame wire = Some (Frame_of b crc)
  /\ (crc0 = crc -> decode_frame wire = Some f)
  /\ header_of_bytes wire =
       {| magic := 0x4D444146; version := 1; msg_type := body_msg_type b;
          body_len := Z.of_nat (length (bytes_of_body b)); crc32 := crc |}
  /\ skipn HEADER_SIZE wire = bytes_of_body b.
Proof.
  intros Hv f wire crc.
  assert (Hcrc : crc = calculate_crc32 (bytes_of_body b))
    by (symmetry; apply calculate_crc32_reference).
  assert (Hdec : decode_frame wire = Some (Frame_of b crc)).
  { subst wire f. rewrite encode_frame_Frame_of, <- Hcrc.
    pose proof (valid_header_Frame_of b) as Hh. rewrite <- Hcrc in Hh.
    rewrite decode_frame_wire; try assumption; try reflexivity.
    - pose proof (body_roundtrip b Hv) as Hb.
      destruct b; cbn in Hb |- *; unfold decode_body; cbn; rewrite Hb; reflexivity.
    - cbn. f_equal. apply length_bytes_of_body. }
  split; [exact Hdec|]. split; [intros ->; exact Hdec|].
  subst wire f. rewrite encode_frame_Frame_of, <- Hcrc.
  pose proof (valid_header_Frame_of b) as Hh. rewrite <- Hcrc in Hh.
  pose proof (header_roundtrip _ (bytes_of_body b) Hh) as Hhdr.
  split.
  - rewrite Hhdr. rewrite length_bytes_of_body. reflexivity.
  - apply skipn_header.
Qed.

Lemma encode_decode_roundtrip_witness :
  valid_body scenario_l1_body
  /\ reference_crc32 (bytes_of_body scenario_l1_body) = 729289798
  /\ decode_frame (encode_frame (Frame_of scenario_l1_body 0))
     = Some (Frame_of scenario_l1_body 729289798).
Proof.
  assert (Hv : valid_body scenario_l1_body).
  { unfold scenario_l1_body, valid_body, u64, u32, i64.
    cbn [l1_ts_ns l1_symbol_id bid_px bid_sz ask_px ask_sz l1_seq]. lia. }
  assert (Hcrc : reference_crc32 (bytes_of_body scenario_l1_body) = 729289798)
    by (vm_compute; reflexivity).
  split; [exact Hv|]. split; [exact Hcrc|].
  rewrite <- Hcrc.
  exact (proj1 (encode_decode_roundtrip scenario_l1_body 0 Hv)).
Defined.

Lemma decode_body_size_mismatch hdr body_ptr sz :
  known_body_size (msg_type hdr) = Some sz -> body_len hdr <> sz ->
  decode_body hdr body_ptr = None.
Proof.
  unfold known_body_size, decode_body. intros Hk Hne.
  assert (Hcases : msg_type hdr = 1 \/ msg_type hdr = 2 \/ msg_type hdr = 3
                   \/ msg_type hdr = 4 \/ msg_type hdr = 5).
  { destruct (msg_type hdr) as [|p|p]; try discriminate.
    destruct p as [[[p|p|]|[p|p|]|]|[[p|p|]|[p|p|]|]|]; try discriminate; auto 6. }
  destruct Hcases as [Hc|[Hc|[Hc|[Hc|Hc]]]]; rewrite Hc in Hk |- *;
    injection Hk as <-;
    match goal with
    | |- (if negb (?a =? ?b) then _ else _) = _ =>
        destruct (Z.eqb_spec a b) as [Heq|_]; [exfalso; apply Hne, Heq|reflexivity]
    end.
Qed.

(** Claim C2, as the code has it.  Whatever the message type, a buffer
    shorter than 16 + [body_len] bytes is answered with [std::nullopt],
    and so is a buffer with a wrong magic or version, with a [body_len]
    that is not the fixed size of its message type, or with a CRC that
    does not match: the decoder has one failure value and does not tell
    "need more bytes" from "corrupt". *)
Theorem decode_rejects_alike (data : list byte) :
  need_more_bytes data \/ corrupt data -> decode_frame data = None.
Proof.
  unfold need_more_bytes, corrupt, decode_frame. cbv zeta.
  set (hdr := header_of_bytes data). intros H.
  destruct (Nat.ltb_spec (length data) HEADER_SIZE) as [Hshort|Hlong]; [reflexivity|].
  destruct (Z.eqb_spec (magic hdr) FRAME_MAGIC) as [Hm|Hm]; [|reflexivity].
  destruct (Z.eqb_spec (version hdr) 1) as [Hv|Hv]; [|reflexivity].
  cbn [negb orb].
  destruct (Z.ltb_spec (Z.of_nat (length data)) (Z.of_nat HEADER_SIZE + body_len hdr))
    as [Hpartial|Hwhole]; [reflexivity|].
  destruct (Z.eqb_spec (calculate_crc32 (firstn (Z.to_nat (body_len hdr))
                                                (skipn HEADER_SIZE data))) (crc32 hdr))
    as [Hcrc|Hcrc]; [|reflexivity].
  cbn [negb].
  destruct H as [H|[H|[H|[(sz & Hk & Hne)|H]]]]; try contradiction; try lia.
  apply (decode_body_size_mismatch hdr _ sz Hk Hne).
Qed.

Lemma decode_rejects_alike_witness :
  need_more_bytes truncated_wire
  /\ decode_frame truncated_wire = None
  /\ decode_frame corrupted_wire = None.
Proof.
  assert (Hn : need_more_bytes truncated_wire) by (vm_compute; reflexivity).
  split; [exact Hn|]. split; apply decode_rejects_alike.
  - left. exact Hn.
  - right. right. right. right. vm_compute. discriminate.
Defined.

(** Claim C2 as stated fails: a frame one byte short and the same frame
    with its last byte damaged get the same answer. *)
Lemma need_more_indistinguishable_from_corrupt :
  decode_frame (encode_frame sample_heartbeat) <> None
  /\ need_more_bytes truncated_wire
  /\ corrupt corrupted_wire
  /\ decode_frame truncated_wire = decode_frame corrupted_wire.
Proof.
  split; [vm_compute; discriminate|].
  split; [vm_compute; reflexivity|].
  split; [|vm_compute; reflexivity].
  right. right. right. vm_compute. discriminate.
Qed.

End WireFacts.

(** ** Normalizer *)
Module NormalizerFacts.
Import Wire Double Registry Normalizer.

Lemma truncate_spec d z : truncate d = Some z -> is_truncation d z.
Proof.
  destruct d as [s| | |s m e]; cbn [truncate is_truncation]; try discriminate.
  - intros [= <-]. reflexivity.
  - intros [= <-]. destruct (Z.leb_spec 0 e) as [He|He].
    + rewrite Z.shiftl_mul_pow2 by lia. reflexivity.
    + assert (Hz : Z.shiftl (Z.pos m) e = Z.pos m / 2 ^ (- e)).
      { replace e with (- (- e)) at 1 by lia.
        rewrite Z.shiftl_opp_r, Z.shiftr_div_pow2 by lia. reflexivity. }
      rewrite Hz.
      assert (Hp : 0 < 2 ^ (- e)) by (apply Z.pow_pos_nonneg; lia).
      pose proof (Z.div_pos (Z.pos m) (2 ^ (- e)) ltac:(lia) Hp) as Hq.
      pose proof (Z.mul_div_le (Z.pos m) (2 ^ (- e)) Hp) as Hlo.
      pose proof (Z.mul_succ_div_gt (Z.pos m) (2 ^ (- e)) Hp) as Hhi.
      set (q := Z.pos m / 2 ^ (- e)) in *. set (k := 2 ^ (- e)) in *.
      assert (Ha : Z.abs (cond_Zopp s q) = q) by (destruct s; cbn [cond_Zopp]; lia).
      rewrite Ha. split; [nia|]. destruct s; cbn [cond_Zopp]; lia.
Qed.

Lemma to_int64_spec d z : to_int64 d = Some z -> is_truncation d z /\ i64 z.
Proof.
  unfold to_int64. destruct (truncate d) as [t|] eqn:Ht; [|discriminate].
  destruct (Z.leb_spec (- 2 ^ 63) t), (Z.ltb_spec t (2 ^ 63)); cbn [andb];
    try discriminate.
  intros [= <-]. split; [apply truncate_spec, Ht | unfold i64; lia].
Qed.

Lemma to_uint64_spec d z : to_uint64 d = Some z -> is_truncation d z /\ u64 z.
Proof.
  unfold to_uint64. destruct (truncate d) as [t|] eqn:Ht; [|discriminate].
  destruct (Z.leb_spec 0 t), (Z.ltb_spec t (2 ^ 64)); cbn [andb]; try discriminate.
  intros [= <-]. split; [apply truncate_spec, Ht | unfold u64; lia].
Qed.

Lemma scale_price_ok x z : scale_price x = Some z -> price_ok (x, z).
Proof. intros H. apply to_int64_spec, H. Qed.

Lemma scale_size_ok x z : scale_size x = Some z -> size_ok (x, z).
Proof. intros H. apply to_uint64_spec, H. Qed.

(** The fields of a framed event are truncated products. *)
Lemma normalize_event_fields
      (event : RawEvent) (crc0 : Z) (reg : SymbolRegistry) (f : Frame) :
  fst (normalize_event event crc0 reg) = Some f ->
  Forall price_ok (price_fields event f)
  /\ Forall size_ok (size_fields event f)
  /\ price_fields event f <> [] /\ size_fields event f <> [].
Proof.
  intros H. unfold normalize_event in H.
  destruct (get_or_add (symbol event) reg) as [symbol_id reg'].
  cbn [fst] in H.
  unfold price_fields, size_fields.
  destruct (type event).
  - destruct (scale_price (bid_price event)) as [bp|] eqn:H1; [|discriminate].
    destruct (scale_size (bid_size event)) as [bs|] eqn:H2; [|discriminate].
    destruct (scale_price (ask_price event)) as [ap|] eqn:H3; [|discriminate].
    destruct (scale_size (ask_size event)) as [az|] eqn:H4; [|discriminate].
    cbn in H. injection H as <-. cbn [body Frame_of bid_px ask_px bid_sz ask_sz].
    repeat split; try discriminate;
      auto using Forall_cons, Forall_nil, scale_price_ok, scale_size_ok.
  - destruct (scale_price (price event)) as [bp|] eqn:H1; [|discriminate].
    destruct (scale_size (size event)) as [bs|] eqn:H2; [|discriminate].
    cbn in H. injection H as <-. cbn [body Frame_of l2_price l2_size].
    repeat split; try discriminate;
      auto using Forall_cons, Forall_nil, scale_price_ok, scale_size_ok.
  - destruct (scale_price (trade_price event)) as [bp|] eqn:H1; [|discriminate].
    destruct (scale_size (trade_size event)) as [bs|] eqn:H2; [|discriminate].
    cbn in H. injection H as <-. cbn [body Frame_of tr_price tr_size].
    repeat split; try discriminate;
      auto using Forall_cons, Forall_nil, scale_price_ok, scale_size_ok.
Qed.

(** The L1 event of the end-to-end scenario, framed. *)
Lemma scenario_l1_framed crc0 :
  fst (normalize_event scenario_l1 crc0 SymbolRegistry_new)
  = Some (Frame_of (BodyL1 {| l1_ts_ns := 1000000000; l1_symbol_id := 1;
                              bid_px := 1000000000; bid_sz := 100000000;
                              ask_px := 1001000000; ask_sz := 200000000;
                              l1_seq := 1 |}) crc0).
Proof. vm_compute. reflexivity. Qed.

(** Claim C3, as the code has it.  For every raw event the normalizer
    frames, each price and each size field is the binary64 product of the
    floating-point value and 10^8 with its fraction discarded (the
    [static_cast] truncates toward zero; it does not round to the nearest
    integer); and the L1 event with bid 10.00, bid size 1.0, ask 10.01,
    ask size 2.0 is framed with [bid_px] 1_000_000_000, [bid_sz]
    100_000_000, [ask_px] 1_001_000_000, [ask_sz] 200_000_000. *)
Theorem normalize_event_truncates
        (event : RawEvent) (crc0 : Z) (reg : SymbolRegistry) (f : Frame) :
  fst (normalize_event event crc0 reg) = Some f ->
  Forall price_ok (price_fields event f)
  /\ Forall size_ok (size_fields event f)
  /\ price_fields event f <> [] /\ size_fields event f <> []
  /\ fst (normalize_event scenario_l1 crc0 SymbolRegistry_new)
     = Some (Frame_of (BodyL1 {| l1_ts_ns := 1000000000; l1_symbol_id := 1;
                                 bid_px := 1000000000; bid_sz := 100000000;
                                 ask_px := 1001000000; ask_sz := 200000000;
                                 l1_seq := 1 |}) crc0).
Proof.
  intros H.
  destruct (normalize_event_fields event crc0 reg f H) as (Hp & Hs & Hpn & Hsn).
  pose proof (scenario_l1_framed crc0) as Hex.
  repeat (split; [assumption|]). exact Hex.
Qed.

Lemma normalize_event_truncates_witness :
  exists f, fst (normalize_event l1_bid_029 0 SymbolRegistry_new) = Some f
            /\ Forall price_ok (price_fields l1_bid_029 f).
Proof.
  eexists. split; [vm_compute; reflexivity|].
  refine (proj1 (normalize_event_truncates l1_bid_029 0 SymbolRegistry_new _ _)).
  vm_compute; reflexivity.
Defined.

(** Claim C3 as stated fails: a bid of 0.29 is framed as 28_999_999; the
    product is 28999999.999999996 and the nearest integer 29_000_000. *)
Lemma normalizer_not_nearest :
  fst (normalize_event l1_bid_029 0 SymbolRegistry_new)
  = Some (Frame_of (BodyL1 {| l1_ts_ns := 1000000000; l1_symbol_id := 1;
                              bid_px := 28999999; bid_sz := 100000000;
                              ask_px := 1001000000; ask_sz := 200000000;
                              l1_seq := 1 |}) 0)
  /\ ~ is_nearest_integer (mul (bid_price l1_bid_029) (of_Z PRICE_SCALE)) 28999999
  /\ is_nearest_integer (mul (bid_price l1_bid_029) (of_Z PRICE_SCALE)) 29000000.
Proof.
  split; [vm_compute; reflexivity|].
  assert (Hm : mul (bid_price l1_bid_029) (of_Z PRICE_SCALE)
               = S754_finite false 7784628223999999 (-28)) by (vm_compute; reflexivity).
  rewrite Hm. unfold is_nearest_integer. cbn [Z.leb Z.compare cond_Zopp Z.opp].
  split; [intros H|]; vm_compute in *; [apply H; reflexivity | discriminate].
Qed.

End NormalizerFacts.

(** ** Publisher *)
Module PublisherFacts.
Import Wire Metrics Publisher.

Section WithRegex.
Context {std_regex : StdRegex}.

(** *** Topic matching *)

Lemma replace_stars_head_not_star p c rest :
  replace_stars p = c :: rest -> Ascii.eqb c "*" = false.
Proof.
  destruct p as [|a p]; cbn [replace_stars]; [discriminate|].
  destruct (Ascii.eqb a "*") eqn:Ha; intros [= <- _]; [reflexivity|exact Ha].
Qed.

(** Compiling the rewritten pattern gives one regex item per pattern
    character. *)
Lemma fragment_compile_replace_stars p :
  fragment_compile (replace_stars p) = glob_items p.
Proof.
  induction p as [|c p IH]; [reflexivity|].
  cbn [replace_stars glob_items]. unfold glob_item.
  destruct (Ascii.eqb c "*") eqn:Hstar.
  - cbn [fragment_compile]. change (Ascii.eqb "." ".") with true.
    change (Ascii.eqb "*" "*") with true.
    cbv iota. rewrite IH. destruct (glob_items p); reflexivity.
  - cbn [fragment_compile]. destruct (Ascii.eqb c ".") eqn:Hdot.
    + destruct (replace_stars p) as [|c2 rest2] eqn:Hr.
      * rewrite <- IH. reflexivity.
      * rewrite (replace_stars_head_not_star _ _ _ Hr), IH.
        destruct (glob_items p); reflexivity.
    + rewrite IH. destruct (is_special c); [reflexivity|].
      destruct (glob_items p); reflexivity.
Qed.

Lemma fragment_match_star re s :
  fragment_match (RAnyStar :: re) s
  = fragment_match re s
    || match s with
       | x :: s' => dot_matches x && fragment_match (RAnyStar :: re) s'
       | [] => false
       end.
Proof. destruct s; reflexivity. Qed.

Lemma fragment_match_star_app re w s :
  forallb dot_matches w = true -> fragment_match re s = true ->
  fragment_match (RAnyStar :: re) (w ++ s) = true.
Proof.
  intros Hw Hs. induction w as [|x w IH].
  - cbn [app]. rewrite fragment_match_star, Hs. reflexivity.
  - cbn [forallb] in Hw. apply andb_prop in Hw as [Hx Hw].
    cbn [app]. rewrite fragment_match_star, Hx, (IH Hw). apply orb_true_r.
Qed.

Lemma fragment_match_star_inv re s :
  fragment_match (RAnyStar :: re) s = true ->
  exists w s', s = w ++ s' /\ forallb dot_matches w = true /\ fragment_match re s' = true.
Proof.
  induction s as [|x s IH]; rewrite fragment_match_star; intros H.
  - rewrite orb_false_r in H. exists [], []. auto.
  - apply orb_prop in H as [H|H].
    + exists [], (x :: s). auto.
    + apply andb_prop in H as [Hx H]. destruct (IH H) as (w & s' & -> & Hw & Hs').
      exists (x :: w), s'. cbn [forallb app]. rewrite Hx, Hw. auto.
Qed.

Lemma is_special_star : is_special "*" = true.
Proof. reflexivity. Qed.

Lemma is_special_dot : is_special "." = true.
Proof. reflexivity. Qed.

(** The matcher decides what the pattern denotes, [*] standing for any
    substring, the empty one included. *)
Lemma glob_denotes_match p : forall re s,
  glob_items p = Some re ->
  (fragment_match re s = true <-> glob_denotes false p s).
Proof.
  induction p as [|c p IH]; intros re s Hc.
  - injection Hc as <-. destruct s; cbn [fragment_match]; split; intros H;
      try constructor; try discriminate. inversion H.
  - cbn [glob_items] in Hc. unfold glob_item in Hc.
    destruct (Ascii.eqb c "*") eqn:Hstar.
    + apply Ascii.eqb_eq in Hstar. subst c.
      destruct (glob_items p) as [re'|] eqn:Hp; [|discriminate]. injection Hc as <-.
      split.
      * intros H. apply fragment_match_star_inv in H as (w & s' & -> & Hw & Hs').
        constructor; [exact Hw|discriminate|]. apply (IH re' s' eq_refl), Hs'.
      * intros H. inversion H as [|w p' s' Hw _ Hd| |c' p' s' Hsp]; subst.
        -- apply fragment_match_star_app; [exact Hw|]. apply (IH re' s' eq_refl), Hd.
        -- rewrite is_special_star in Hsp. discriminate.
    + destruct (Ascii.eqb c ".") eqn:Hdot.
      * apply Ascii.eqb_eq in Hdot. subst c.
        destruct (glob_items p) as [re'|] eqn:Hp; [|discriminate]. injection Hc as <-.
        split.
        -- destruct s as [|x s]; cbn [fragment_match]; [discriminate|].
           intros H. apply andb_prop in H as [Hx H].
           constructor; [exact Hx|]. apply (IH re' s eq_refl), H.
        -- intros H. inversion H as [| |x p' s' Hx Hd|c' p' s' Hsp]; subst.
           ++ cbn [fragment_match]. rewrite Hx. apply (IH re' s' eq_refl), Hd.
           ++ rewrite is_special_dot in Hsp. discriminate.
      * destruct (is_special c) eqn:Hsp; [discriminate|].
        destruct (glob_items p) as [re'|] eqn:Hp; [|discriminate]. injection Hc as <-.
        split.
        -- destruct s as [|x s]; cbn [fragment_match]; [discriminate|].
           intros H. apply andb_prop in H as [Hx H]. apply Ascii.eqb_eq in Hx. subst x.
           constructor; [exact Hsp|]. apply (IH re' s eq_refl), H.
        -- intros H.
           inversion H as [|w p' s' Hw _ Hd|x p' s' Hx Hd|c' p' s' Hsp' Hd]; subst.
           ++ rewrite Ascii.eqb_refl in Hstar. discriminate.
           ++ rewrite Ascii.eqb_refl in Hdot. discriminate.
           ++ cbn [fragment_match]. rewrite Ascii.eqb_refl. apply (IH re' s' eq_refl), Hd.
Qed.

Lemma plain_pattern_glob_items p :
  plain_pattern p = true <-> glob_items p <> None.
Proof.
  induction p as [|c p IH]; [split; [discriminate|reflexivity]|].
  cbn [plain_pattern forallb glob_items]. fold (plain_pattern p). unfold glob_item.
  destruct (Ascii.eqb c "*"); [|destruct (Ascii.eqb c "."); [|destruct (is_special c)]];
    cbn [orb negb andb].
  - rewrite IH. destruct (glob_items p); split; congruence.
  - rewrite IH. destruct (glob_items p); split; congruence.
  - split; [discriminate|congruence].
  - rewrite IH. destruct (glob_items p); split; congruence.
Qed.

(** Claim C5, as the code has it.  A literal pattern (no [*]) matches a
    topic iff the two strings are equal.  A pattern containing [*] is
    compiled to the regular expression obtained by replacing each [*]
    with [.*] (no subscription is made when [std::regex] rejects the
    expression) and matches iff that expression matches the whole
    topic.  The other characters of the pattern keep the meaning they
    have in a regular expression; when [*] and [.] are the only
    metacharacters of the pattern, each [*] stands for any substring of
    the topic without line terminators, the empty one included, and
    each [.] for one such character. *)
Theorem matches_topic_spec (pattern : string) (lossless : bool) (topic : string) :
  let p := list_ascii_of_string pattern in
  let t := list_ascii_of_string topic in
  let e := replace_stars p in
  (contains_star pattern = false ->
     exists sub, TopicSubscription_new pattern lossless = Some sub
                 /\ is_wildcard sub = false
                 /\ (matches_topic topic sub = true <-> topic = pattern))
  /\ (contains_star pattern = true ->
      TopicSubscription_new pattern lossless
      = match regex_compile e with
        | Some re => Some (mkSub pattern re true lossless)
        | None => None
        end
      /\ (forall sub, TopicSubscription_new pattern lossless = Some sub ->
            matches_topic topic sub = regex_match (compiled_regex sub) t)
      /\ (plain_pattern p = true ->
            exists sub, TopicSubscription_new pattern lossless = Some sub
                        /\ (matches_topic topic sub = true <-> glob_denotes false p t))
      /\ (plain_pattern p = false ->
            regex_compile e = (if regex_error e then None else Some (Expression e))
            /\ forall sub, TopicSubscription_new pattern lossless = Some sub ->
                  matches_topic topic sub = library_match e t)).
Proof.
  intros p t e. unfold TopicSubscription_new. fold p. fold e.
  split; intros Hstar; rewrite Hstar.
  - eexists. split; [reflexivity|]. split; [reflexivity|].
    unfold matches_topic. cbn [is_wildcard Publisher.pattern]. apply String.eqb_eq.
  - assert (Hnew : (regex_compile e ≫= λ re, Some (mkSub pattern re true lossless))
                   = match regex_compile e with
                     | Some re => Some (mkSub pattern re true lossless)
                     | None => None
                     end) by (destruct (regex_compile e); reflexivity).
    rewrite Hnew. clear Hnew.
    assert (Hfrag : fragment_compile e = glob_items p)
      by apply fragment_compile_replace_stars.
    split; [reflexivity|]. split; [|split].
    + intros sub Hsub. destruct (regex_compile e); [|discriminate].
      injection Hsub as <-. reflexivity.
    + intros Hplain. apply plain_pattern_glob_items in Hplain.
      destruct (glob_items p) as [re|] eqn:Hre; [|congruence].
      unfold regex_compile. rewrite Hfrag.
      eexists. split; [reflexivity|]. unfold matches_topic, regex_match.
      cbn [is_wildcard compiled_regex]. apply glob_denotes_match, Hre.
    + intros Hplain.
      assert (Hnone : glob_items p = None).
      { destruct (glob_items p) eqn:Hre; [|reflexivity].
        assert (Hp : plain_pattern p = true)
          by (apply plain_pattern_glob_items; congruence).
        congruence. }
      unfold regex_compile. rewrite Hfrag, Hnone. split; [reflexivity|].
      intros sub Hsub. destruct (regex_error e); [discriminate|].
      injection Hsub as <-. reflexivity.
Qed.

(** A pattern with a character class is a regular expression of the
    library. *)
Example class_pattern_is_for_the_library :
  let e := list_ascii_of_string "l1.[A-Z].*" in
  TopicSubscription_new "l1.[A-Z]*" false
  = (if regex_error e then None
     else Some (mkSub "l1.[A-Z]*" (Expression e) true false))
  /\ matches_topic "l1.B" (mkSub "l1.[A-Z]*" (Expression e) true false)
     = library_match e (list_ascii_of_string "l1.B").
Proof. cbv zeta. split; [|reflexivity]. unfold TopicSubscription_new, regex_compile.
  cbn. destruct (regex_error _); reflexivity. Qed.

Lemma glob_nonempty_length p s :
  glob_denotes true p s -> (length p <= length s)%nat.
Proof.
  induction 1 as [|w p s Hw Hne _ IH|x p s _ _ IH|c p s _ _ IH]; cbn [length]; try lia.
  rewrite length_app. destruct w; [exfalso; apply Hne; reflexivity|cbn [length]; lia].
Qed.

(** *** Counters *)

Lemma get_counter_increment_same name delta m :
  get_counter name (increment_counter name delta m)
  = (get_counter name m + delta) mod 2 ^ 64.
Proof. unfold get_counter, increment_counter. rewrite lookup_insert_eq. reflexivity. Qed.

Lemma get_counter_increment_other name name' delta m :
  name <> name' ->
  get_counter name' (increment_counter name delta m) = get_counter name' m.
Proof.
  intros Hne. unfold get_counter, increment_counter.
  rewrite lookup_insert_ne by exact Hne. reflexivity.
Qed.

(** *** The per-client queue *)

(** [send_frame] by a thread not holding the mutex. *)
Lemma send_frame_eq topic frame c m :
  send_frame topic frame (c, m)
  = if negb (running_ c) || negb (authenticated_ c) then (c, m)
    else if MAX_QUEUE_SIZE <=? Z.of_nat (length (send_queue_ c)) then
      if existsb lossless (subscriptions_ c)
      then (count_drop c, increment_counter "publisher_frames_dropped_backpressure" 1 m)
      else (count_drop c, increment_counter "publisher_frames_dropped_queue_full" 1 m)
    else (enqueue {| qf_topic := topic; qf_data := encode_frame frame |} c, m).
Proof.
  unfold send_frame, send_frame_call.
  destruct (negb (running_ c) || negb (authenticated_ c)); [reflexivity|].
  destruct (MAX_QUEUE_SIZE <=? Z.of_nat (length (send_queue_ c))); [|reflexivity].
  destruct (existsb lossless (subscriptions_ c)); reflexivity.
Qed.

(** A call of [send_frame] returns, with the state [send_frame] gives,
    unless the caller holds the mutex and the queue of a running,
    authenticated connection is full: then it blocks, the connection
    untouched. *)
Lemma send_frame_call_cases holds topic frame c m :
  send_frame_call holds topic frame (c, m) = Returns (send_frame topic frame (c, m))
  \/ (holds = true /\ running_ c = true /\ authenticated_ c = true
      /\ MAX_QUEUE_SIZE <= Z.of_nat (length (send_queue_ c))
      /\ send_frame_call holds topic frame (c, m) = Blocks (c, m)).
Proof.
  rewrite send_frame_eq. unfold send_frame_call.
  destruct (running_ c), (authenticated_ c); cbn [negb orb]; auto.
  destruct (Z.leb_spec MAX_QUEUE_SIZE (Z.of_nat (length (send_queue_ c)))); auto.
  destruct holds; [right; auto|].
  destruct (existsb lossless (subscriptions_ c)); auto.
Qed.

Lemma send_control_ack_eq code st :
  send_frame "control" (Frame_of (BodyAck {| ack_code := code; reserved := 0 |}) 0) st
  = send_control_ack code st.
Proof. reflexivity. Qed.

Lemma send_frame_queue topic frame c m :
  let '(c', _) := send_frame topic frame (c, m) in
  (send_queue_ c' = send_queue_ c
   \/ (send_queue_ c' = send_queue_ c ++ [{| qf_topic := topic;
                                            qf_data := encode_frame frame |}]
       /\ Z.of_nat (length (send_queue_ c)) < MAX_QUEUE_SIZE
       /\ authenticated_ c = true))
  /\ socket_written_ c' = socket_written_ c
  /\ running_ c' = running_ c /\ authenticated_ c' = authenticated_ c
  /\ socket_open_ c' = socket_open_ c /\ subscriptions_ c' = subscriptions_ c
  /\ auth_token_ c' = auth_token_ c.
Proof.
  rewrite send_frame_eq.
  destruct (running_ c) eqn:Hr, (authenticated_ c) eqn:Ha; cbn [negb orb]; try tauto.
  destruct (Z.leb_spec MAX_QUEUE_SIZE (Z.of_nat (length (send_queue_ c))))
    as [Hfull|Hroom].
  - destruct (existsb lossless (subscriptions_ c)); cbn; tauto.
  - cbn. rewrite Hr, Ha. split; [right|]; tauto.
Qed.

(** [send_frame] touches no counter but the two drop counters. *)
Lemma send_frame_counters topic frame c m name :
  name <> "publisher_frames_dropped_backpressure"%string ->
  name <> "publisher_frames_dropped_queue_full"%string ->
  get_counter name (snd (send_frame topic frame (c, m))) = get_counter name m.
Proof.
  intros H1 H2. rewrite send_frame_eq.
  destruct (negb (running_ c) || negb (authenticated_ c)); [reflexivity|].
  destruct (MAX_QUEUE_SIZE <=? Z.of_nat (length (send_queue_ c))); [|reflexivity].
  destruct (existsb lossless (subscriptions_ c)); cbn [snd];
    apply get_counter_increment_other; congruence.
Qed.

Lemma send_frame_grows topic frame c m :
  exists extra, queue_grows_by extra c (fst (send_frame topic frame (c, m)))
                /\ Forall (fun q => qf_topic q = topic) extra.
Proof.
  pose proof (send_frame_queue topic frame c m) as H.
  destruct (send_frame topic frame (c, m)) as [c' m'].
  destruct H as ([Hq|(Hq & Hlen & _)] & Hw & _).
  - exists []. split; [|constructor].
    split; [rewrite app_nil_r; exact Hq|]. split; [exact Hw|]. intros []; reflexivity.
  - exists [{| qf_topic := topic; qf_data := encode_frame frame |}].
    split; [|repeat constructor].
    split; [exact Hq|]. split; [exact Hw|]. intros _. split; [exact Hlen|reflexivity].
Qed.

Lemma send_control_ack_grows code c m :
  exists extra, queue_grows_by extra c (fst (send_control_ack code (c, m)))
                /\ Forall (fun q => qf_topic q = "control"%string) extra.
Proof. apply send_frame_grows. Qed.

Lemma stop_fields c m :
  send_queue_ (fst (stop (c, m))) = send_queue_ c
  /\ socket_written_ (fst (stop (c, m))) = socket_written_ c
  /\ authenticated_ (fst (stop (c, m))) = authenticated_ c
  /\ running_ (fst (stop (c, m))) = false
  /\ (running_ c = true -> socket_open_ (fst (stop (c, m))) = false)
  /\ snd (stop (c, m)) = m.
Proof.
  unfold stop. destruct (running_ c) eqn:Hr; cbn; rewrite ?Hr;
    repeat split; auto; discriminate.
Qed.

Lemma send_control_ack_call_cases holds code c m :
  send_control_ack_call holds code (c, m) = Returns (send_control_ack code (c, m))
  \/ (holds = true /\ running_ c = true /\ authenticated_ c = true
      /\ MAX_QUEUE_SIZE <= Z.of_nat (length (send_queue_ c))
      /\ send_control_ack_call holds code (c, m) = Blocks (c, m)).
Proof. apply send_frame_call_cases. Qed.

Lemma process_control_message_grows message c m :
  exists extra, queue_grows_by extra c
                               (fst (state_of (process_control_message message (c, m))))
                /\ Forall (fun q => qf_topic q = "control"%string) extra.
Proof.
  unfold process_control_message.
  destruct message as [| |json]; cbn [state_of]; try apply send_control_ack_grows.
  destruct (value (j_op json) EmptyString) as [op|]; cbn [state_of];
    [|apply send_control_ack_grows].
  destruct (String.eqb op "auth").
  { destruct (value (j_token json) EmptyString) as [token|]; cbn [state_of];
      [|apply send_control_ack_grows].
    destruct (String.eqb token (auth_token_ c)); cbn [state_of].
    - apply (send_control_ack_grows 200 (set_authenticated true c) m).
    - destruct (send_control_ack_grows 401 c m) as (extra & Hg & Hf).
      destruct (send_control_ack 401 (c, m)) as [c1 m1]. cbn [fst state_of] in Hg |- *.
      exists extra. split; [|exact Hf].
      pose proof (stop_fields c1 (increment_counter "publisher_auth_failures_total" 1 m1))
        as (Hq & Hw & _).
      unfold queue_grows_by in *. rewrite Hq, Hw. exact Hg. }
  destruct (String.eqb op "subscribe").
  { destruct (authenticated_ c); cbn [negb state_of]; [|apply send_control_ack_grows].
    destruct (value (j_topics json) []) as [topics|]; cbn [state_of];
      [|apply send_control_ack_grows].
    destruct (value (j_lossless json) false) as [ll|]; cbn [state_of];
      [|apply send_control_ack_grows].
    destruct (add_subscriptions topics ll (subscriptions_ c)) as [subs ok].
    destruct ok; cbn [state_of].
    - destruct (send_control_ack_call_cases true 200 (set_subscriptions subs c) m)
        as [Hret|(_ & _ & _ & _ & Hblk)].
      + rewrite Hret.
        destruct (send_control_ack_grows 200 (set_subscriptions subs c) m)
          as (extra & Hg & Hf).
        destruct (send_control_ack 200 (set_subscriptions subs c, m)) as [c1 m1].
        exists extra. split; [exact Hg|exact Hf].
      + rewrite Hblk. cbn [state_of fst]. exists []. split; [|constructor].
        split; [rewrite app_nil_r; reflexivity|]. split; [reflexivity|].
        intros []; reflexivity.
    - apply (send_control_ack_grows 400 (set_subscriptions subs c) m). }
  destruct (String.eqb op "unsubscribe"); cbn [state_of]; apply send_control_ack_grows.
Qed.

Lemma write_batch_fields c m :
  socket_written_ (fst (write_batch (c, m))) ++ send_queue_ (fst (write_batch (c, m)))
  = socket_written_ c ++ send_queue_ c
  /\ (length (send_queue_ (fst (write_batch (c, m)))) <= length (send_queue_ c))%nat
  /\ authenticated_ (fst (write_batch (c, m))) = authenticated_ c
  /\ running_ (fst (write_batch (c, m))) = running_ c
  /\ socket_open_ (fst (write_batch (c, m))) = socket_open_ c.
Proof.
  unfold write_batch. destruct (running_ c) eqn:Hr; cbn [negb];
    [|cbn; rewrite ?Hr; auto].
  destruct (firstn 100 (send_queue_ c)) as [|q batch] eqn:Hb; [cbn; rewrite ?Hr; auto|].
  cbn [fst send_queue_ socket_written_ authenticated_ running_ socket_open_].
  rewrite <- Hb, <- app_assoc, firstn_skipn, length_skipn. repeat split; auto; lia.
Qed.

Lemma client_step_queue_bound st op :
  Z.of_nat (length (send_queue_ (fst st))) <= MAX_QUEUE_SIZE ->
  Z.of_nat (length (send_queue_ (fst (client_step st op)))) <= MAX_QUEUE_SIZE.
Proof.
  destruct st as [c m]. cbn [fst]. intros Hb.
  assert (Hgrow : forall c', (exists extra, queue_grows_by extra c c') ->
            Z.of_nat (length (send_queue_ c')) <= MAX_QUEUE_SIZE).
  { intros c' (extra & Hq & _ & Hlen). rewrite Hq, length_app.
    destruct extra as [|q extra]; [cbn [length]; lia|].
    destruct (Hlen ltac:(discriminate)) as [Hroom H1]. rewrite H1. lia. }
  destruct op; cbn [client_step].
  - apply Hgrow. destruct (send_frame_grows topic frame c m) as (extra & Hg & _). eauto.
  - apply Hgrow.
    destruct (send_frame_grows "heartbeat" (Frame_of (BodyHb {| hb_ts_ns := now |}) 0) c m)
      as (extra & Hg & _). eauto.
  - apply Hgrow.
    destruct (process_control_message_grows message c m) as (extra & Hg & _). eauto.
  - pose proof (write_batch_fields c m) as (_ & Hle & _). lia.
  - unfold start. destruct (running_ c); cbn; exact Hb.
  - pose proof (stop_fields c m) as (Hq & _). rewrite Hq. exact Hb.
Qed.

Lemma run_client_queue_bound ops : forall st,
  Z.of_nat (length (send_queue_ (fst st))) <= MAX_QUEUE_SIZE ->
  Z.of_nat (length (send_queue_ (fst (fold_left client_step ops st)))) <= MAX_QUEUE_SIZE.
Proof.
  induction ops as [|op ops IH]; intros st Hb; cbn [fold_left]; [exact Hb|].
  apply IH, client_step_queue_bound, Hb.
Qed.



(** *** Control messages before authentication *)

(** The guard of [send_frame]: nothing is sent to a connection that is
    not authenticated. *)
Lemma send_control_ack_unauth code c m :
  authenticated_ c = false -> send_control_ack code (c, m) = (c, m).
Proof.
  intros Ha. unfold send_control_ack, send_control_ack_call, send_frame_call.
  rewrite Ha, orb_true_r. reflexivity.
Qed.

(** The same call on an authenticated connection with room in its queue
    queues the ControlAck frame. *)
Lemma send_control_ack_auth code c m :
  running_ c = true -> authenticated_ c = true ->
  Z.of_nat (length (send_queue_ c)) < MAX_QUEUE_SIZE ->
  send_queue_ (fst (send_control_ack code (c, m))) = send_queue_ c ++ [control_frame code].
Proof.
  intros Hr Ha Hroom. unfold send_control_ack, send_control_ack_call, send_frame_call.
  rewrite Hr, Ha. cbn [negb orb].
  destruct (Z.leb_spec MAX_QUEUE_SIZE (Z.of_nat (length (send_queue_ c)))); [lia|].
  reflexivity.
Qed.

(** A control message to a connection that is not authenticated. *)
Lemma unauth_process_control_message c m message :
  authenticated_ c = false ->
  (exists json token,
      message = Object json
      /\ value (j_op json) EmptyString = Some "auth"%string
      /\ value (j_token json) EmptyString = Some token
      /\ (token = auth_token_ c
          /\ process_control_message message (c, m)
             = Returns (send_control_ack 200 (set_authenticated true c, m))
          \/ token <> auth_token_ c
             /\ process_control_message message (c, m)
                = Returns (stop (c, increment_counter "publisher_auth_failures_total" 1 m))))
  \/ process_control_message message (c, m) = Returns (c, m).
Proof.
  intros Ha. unfold process_control_message.
  destruct message as [| |json]; try (right; rewrite send_control_ack_unauth by exact Ha;
                                      reflexivity).
  destruct (value (j_op json) EmptyString) as [op|] eqn:Hop;
    [|right; rewrite send_control_ack_unauth by exact Ha; reflexivity].
  destruct (String.eqb_spec op "auth") as [->|_].
  { destruct (value (j_token json) EmptyString) as [token|] eqn:Htok;
      [|right; rewrite send_control_ack_unauth by exact Ha; reflexivity].
    left. exists json, token. split; [reflexivity|]. split; [exact Hop|].
    split; [exact Htok|].
    destruct (String.eqb_spec token (auth_token_ c)) as [Heq|Hne]; [left; auto|].
    right. split; [exact Hne|]. rewrite send_control_ack_unauth by exact Ha. reflexivity. }
  right. destruct (String.eqb op "subscribe").
  { rewrite Ha. cbn [negb]. rewrite send_control_ack_unauth by exact Ha. reflexivity. }
  destruct (String.eqb op "unsubscribe");
    rewrite send_control_ack_unauth by exact Ha; reflexivity.
Qed.

(** Claim C4, where the code departs from it.  For a connected client
    that has not authenticated, [process_control_message] does ask for
    the acknowledgements of the claim, [send_control_ack(401)] for a
    [subscribe] and for an [auth] with a wrong token; but
    [send_control_ack] goes through [send_frame], whose guard returns at
    once for a connection that is not authenticated.  So every
    acknowledgement to such a client is discarded (the same call queues
    the ControlAck frame on an authenticated connection with room):
    after a [subscribe] the connection is exactly as before; after an
    [auth] with a wrong token the failure is counted and the connection
    stopped, its socket closed, no frame queued or written; and whatever
    the message, a connection that is still unauthenticated after it has
    been handed nothing, the only way out of that state being an
    [auth] with the configured token. *)
Theorem unauth_control_replies
        (c : ClientConnection) (m : gmap string Z) (message : ControlMessage) :
  running_ c = true -> authenticated_ c = false ->
  let o := process_control_message message (c, m) in
  let st' := state_of o in
  (forall code, send_control_ack code (c, m) = (c, m))
  /\ (forall code c2,
        running_ c2 = true -> authenticated_ c2 = true ->
        Z.of_nat (length (send_queue_ c2)) < MAX_QUEUE_SIZE ->
        send_queue_ (fst (send_control_ack code (c2, m)))
        = send_queue_ c2 ++ [control_frame code])
  /\ o = Returns st'
  /\ (forall json,
        message = Object json ->
        value (j_op json) EmptyString = Some "subscribe"%string ->
        o = Returns (send_control_ack 401 (c, m)) /\ st' = (c, m))
  /\ (forall json token,
        message = Object json ->
        value (j_op json) EmptyString = Some "auth"%string ->
        value (j_token json) EmptyString = Some token ->
        token <> auth_token_ c ->
        o = Returns (stop (fst (send_control_ack 401 (c, m)),
                           increment_counter "publisher_auth_failures_total" 1
                                             (snd (send_control_ack 401 (c, m)))))
        /\ send_queue_ (fst st') = send_queue_ c
        /\ socket_written_ (fst st') = socket_written_ c
        /\ running_ (fst st') = false
        /\ socket_open_ (fst st') = false
        /\ authenticated_ (fst st') = false
        /\ get_counter "publisher_auth_failures_total" (snd st')
           = (get_counter "publisher_auth_failures_total" m + 1) mod 2 ^ 64)
  /\ (authenticated_ (fst st') = false -> held (fst st') = held c)
  /\ (authenticated_ (fst st') = true ->
      exists json,
        message = Object json
        /\ value (j_op json) EmptyString = Some "auth"%string
        /\ value (j_token json) EmptyString = Some (auth_token_ c)).
Proof.
  intros Hr Ha o st'.
  assert (Hack : forall code, send_control_ack code (c, m) = (c, m))
    by (intros code; apply send_control_ack_unauth, Ha).
  split; [exact Hack|].
  split; [intros code c2; apply send_control_ack_auth|].
  pose proof (stop_fields c (increment_counter "publisher_auth_failures_total" 1 m))
    as (Sq & Sw & Sa & Sr & So & Sm).
  destruct (unauth_process_control_message c m message Ha)
    as [(json & token & Hmsg & Hop & Htok & [[Heq Ho]|[Hne Ho]])|Ho];
    fold o in Ho; subst st'; rewrite Ho; cbn [state_of].
  - (* the configured token *)
    pose proof (send_frame_queue "control"
                  (Frame_of (BodyAck {| ack_code := 200; reserved := 0 |}) 0)
                  (set_authenticated true c) m) as Hq.
    rewrite send_control_ack_eq in Hq.
    destruct (send_control_ack 200 (set_authenticated true c, m)) as [c1 m1].
    destruct Hq as (_ & _ & _ & Ha1 & _). cbn [set_authenticated authenticated_] in Ha1.
    cbn [fst]. split; [reflexivity|].
    split.
    { intros json' Hm' Hop'. rewrite Hmsg in Hm'. injection Hm' as <-. congruence. }
    split.
    { intros json' token' Hm' _ Htok' Hne'. rewrite Hmsg in Hm'. injection Hm' as <-.
      congruence. }
    split; [congruence|]. intros _. exists json. subst token. auto.
  - (* a wrong token *)
    cbn [fst snd]. split; [reflexivity|].
    split.
    { intros json' Hm' Hop'. rewrite Hmsg in Hm'. injection Hm' as <-. congruence. }
    split.
    { intros json' token' _ _ _ _. rewrite Hack. cbn [fst snd].
      split; [reflexivity|]. split; [exact Sq|]. split; [exact Sw|].
      split; [exact Sr|]. split; [apply So, Hr|]. split; [congruence|].
      rewrite Sm. apply get_counter_increment_same. }
    split; [intros _; unfold held; rewrite Sq, Sw; reflexivity|].
    intros Hauth. rewrite Sa in Hauth. congruence.
  - (* any other message *)
    cbn [fst snd]. split; [reflexivity|].
    split; [intros json _ _; rewrite Hack; auto|].
    split.
    { intros json token Hmsg Hop Htok Hne. exfalso.
      assert (Hbad : o = Returns (stop (c, increment_counter
                                             "publisher_auth_failures_total" 1 m))).
      { subst o message. unfold process_control_message.
        rewrite Hop, Htok. cbn [String.eqb Ascii.eqb Bool.eqb].
        destruct (String.eqb_spec token (auth_token_ c)); [contradiction|].
        rewrite Hack. reflexivity. }
      rewrite Ho in Hbad. apply (f_equal state_of) in Hbad. cbn [state_of] in Hbad.
      rewrite <- Hbad in Sr. cbn [fst] in Sr. congruence. }
    split; [reflexivity|]. intros Hauth. congruence.
Qed.

(** *** The heartbeat round and the client list *)

Lemma on_client_other id id' f hm :
  id' <> id -> fst (on_client id' f hm) !! id = fst hm !! id.
Proof.
  intros Hne. unfold on_client. destruct hm as [h m]. cbn [fst].
  destruct (h !! id') as [c|]; [|reflexivity].
  destruct (f (c, m)) as [c' m']. cbn [fst]. apply list_lookup_insert_ne, Hne.
Qed.

Lemma on_client_same id f h m c :
  h !! id = Some c ->
  fst (on_client id f (h, m)) !! id = Some (fst (f (c, m))).
Proof.
  intros Hc. unfold on_client. rewrite Hc. destruct (f (c, m)) as [c' m']. cbn [fst].
  apply list_lookup_insert_eq. apply lookup_lt_Some in Hc. exact Hc.
Qed.

(** A loop over clients other than [id] leaves connection [id] alone. *)
Lemma fold_other_clients
      (g : list ClientConnection * gmap string Z -> nat ->
           list ClientConnection * gmap string Z) id l :
  (forall hm id', id' <> id -> fst (g hm id') !! id = fst hm !! id) ->
  ~ In id l ->
  forall hm, fst (fold_left g l hm) !! id = fst hm !! id.
Proof.
  intros Hg. induction l as [|a l IH]; intros Hnin hm; cbn [fold_left]; [reflexivity|].
  rewrite IH by (intros Hin; apply Hnin; right; exact Hin).
  apply Hg. intros ->. apply Hnin. left. reflexivity.
Qed.

Lemma publish_other topic frame s id :
  ~ In id (clients_ s) ->
  heap (publish topic frame s) !! id = heap s !! id
  /\ clients_ (publish topic frame s) = clients_ s
  /\ srv_running_ (publish topic frame s) = srv_running_ s.
Proof.
  intros Hnin. unfold publish. destruct (srv_running_ s) eqn:Hr; cbn [negb]; [|auto].
  cbn [heap clients_ srv_running_]. split; [|auto].
  rewrite fold_other_clients; [reflexivity| |exact Hnin].
  intros hm id' Hne. destruct (is_authenticated hm.1 id'); cbn [negb]; [|reflexivity].
  destruct (match hm.1 !! id' with
            | Some c => existsb (matches_topic topic) (subscriptions_ c)
            | None => false
            end);
    [apply on_client_other, Hne|reflexivity].
Qed.

Lemma heartbeat_loop_other now s id :
  is_authenticated (heap s) id = false \/ ~ In id (clients_ s) ->
  srv_running_ s = true ->
  heap (heartbeat_loop now s) !! id = heap s !! id
  /\ ~ In id (clients_ (heartbeat_loop now s))
  /\ srv_running_ (heartbeat_loop now s) = true.
Proof.
  intros Hid Hr. unfold heartbeat_loop. rewrite Hr. cbn [negb heap clients_ srv_running_].
  assert (Hnin : ~ In id (List.filter (is_authenticated (heap s)) (clients_ s))).
  { intros Hin. apply filter_In in Hin as [Hin Ha].
    destruct Hid as [Hid|Hid]; [congruence|auto]. }
  split; [|split; [exact Hnin|reflexivity]].
  rewrite fold_other_clients; [reflexivity| |exact Hnin].
  intros hm id' Hne.
  destruct (is_authenticated hm.1 id'); [apply on_client_other, Hne|reflexivity].
Qed.

Lemma dropped_step id c s ev : dropped id c s -> dropped id c (server_step s ev).
Proof.
  intros (Hr & Hnin & c' & extra & Hc' & Hheld & Hctl).
  destruct ev as [|id' message|id'|id'|topic frame|now]; cbn [server_step].
  - (* accept: the new connection gets a new index *)
    unfold accept_connections.
    destruct (start (ClientConnection_new (srv_auth_token_ s), metrics s)) as [cn mn].
    split; [exact Hr|]. cbn [clients_ heap]. split.
    + intros Hin. apply in_app_or in Hin as [Hin|[Hin|[]]]; [auto|].
      apply lookup_lt_Some in Hc'. lia.
    + exists c', extra. split; [|auto]. apply lookup_app_l_Some, Hc'.
  - (* a control message *)
    destruct (running_client (heap s) id'); [|unfold dropped; eauto 10].
    split; [exact Hr|]. split; [exact Hnin|]. cbn [with_heap heap].
    destruct (Nat.eq_dec id' id) as [->|Hne].
    + rewrite (on_client_same _ _ _ _ _ Hc').
      destruct (process_control_message_grows message c' (metrics s))
        as (more & (Hq & Hw & _) & Hmore).
      eexists _, (extra ++ more). split; [reflexivity|]. split.
      * unfold held in *. rewrite Hq, Hw, app_assoc, Hheld, <- !app_assoc. reflexivity.
      * apply Forall_app; auto.
    + rewrite on_client_other by exact Hne. eauto.
  - (* the writer takes a batch *)
    split; [exact Hr|]. split; [exact Hnin|]. cbn [with_heap heap].
    destruct (Nat.eq_dec id' id) as [->|Hne].
    + rewrite (on_client_same _ _ _ _ _ Hc').
      pose proof (write_batch_fields c' (metrics s)) as (Hsame & _).
      eexists _, extra. split; [reflexivity|]. split; [|exact Hctl].
      unfold held in *. rewrite Hsame. exact Hheld.
    + rewrite on_client_other by exact Hne. eauto.
  - (* a write error stops the connection *)
    split; [exact Hr|]. split; [exact Hnin|]. cbn [with_heap heap].
    destruct (Nat.eq_dec id' id) as [->|Hne].
    + rewrite (on_client_same _ _ _ _ _ Hc').
      pose proof (stop_fields c' (metrics s)) as (Hq & Hw & _).
      eexists _, extra. split; [reflexivity|]. split; [|exact Hctl].
      unfold held in *. rewrite Hq, Hw. exact Hheld.
    + rewrite on_client_other by exact Hne. eauto.
  - (* publish walks [clients_] *)
    destruct (publish_other topic frame s id Hnin) as (Hh & Hc & Hrun).
    split; [congruence|]. split; [congruence|]. rewrite Hh. eauto.
  - (* so does the next heartbeat round *)
    destruct (heartbeat_loop_other now s id (or_intror Hnin) Hr) as (Hh & Hc & Hrun).
    split; [exact Hrun|]. split; [exact Hc|]. rewrite Hh. eauto.
Qed.

Lemma dropped_run id c evs : forall s, dropped id c s -> dropped id c (run_server s evs).
Proof.
  induction evs as [|ev evs IH]; intros s Hd; cbn [run_server fold_left]; [exact Hd|].
  apply IH, dropped_step, Hd.
Qed.

(** Claim C10.  A round of the heartbeat loop removes from [clients_]
    every connection that is not authenticated, without touching the
    connection itself (its socket stays open); nothing puts it back, so
    whatever happens next, its own late authentication included, it is
    absent from the list when frames are published and heartbeats sent,
    and all it is ever handed are the acknowledgements of its own control
    messages. *)
Theorem unauthenticated_client_dropped
        (s : PubServer) (id : nat) (c : ClientConnection) (now : Z) (evs : list Event) :
  srv_running_ s = true ->
  heap s !! id = Some c ->
  authenticated_ c = false ->
  let s1 := heartbeat_loop now s in
  let s2 := run_server s1 evs in
  ~ In id (clients_ s1)
  /\ heap s1 !! id = Some c
  /\ ~ In id (clients_ s2)
  /\ exists extra,
       delivered s2 id = delivered s id ++ extra
       /\ Forall (fun q => qf_topic q = "control"%string) extra.
Proof.
  intros Hr Hc Ha s1 s2.
  assert (Hna : is_authenticated (heap s) id = false)
    by (unfold is_authenticated; rewrite Hc; exact Ha).
  destruct (heartbeat_loop_other now s id (or_introl Hna) Hr) as (Hh & Hnin & Hrun).
  fold s1 in Hh, Hnin, Hrun.
  assert (Hd : dropped id c s1).
  { split; [exact Hrun|]. split; [exact Hnin|]. exists c, [].
    rewrite Hh, app_nil_r. auto. }
  apply (dropped_run id c evs) in Hd. fold s2 in Hd.
  destruct Hd as (_ & Hnin2 & c2 & extra & Hc2 & Hheld & Hctl).
  split; [exact Hnin|]. split; [congruence|]. split; [exact Hnin2|].
  exists extra. unfold delivered. rewrite Hc2, Hc. auto.
Qed.

End WithRegex.

(** For a pattern of the fragment the library is not consulted: the
    subscription and what it matches are the same with any library. *)
Lemma plain_pattern_any_library (lib1 lib2 : StdRegex)
      (pattern : string) (lossless : bool) (topic : string) :
  plain_pattern (list_ascii_of_string pattern) = true ->
  @TopicSubscription_new lib1 pattern lossless
  = @TopicSubscription_new lib2 pattern lossless
  /\ exists sub,
       @TopicSubscription_new lib1 pattern lossless = Some sub
       /\ @matches_topic lib1 topic sub = @matches_topic lib2 topic sub.
Proof.
  intros Hplain. apply plain_pattern_glob_items in Hplain.
  unfold TopicSubscription_new, regex_compile.
  destruct (contains_star pattern).
  - rewrite fragment_compile_replace_stars.
    destruct (glob_items (list_ascii_of_string pattern)) as [re|]; [|congruence].
    split; [reflexivity|]. eexists. split; reflexivity.
  - split; [reflexivity|]. eexists. split; reflexivity.
Qed.

(** *** Concrete runs *)

#[local] Existing Instance fragment_only.

(** Claim C5 as stated fails: the pattern [trade.*] matches the topic
    [trade.], where nothing is left for the [*]. *)
Lemma star_matches_empty :
  exists sub, TopicSubscription_new "trade.*" false = Some sub
    /\ matches_topic "trade." sub = true
    /\ ~ glob_denotes true (list_ascii_of_string "trade.*")
                      (list_ascii_of_string "trade.").
Proof.
  eexists. split; [reflexivity|]. split; [reflexivity|].
  intros H. apply glob_nonempty_length in H. cbn in H. lia.
Qed.

(** The matching table of the publisher tests. *)
Example matching_scenario :
  exists lit wild,
    TopicSubscription_new "l1.BTCUSDT" false = Some lit
    /\ TopicSubscription_new "trade.*" false = Some wild
    /\ matches_topic "trade.ETHUSDT" lit = false
    /\ matches_topic "trade.ETHUSDT" wild = true
    /\ matches_topic "l1.BTCUSDT" lit = true
    /\ matches_topic "l1.BTCUSDT" wild = false
    /\ matches_topic "l1.ETHUSDT" lit = false
    /\ matches_topic "l1.ETHUSDT" wild = false.
Proof. do 2 eexists. repeat split; reflexivity. Qed.


Lemma unauth_control_replies_witness :
  running_ unauth_client = true /\ authenticated_ unauth_client = false
  /\ process_control_message (msg_subscribe ["l1.*"%string]) (unauth_client, ∅)
     = Returns (send_control_ack 401 (unauth_client, ∅))
  /\ state_of (process_control_message (msg_subscribe ["l1.*"%string]) (unauth_client, ∅))
     = (unauth_client, ∅)
  /\ held unauth_client = [].
Proof.
  split; [reflexivity|]. split; [reflexivity|].
  destruct (unauth_control_replies unauth_client ∅ (msg_subscribe ["l1.*"%string])
              eq_refl eq_refl) as (_ & _ & _ & Hsub & _).
  destruct (Hsub _ eq_refl eq_refl) as [H1 H2].
  split; [exact H1|]. split; [exact H2|reflexivity].
Defined.

(** In the scenario of the specification the client receives neither of
    the two 401 acknowledgements: nothing is queued or written after
    the [subscribe], nor after the [auth] with a wrong token, which
    closes the socket. *)
Example unauth_ack_is_not_queued :
  held (fst (state_of (process_control_message (msg_subscribe ["l1.*"%string])
                                               (unauth_client, ∅))))
  = []
  /\ held (fst (state_of (process_control_message (msg_auth "wrong") (unauth_client, ∅))))
     = []
  /\ socket_open_ (fst (state_of (process_control_message (msg_auth "wrong")
                                                          (unauth_client, ∅))))
     = false
  /\ get_counter "publisher_auth_failures_total"
       (snd (state_of (process_control_message (msg_auth "wrong") (unauth_client, ∅))))
     = 1.
Proof. repeat split; reflexivity. Qed.

Lemma unauthenticated_client_dropped_witness :
  heap one_unauth_server !! 0%nat = Some unauth_client
  /\ ~ In 0%nat (clients_ (run_server (heartbeat_loop 1000000000 one_unauth_server)
                                     late_auth_events)).
Proof.
  split; [reflexivity|].
  exact (proj1 (proj2 (proj2
    (unauthenticated_client_dropped one_unauth_server 0 unauth_client 1000000000
       late_auth_events eq_refl eq_refl eq_refl)))).
Defined.

(** The scenario in full: connected, dropped by the first round, then
    authenticated and subscribed; the quote and the next heartbeat pass it
    by, and its socket is still open. *)
Example late_authentication_scenario :
  let s2 := run_server (heartbeat_loop 1000000000 one_unauth_server) late_auth_events in
  is_authenticated (heap s2) 0 = true
  /\ clients_ s2 = []
  /\ List.map qf_topic (delivered s2 0) = ["control"%string; "control"%string]
  /\ option_map socket_open_ (heap s2 !! 0%nat) = Some true
  /\ option_map (fun c => List.map pattern (subscriptions_ c)) (heap s2 !! 0%nat)
     = Some ["l1.*"%string].
Proof. vm_compute. repeat split; reflexivity. Qed.

End PublisherFacts.

(** ** Recorder *)
Module RecorderFacts.
Import Wire Recorder WireFacts.

Lemma encoded_size_app a b : encoded_size (a ++ b) = encoded_size a + encoded_size b.
Proof.
  unfold encoded_size. induction a as [|x a IH]; cbn [app fold_right]; [lia|].
  rewrite IH. lia.
Qed.

Lemma encoded_size_nonneg a : 0 <= encoded_size a.
Proof. unfold encoded_size. induction a as [|x a IH]; cbn [fold_right]; lia. Qed.

Lemma encoded_size_single nf : encoded_size [nf] = Z.of_nat (length (encode_frame (snd nf))).
Proof. unfold encoded_size. cbn [fold_right]. lia. Qed.

Lemma length_bytes_of_MdfHeader h : length (bytes_of_MdfHeader h) = sizeof_MdfHeader.
Proof. reflexivity. Qed.

Lemma length_overwrite_header h content :
  (sizeof_MdfHeader <= length content)%nat ->
  length (overwrite 0 (bytes_of_MdfHeader h) content) = length content.
Proof.
  intros Hlen. unfold overwrite. rewrite firstn_0, app_nil_l, Nat.add_0_l.
  rewrite length_app, length_skipn, length_bytes_of_MdfHeader. lia.
Qed.

Lemma length_idx_file_bytes entries :
  length (idx_file_bytes entries) = (sizeof_IndexEntry * length entries)%nat.
Proof.
  unfold idx_file_bytes. induction entries as [|e entries IH]; [reflexivity|].
  cbn [flat_map]. rewrite length_app, IH. change (length (bytes_of_IndexEntry e)) with 16%nat.
  unfold sizeof_IndexEntry. cbn [length]. lia.
Qed.

Lemma adjacent_snoc {A} (l : list A) (x : A) :
  adjacent (l ++ [x]) = adjacent l ++ match List.last l x, l with
                                      | _, [] => []
                                      | y, _ :: _ => [(y, x)]
                                      end.
Proof.
  induction l as [|a l IH]; [reflexivity|].
  destruct l as [|b l]; [reflexivity|].
  change (adjacent ((a :: b :: l) ++ [x])) with ((a, b) :: adjacent ((b :: l) ++ [x])).
  rewrite IH. reflexivity.
Qed.

Lemma last_In {A} (l : list A) (d : A) : l <> [] -> In (List.last l d) l.
Proof.
  induction l as [|a l IH]; [congruence|]. intros _.
  destruct l as [|b l]; [left; reflexivity|]. right. apply IH. discriminate.
Qed.

Lemma Forall_adjacent_snoc {A} (P : A * A -> Prop) (l : list A) (x : A) :
  Forall P (adjacent l) -> (forall y, In y l -> P (y, x)) -> Forall P (adjacent (l ++ [x])).
Proof.
  intros Hl Hx. rewrite adjacent_snoc. apply Forall_app. split; [exact Hl|].
  destruct l as [|a l]; [constructor|].
  constructor; [|constructor]. apply Hx, last_In. discriminate.
Qed.

Lemma StronglySorted_snoc (l : list Z) (x : Z) :
  StronglySorted Z.le (l ++ [x]) -> StronglySorted Z.le l /\ Forall (fun y => y <= x) l.
Proof.
  induction l as [|a l IH]; cbn [app]; intros H; [split; constructor|].
  inversion H as [|a' l' Hs Hf]; subst. destruct (IH Hs) as [Hs' Hf'].
  apply Forall_app in Hf as [Hf1 Hf2]. inversion Hf2; subst.
  split; constructor; auto.
Qed.

Lemma seg_inv_open k ts r0 :
  index_interval_ r0 = k -> seg_inv k [] (open_new_files true true ts r0).
Proof.
  intros Hk. constructor; cbn.
  - exact Hk.
  - eexists. split; [reflexivity|]. reflexivity.
  - exists []. split; [reflexivity|]. rewrite Z.div_0_l by lia.
    repeat split; try constructor. discriminate.
  - reflexivity.
  - rewrite Z.mod_0_l by lia. reflexivity.
Qed.

Lemma update_mdf_header_inv k pre r now :
  seg_inv k pre r -> seg_inv k pre (update_mdf_header now r).
Proof.
  intros [Hk (content & Hc & Hlen) He Hb Hs]. unfold update_mdf_header. rewrite Hc.
  constructor; cbn; auto.
  eexists. split; [reflexivity|].
  pose proof (encoded_size_nonneg pre).
  rewrite length_overwrite_header; [exact Hlen|]. unfold sizeof_MdfHeader. lia.
Qed.

Lemma div_mod_succ n k :
  0 <= n -> 0 < k ->
  (k <= n mod k + 1 -> (n + 1) / k = n / k + 1 /\ (n + 1) mod k = 0)
  /\ (n mod k + 1 < k -> (n + 1) / k = n / k /\ (n + 1) mod k = n mod k + 1).
Proof.
  intros Hn Hk.
  pose proof (Z.div_mod n k ltac:(lia)) as Hdm.
  pose proof (Z.mod_pos_bound n k Hk) as Hm.
  split; intros H.
  - assert (Hn1 : n + 1 = k * (n / k + 1) + 0) by lia.
    split.
    + symmetry. apply (Z.div_unique (n + 1) k (n / k + 1) 0); lia.
    + symmetry. apply (Z.mod_unique (n + 1) k (n / k + 1) 0); lia.
  - assert (Hn1 : n + 1 = k * (n / k) + (n mod k + 1)) by lia.
    split.
    + symmetry. apply (Z.div_unique (n + 1) k (n / k) (n mod k + 1)); lia.
    + symmetry. apply (Z.mod_unique (n + 1) k (n / k) (n mod k + 1)); lia.
Qed.

Lemma write_frame_inv k pre r nf :
  0 <= k < 2 ^ 32 ->
  32 + encoded_size (pre ++ [nf]) < 2 ^ 64 ->
  seg_inv k pre r ->
  seg_inv k (pre ++ [nf]) (write_frame (fst nf) (snd nf) r).
Proof.
  intros Hk Hfit Hinv.
  pose proof Hinv as [Hki (content & Hc & Hlen) (entries & He & Hcount & Hoff & Hadj & Hts & Hhd) Hb Hs].
  rewrite encoded_size_app, encoded_size_single in Hfit.
  pose proof (encoded_size_nonneg pre) as Hnn.
  pose proof (length_encode_frame (snd nf)) as Henc.
  set (size := Z.of_nat (length (encode_frame (snd nf)))) in *.
  set (k' := Z.max k 1) in *.
  assert (Hk' : 0 < k') by (subst k'; lia).
  pose proof (Z.mod_pos_bound (Z.of_nat (length pre)) k' Hk') as Hmod.
  destruct (div_mod_succ (Z.of_nat (length pre)) k' ltac:(lia) Hk') as [Hwrap Hnowrap].
  unfold write_frame. rewrite Hc.
  match goal with
  | |- seg_inv _ _ (if _ then update_mdf_header _ ?r2 else ?r2) =>
      assert (H2 : seg_inv k (pre ++ [nf]) r2);
      [|destruct (_ =? 0); [apply update_mdf_header_inv|]; exact H2]
  end.
  cbn [index_interval_ frames_since_last_index_ current_file_bytes_].
  rewrite Hki, Hs, Hb.
  rewrite (Z.mod_small (_ + 1) (2 ^ 32)) by (subst k'; lia).
  fold size.
  rewrite (Z.mod_small (32 + encoded_size pre + size) (2 ^ 64)) by lia.
  replace (32 + encoded_size pre + size - size) with (32 + encoded_size pre) by lia.
  rewrite (Z.mod_small (32 + encoded_size pre) (2 ^ 64)) by lia.
  assert (Hlen' : Z.of_nat (length (content ++ encode_frame (snd nf)))
                  = 32 + encoded_size (pre ++ [nf])).
  { rewrite length_app, encoded_size_app, encoded_size_single. fold size. lia. }
  assert (Hnat : Z.of_nat (length (pre ++ [nf])) = Z.of_nat (length pre) + 1).
  { rewrite length_app. cbn [length]. lia. }
  destruct (Z.leb_spec k (Z.of_nat (length pre) mod k' + 1)) as [Hidx|Hno].
  - (* an index entry is written *)
    assert (Hkk : k' <= Z.of_nat (length pre) mod k' + 1) by (subst k'; lia).
    destruct (Hwrap Hkk) as [Hdiv Hm0].
    unfold write_index_entry. cbn [idx_file_]. rewrite He.
    constructor; cbn.
    + reflexivity.
    + eexists. split; [reflexivity|exact Hlen'].
    + eexists. split; [reflexivity|].
      split; [rewrite length_app, Hnat; fold k'; rewrite Hdiv; cbn [length]; lia|].
      split; [|split; [|split]].
      * apply Forall_app. split.
        -- eapply List.Forall_impl; [|exact Hoff]. intros e [Ho Hi].
           rewrite encoded_size_app, encoded_size_single, List.map_app. fold size.
           split; [lia|]. apply in_or_app. left. exact Hi.
        -- constructor; [|constructor]. cbn [file_offset ts_ns_first].
           rewrite encoded_size_app, encoded_size_single, List.map_app. fold size.
           split; [lia|]. apply in_or_app. right. left. reflexivity.
      * apply Forall_adjacent_snoc; [exact Hadj|].
        intros y Hy. cbn [fst snd file_offset].
        rewrite List.Forall_forall in Hoff. destruct (Hoff y Hy) as [Ho _]. lia.
      * intros Hsorted. rewrite List.map_app in Hsorted. cbn [List.map] in Hsorted.
        apply StronglySorted_snoc in Hsorted as [Hsorted Hle].
        apply Forall_adjacent_snoc; [apply Hts, Hsorted|].
        intros y Hy. cbn [fst snd ts_ns_first].
        rewrite List.Forall_forall in Hoff, Hle. destruct (Hoff y Hy) as [_ Hi].
        apply (Hle _ Hi).
      * intros e Hhe. fold k'.
        destruct entries as [|e0 entries].
        -- cbn in Hhe. injection Hhe as <-. cbn [file_offset].
           cbn [length] in Hcount. fold k' in Hcount.
           assert (Hsmall : Z.of_nat (length pre) < k').
           { symmetry in Hcount. change (Z.of_nat 0) with 0 in Hcount.
             apply Z.div_small_iff in Hcount as [Hc0|Hc0]; lia. }
           rewrite Z.mod_small in Hkk by lia.
           rewrite firstn_app.
           replace (Z.to_nat k' - 1 - length pre)%nat with 0%nat by lia.
           rewrite firstn_all2 by lia. cbn [firstn]. rewrite app_nil_r. reflexivity.
        -- cbn in Hhe. rewrite (Hhd e Hhe). fold k'. f_equal. f_equal.
           rewrite firstn_app.
           assert (Hge : k' <= Z.of_nat (length pre)).
           { cbn [length] in Hcount. fold k' in Hcount.
             destruct (Z.lt_ge_cases (Z.of_nat (length pre)) k') as [Hlt|Hge]; [|exact Hge].
             rewrite Z.div_small in Hcount by lia. lia. }
           replace (Z.to_nat k' - 1 - length pre)%nat with 0%nat by lia.
           cbn [firstn]. rewrite app_nil_r. reflexivity.
    + rewrite encoded_size_app, encoded_size_single. fold size. lia.
    + rewrite Hnat. fold k'. rewrite Hm0. reflexivity.
  - (* no index entry *)
    assert (Hkk : Z.of_nat (length pre) mod k' + 1 < k') by (subst k'; lia).
    destruct (Hnowrap Hkk) as [Hdiv Hm1].
    constructor; cbn.
    + reflexivity.
    + eexists. split; [reflexivity|exact Hlen'].
    + exists entries. split; [exact He|].
      split; [rewrite Hnat; fold k'; rewrite Hdiv; exact Hcount|].
      split; [|split; [|split]].
      * eapply List.Forall_impl; [|exact Hoff]. intros e [Ho Hi].
        rewrite encoded_size_app, encoded_size_single, List.map_app. fold size.
        split; [lia|]. apply in_or_app. left. exact Hi.
      * exact Hadj.
      * intros Hsorted. rewrite List.map_app in Hsorted. cbn [List.map] in Hsorted.
        apply StronglySorted_snoc in Hsorted as [Hsorted _]. apply Hts, Hsorted.
      * intros e Hhe. rewrite (Hhd e Hhe). fold k'. f_equal. f_equal.
        rewrite firstn_app.
        assert (Hge : k' <= Z.of_nat (length pre)).
        { destruct entries as [|e0 entries]; [discriminate|].
          cbn [length] in Hcount. fold k' in Hcount.
          destruct (Z.lt_ge_cases (Z.of_nat (length pre)) k') as [Hlt|Hge]; [|exact Hge].
          rewrite Z.div_small in Hcount by lia. lia. }
        replace (Z.to_nat k' - 1 - length pre)%nat with 0%nat by lia.
        cbn [firstn]. rewrite app_nil_r. reflexivity.
    + rewrite encoded_size_app, encoded_size_single. fold size. lia.
    + rewrite Hnat. fold k'. rewrite Hm1. reflexivity.
Qed.

Lemma write_frames_snoc pre nf r :
  write_frames (pre ++ [nf]) r = write_frame (fst nf) (snd nf) (write_frames pre r).
Proof. unfold write_frames. rewrite fold_left_app. reflexivity. Qed.

Lemma write_frames_inv k ts0 r0 frames :
  0 <= k < 2 ^ 32 -> index_interval_ r0 = k ->
  32 + encoded_size frames < 2 ^ 64 ->
  seg_inv k frames (write_frames frames (open_new_files true true ts0 r0)).
Proof.
  intros Hk Hki. induction frames as [|nf pre IH] using rev_ind; intros Hfit.
  - apply seg_inv_open, Hki.
  - rewrite write_frames_snoc. apply write_frame_inv; [exact Hk|exact Hfit|].
    apply IH. rewrite encoded_size_app in Hfit.
    pose proof (encoded_size_nonneg [nf]). lia.
Qed.

(** Claim C7, as the code has it.  After the recorder has appended N
    frames of total encoded size B to a freshly opened segment (B below
    2^64 - 32), the data file size is exactly 32 + B and the index file
    size is a multiple of 16 bytes; the index holds one entry per
    [index_interval] frames; for every two adjacent index entries
    (t1,o1), (t2,o2), o1 < o2, and t1 <= t2 when the frames came in
    non-decreasing timestamp order; the first index entry is written with
    the [index_interval]-th frame, and its offset is 32 plus the encoded
    size of the frames before that one. *)
Theorem segment_invariants (r0 : Recorder) (ts0 : Z) (frames : list (Z * Frame)) :
  0 <= index_interval_ r0 < 2 ^ 32 ->
  32 + encoded_size frames < 2 ^ 64 ->
  let r := write_frames frames (open_new_files true true ts0 r0) in
  exists content entries,
    mdf_file_ r = Some content /\ idx_file_ r = Some entries
    /\ Z.of_nat (length content) = 32 + encoded_size frames
    /\ Z.of_nat (length (idx_file_bytes entries)) mod 16 = 0
    /\ Z.of_nat (length entries) = Z.of_nat (length frames) / interval r0
    /\ Forall (fun p => file_offset (fst p) < file_offset (snd p)) (adjacent entries)
    /\ (StronglySorted Z.le (List.map frame_ts frames) ->
        Forall (fun p => ts_ns_first (fst p) <= ts_ns_first (snd p)) (adjacent entries))
    /\ (forall e, hd_error entries = Some e ->
          file_offset e
          = 32 + encoded_size (firstn (Z.to_nat (interval r0) - 1) frames)).
Proof.
  intros Hk Hfit r.
  destruct (write_frames_inv (index_interval_ r0) ts0 r0 frames Hk eq_refl Hfit)
    as [_ (content & Hc & Hlen) (entries & He & Hcount & _ & Hadj & Hts & Hhd) _ _].
  exists content, entries. fold r in Hc, He.
  repeat (split; [assumption|]). split.
  - rewrite length_idx_file_bytes. unfold sizeof_IndexEntry.
    rewrite Nat2Z.inj_mul, Z.mul_comm. apply Z.mod_mul. lia.
  - auto.
Qed.

Lemma segment_invariants_witness :
  exists content entries,
    mdf_file_ (write_frames unordered_run
                 (open_new_files true true 1 (Recorder_new 2147483648 2))) = Some content
    /\ idx_file_ (write_frames unordered_run
                 (open_new_files true true 1 (Recorder_new 2147483648 2))) = Some entries
    /\ Z.of_nat (length content) = 32 + encoded_size unordered_run
    /\ Forall (fun p => file_offset (fst p) < file_offset (snd p)) (adjacent entries).
Proof.
  destruct (segment_invariants (Recorder_new 2147483648 2) 1 unordered_run)
    as (content & entries & Hc & He & Hlen & _ & _ & Hadj & _).
  - cbn. lia.
  - vm_compute. reflexivity.
  - exists content, entries. auto.
Defined.

(** Claim C7 as stated fails: with an index interval of 2 and frames that
    arrive with timestamps 1, 5, 2, 3, the first index entry points 24
    bytes past the header and the two entries are not in time order. *)
Lemma index_not_at_header_nor_time_ordered :
  idx_file_ (write_frames unordered_run
               (open_new_files true true 1 (Recorder_new 2147483648 2)))
  = Some [ {| ts_ns_first := 5; file_offset := 56 |};
           {| ts_ns_first := 3; file_offset := 104 |} ]
  /\ 56 <> Z.of_nat sizeof_MdfHeader
  /\ ~ (5 <= 3).
Proof.
  split; [vm_compute; reflexivity|]. split; [discriminate|lia].
Qed.

End RecorderFacts.

(** ** Replayer *)
Module ReplayerFacts.
Import Wire Double Recorder Replayer.



(** Claim C9, on the failing input.  The segment holds three trades with
    timestamps in the replay range and a topic the session asks for; the
    second comes three seconds after the first, more than the token
    bucket holds.  The loop reads it, finds the tokens insufficient,
    sleeps and goes round again, where [read_next_frame] reads the frame
    after it: the cursor has advanced, and only the first frame is ever
    published. *)
Theorem throttled_frames_are_skipped :
  exists p,
    quiet_gap_playback = Some p
    /\ List.map (fun f => body_ts_ns (body f))
                (frames_of_segment 4 (skipn 32 quiet_gap_segment))
       = [1000000000; 4000000000; 4001000000]
    /\ forallb (fun f => (0 <=? body_ts_ns (body f))
                         && (body_ts_ns (body f) <=? 10000000000)
                         && should_send ["trade"%string] (base_topic_of (body f)))
               (frames_of_segment 4 (skipn 32 quiet_gap_segment)) = true
    /\ List.map (fun tf => body_ts_ns (body (snd tf))) (published p) = [1000000000]
    /\ s_pos (mdf_file (session p)) = length quiet_gap_segment.
Proof.
  eexists. split; [vm_compute; reflexivity|].
  split; [vm_compute; reflexivity|].
  split; [vm_compute; reflexivity|].
  split; vm_compute; reflexivity.
Qed.

End ReplayerFacts.

(** ** CRC-32: error detection *)
Module CrcDetection.
Import Crc32 CrcFacts.

Lemma table_step_range x : 0 <= x < 2 ^ 32 -> 0 <= table_step x < 2 ^ 32.
Proof.
  intros Hx. unfold table_step.
  assert (Hs : 0 <= Z.shiftr x 1 < 2 ^ 32).
  { rewrite Z.shiftr_div_pow2 by lia. split.
    - apply Z.div_pos; lia.
    - apply Z.div_lt_upper_bound; lia. }
  destruct (negb (Z.land x 1 =? 0)); [|exact Hs].
  apply lxor_range; [lia|exact Hs|unfold polynomial; lia].
Qed.

Lemma iter_step_range n x : 0 <= x < 2 ^ 32 -> 0 <= Nat.iter n table_step x < 2 ^ 32.
Proof.
  intros Hx. induction n as [|n IH]; [exact Hx|].
  cbn [Nat.iter]. apply table_step_range, IH.
Qed.

(** The shift register loses nothing: only 0 steps to 0. *)
Lemma table_step_zero x : 0 <= x < 2 ^ 32 -> table_step x = 0 -> x = 0.
Proof.
  intros Hx. unfold table_step.
  assert (Hs : 0 <= Z.shiftr x 1 < 2 ^ 31).
  { rewrite Z.shiftr_div_pow2 by lia. split.
    - apply Z.div_pos; lia.
    - apply Z.div_lt_upper_bound; lia. }
  destruct (Z.land x 1 =? 0) eqn:Hb; cbn [negb].
  - intros H0. apply Z.eqb_eq in Hb.
    change 1 with (Z.ones 1) in Hb. rewrite Z.land_ones in Hb by lia.
    rewrite Z.shiftr_div_pow2 in H0 by lia.
    change (2 ^ 1) with 2 in *. pose proof (Z.div_mod x 2). lia.
  - intros H0. apply Z.lxor_eq in H0. unfold polynomial in H0. lia.
Qed.

Lemma iter_step_zero n x : 0 <= x < 2 ^ 32 -> Nat.iter n table_step x = 0 -> x = 0.
Proof.
  intros Hx. induction n as [|n IH]; cbn [Nat.iter]; [auto|].
  intros H0. apply IH. apply table_step_zero; [apply iter_step_range; exact Hx|exact H0].
Qed.

Lemma byte_range b : 0 <= byte.unsigned b < 2 ^ 32.
Proof. pose proof (byte.unsigned_range b). lia. Qed.

(** One step of the CRC loop is injective in the pair (state, byte) up to
    their XOR. *)
Lemma update_eq crc b crc' b' :
  0 <= crc < 2 ^ 32 -> 0 <= crc' < 2 ^ 32 ->
  update crc b = update crc' b' ->
  Z.lxor crc (byte.unsigned b) = Z.lxor crc' (byte.unsigned b').
Proof.
  intros Hc Hc' H.
  rewrite !update_eight_steps in H by lia.
  apply Z.lxor_eq. apply (iter_step_zero 8).
  - apply lxor_range; [lia| |]; apply lxor_range; try lia; apply byte_range.
  - rewrite iter_step_lxor, H. apply Z.lxor_nilpotent.
Qed.

Lemma lxor_cancel_r a b c : Z.lxor a c = Z.lxor b c -> a = b.
Proof.
  intros E.
  replace a with (Z.lxor (Z.lxor a c) c)
    by (rewrite Z.lxor_assoc, Z.lxor_nilpotent, Z.lxor_0_r; reflexivity).
  rewrite E, Z.lxor_assoc, Z.lxor_nilpotent, Z.lxor_0_r. reflexivity.
Qed.

Lemma lxor_cancel_l a b c : Z.lxor c a = Z.lxor c b -> a = b.
Proof. rewrite !(Z.lxor_comm c). apply lxor_cancel_r. Qed.

Lemma update_inj_state crc crc' b :
  0 <= crc < 2 ^ 32 -> 0 <= crc' < 2 ^ 32 ->
  update crc b = update crc' b -> crc = crc'.
Proof.
  intros Hc Hc' H. apply update_eq in H; [|assumption..].
  apply lxor_cancel_r in H. exact H.
Qed.

Lemma update_inj_byte crc b b' :
  0 <= crc < 2 ^ 32 -> update crc b = update crc b' -> b = b'.
Proof.
  intros Hc H. apply update_eq in H; [|assumption..].
  apply lxor_cancel_l in H.
  rewrite <- (byte.of_Z_unsigned b), <- (byte.of_Z_unsigned b'), H. reflexivity.
Qed.

Lemma fold_update_inj data : forall crc crc',
  0 <= crc < 2 ^ 32 -> 0 <= crc' < 2 ^ 32 ->
  fold_left update data crc = fold_left update data crc' -> crc = crc'.
Proof.
  induction data as [|b data IH]; intros crc crc' Hc Hc' H; [exact H|].
  cbn [fold_left] in H. apply IH in H; try (apply update_range; assumption).
  apply update_inj_state in H; assumption.
Qed.

(** Property X1.  The table-driven [calculate_crc32] computes, for every
    input, the CRC-32 the specification names (IEEE 802.3, reflected
    polynomial 0xEDB88320, initial value and final XOR 0xFFFFFFFF), here
    defined bit by bit from those parameters alone; the result fits 32
    bits; and the ASCII digits 1 to 9 give the standard check value
    0xCBF43926. *)
Theorem crc32_is_standard (data : list byte) :
  calculate_crc32 data = reference_crc32 data
  /\ 0 <= calculate_crc32 data < 2 ^ 32
  /\ calculate_crc32 (List.map (fun c => byte.of_Z (Z.of_nat (nat_of_ascii c)))
                               (list_ascii_of_string "123456789"))
     = 0xCBF43926.
Proof.
  split; [apply calculate_crc32_reference|].
  split; [apply calculate_crc32_range|].
  vm_compute. reflexivity.
Qed.

Lemma crc32_detects_bytes (pre post : list byte) (b b' : byte) :
  b <> b' ->
  calculate_crc32 (pre ++ b :: post) <> calculate_crc32 (pre ++ b' :: post).
Proof.
  intros Hne H. unfold calculate_crc32 in H.
  assert (H0 : 0 <= 0xFFFFFFFF < 2 ^ 32) by lia.
  apply lxor_cancel_r in H. rewrite !fold_left_app in H. cbn [fold_left] in H.
  pose proof (fold_update_range pre _ H0) as Hc.
  apply fold_update_inj in H; try (apply update_range; exact Hc).
  apply update_inj_byte in H; [contradiction|exact Hc].
Qed.

(** Property X2.  Two buffers of the same length that differ in exactly one byte
    never have the same CRC: [calculate_crc32] detects every error
    confined to one byte, in particular every single-bit flip. *)
Theorem crc32_detects_byte_change (pre post : list byte) (b b' : byte) :
  b <> b' ->
  calculate_crc32 (pre ++ b :: post) <> calculate_crc32 (pre ++ b' :: post).
Proof. apply crc32_detects_bytes. Qed.

Lemma crc32_detects_byte_change_witness :
  calculate_crc32 ([Byte.x01] ++ Byte.x02 :: [Byte.x03])
  <> calculate_crc32 ([Byte.x01] ++ Byte.x03 :: [Byte.x03]).
Proof. apply crc32_detects_byte_change. discriminate. Defined.

End CrcDetection.

(** ** Frame codec: decoding as the inverse of encoding *)
Module WireInverse.
Import Crc32 Wire CrcFacts WireFacts.

Lemma firstn_chunk {A} (a n o : nat) (p : list A) :
  firstn (a + n) (skipn o p) = firstn a (skipn o p) ++ firstn n (skipn (o + a) p).
Proof.
  rewrite (Nat.add_comm o a), <- skipn_skipn.
  generalize (skipn o p) as l. clear p.
  induction a as [|a IH]; intros l; [reflexivity|].
  destruct l as [|x l]; cbn [Nat.add firstn skipn app].
  - rewrite firstn_nil. reflexivity.
  - f_equal. apply IH.
Qed.

Lemma get_le_app off len p rest :
  (off + len <= length p)%nat -> get_le off len (p ++ rest) = get_le off len p.
Proof.
  intros H. unfold get_le. rewrite skipn_app, firstn_app, length_skipn.
  replace (len - (length p - off))%nat with 0%nat by lia.
  rewrite firstn_O, app_nil_r. reflexivity.
Qed.

Lemma split_get_le off len p :
  (off + len <= length p)%nat ->
  le_split len (get_le off len p) = firstn len (skipn off p).
Proof.
  intros H. unfold get_le. apply split_le_combine'.
  rewrite length_firstn, length_skipn. lia.
Qed.

Lemma le_split_to_signed64 u : le_split 8 (to_signed64 u) = le_split 8 u.
Proof.
  rewrite (le_split_mod (to_signed64 u)), (le_split_mod u). f_equal.
  unfold to_signed64. destruct (u <? 2 ^ 63); [reflexivity|].
  change (Z.of_nat 8 * 8) with 64.
  replace (u - 2 ^ 64) with (u + (-1) * 2 ^ 64) by lia.
  apply Z.mod_add. lia.
Qed.

Lemma get_le_range off len p : 0 <= get_le off len p < 2 ^ (8 * Z.of_nat len).
Proof.
  unfold get_le. pose proof (le_combine_bound (firstn len (skipn off p))) as H.
  rewrite length_firstn in H.
  assert (2 ^ (8 * Z.of_nat (Nat.min len (length (skipn off p)))) <= 2 ^ (8 * Z.of_nat len))
    by (apply Z.pow_le_mono_r; lia).
  lia.
Qed.

Lemma to_signed64_range u : 0 <= u < 2 ^ 64 -> i64 (to_signed64 u).
Proof. unfold i64, to_signed64. destruct (Z.ltb_spec u (2 ^ 63)); lia. Qed.

Ltac split_fields :=
  rewrite ?le_split_to_signed64;
  rewrite !split_get_le by (cbn; lia).

Lemma bytes_of_header_of_bytes p :
  (HEADER_SIZE <= length p)%nat -> bytes_of_header (header_of_bytes p) = firstn HEADER_SIZE p.
Proof.
  unfold HEADER_SIZE. intros H.
  unfold bytes_of_header, header_of_bytes. cbn [magic version msg_type body_len crc32].
  split_fields.
  change (firstn 16 p) with (firstn (4 + (2 + (2 + (4 + 4)))) (skipn 0 p)).
  rewrite !firstn_chunk. reflexivity.
Qed.

Lemma bytes_of_L1_of_bytes p :
  (sizeof_L1 <= length p)%nat -> bytes_of_L1 (L1_of_bytes p) = firstn sizeof_L1 p.
Proof.
  unfold sizeof_L1. intros H. unfold bytes_of_L1, L1_of_bytes.
  cbn [l1_ts_ns l1_symbol_id bid_px bid_sz ask_px ask_sz l1_seq].
  split_fields.
  change (firstn 52 p) with (firstn (8 + (4 + (8 + (8 + (8 + (8 + 8)))))) (skipn 0 p)).
  rewrite !firstn_chunk. reflexivity.
Qed.

Lemma bytes_of_L2_of_bytes p :
  (sizeof_L2 <= length p)%nat -> bytes_of_L2 (L2_of_bytes p) = firstn sizeof_L2 p.
Proof.
  unfold sizeof_L2. intros H. unfold bytes_of_L2, L2_of_bytes.
  cbn [l2_ts_ns l2_symbol_id l2_side l2_action l2_level l2_price l2_size l2_seq].
  split_fields.
  change (firstn 40 p) with (firstn (8 + (4 + (1 + (1 + (2 + (8 + (8 + 8))))))) (skipn 0 p)).
  rewrite !firstn_chunk. reflexivity.
Qed.

Lemma bytes_of_Trade_of_bytes p :
  (sizeof_Trade <= length p)%nat -> bytes_of_Trade (Trade_of_bytes p) = firstn sizeof_Trade p.
Proof.
  unfold sizeof_Trade. intros H. unfold bytes_of_Trade, Trade_of_bytes.
  cbn [tr_ts_ns tr_symbol_id tr_price tr_size tr_aggressor_side tr_seq].
  split_fields.
  change (firstn 37 p) with (firstn (8 + (4 + (8 + (8 + (1 + 8))))) (skipn 0 p)).
  rewrite !firstn_chunk. reflexivity.
Qed.

Lemma bytes_of_Hb_of_bytes p :
  (sizeof_Hb <= length p)%nat -> bytes_of_Hb (Hb_of_bytes p) = firstn sizeof_Hb p.
Proof.
  unfold sizeof_Hb. intros H. unfold bytes_of_Hb, Hb_of_bytes. cbn [hb_ts_ns].
  split_fields. reflexivity.
Qed.

Lemma bytes_of_Ack_of_bytes p :
  (sizeof_Ack <= length p)%nat -> bytes_of_Ack (Ack_of_bytes p) = firstn sizeof_Ack p.
Proof.
  unfold sizeof_Ack. intros H. unfold bytes_of_Ack, Ack_of_bytes.
  cbn [ack_code reserved].
  split_fields.
  change (firstn 8 p) with (firstn (4 + 4) (skipn 0 p)).
  rewrite !firstn_chunk. reflexivity.
Qed.

Lemma msg_type_cases (mt : Z) (A : Type) (a1 a2 a3 a4 a5 d r : A) :
  match mt with 1 => a1 | 2 => a2 | 3 => a3 | 4 => a4 | 5 => a5 | _ => d end = r ->
  (mt = 1 /\ a1 = r) \/ (mt = 2 /\ a2 = r) \/ (mt = 3 /\ a3 = r)
  \/ (mt = 4 /\ a4 = r) \/ (mt = 5 /\ a5 = r)
  \/ (d = r /\ mt <> 1 /\ mt <> 2 /\ mt <> 3 /\ mt <> 4 /\ mt <> 5).
Proof.
  intros H.
  destruct mt as [|p|p]; [right; right; right; right; right; split; [exact H|lia]| |
                          right; right; right; right; right; split; [exact H|lia]].
  destruct p as [[[p|p|]|[p|p|]|]|[[p|p|]|[p|p|]|]|]; auto 10;
    right; right; right; right; right; (split; [exact H|lia]).
Qed.

(** What a successful [decode_body] says about its arguments. *)
Lemma decode_body_Some hdr p f :
  decode_body hdr p = Some f ->
  header f = hdr
  /\ msg_type hdr = body_msg_type (body f)
  /\ body_len hdr = Z.of_nat (body_sizeof (body f))
  /\ ((body_sizeof (body f) <= length p)%nat ->
      bytes_of_body (body f) = firstn (body_sizeof (body f)) p)
  /\ valid_body (body f)
  /\ forall rest, (body_sizeof (body f) <= length p)%nat ->
                  decode_body hdr (p ++ rest) = Some f.
Proof.
  unfold decode_body. intros H.
  apply msg_type_cases in H.
  destruct H as [[Hmt H]|[[Hmt H]|[[Hmt H]|[[Hmt H]|[[Hmt H]|[H _]]]]]]; [| | | | |discriminate];
    match type of H with
    | (if negb (?a =? ?b) then _ else _) = _ =>
        destruct (Z.eqb_spec a b) as [Hlen|Hlen]; cbn [negb] in H; [|discriminate]
    end;
    injection H as <-; cbn [header body body_msg_type body_sizeof bytes_of_body valid_body];
    (split; [reflexivity|]); (split; [exact Hmt|]); (split; [exact Hlen|]);
    rewrite Hmt; cbn [negb].
  - split; [apply bytes_of_L1_of_bytes|]. split.
    + unfold L1_of_bytes. cbn [l1_ts_ns l1_symbol_id bid_px bid_sz ask_px ask_sz l1_seq].
      unfold u64, u32. repeat split; try apply to_signed64_range; apply get_le_range.
    + intros rest Hp. unfold sizeof_L1 in Hp. do 3 f_equal. unfold L1_of_bytes.
      rewrite !get_le_app by (cbn; lia). reflexivity.
  - split; [apply bytes_of_L2_of_bytes|]. split.
    + unfold L2_of_bytes.
      cbn [l2_ts_ns l2_symbol_id l2_side l2_action l2_level l2_price l2_size l2_seq].
      unfold u64, u32, u16, u8. repeat split; try apply to_signed64_range; apply get_le_range.
    + intros rest Hp. unfold sizeof_L2 in Hp. do 3 f_equal. unfold L2_of_bytes.
      rewrite !get_le_app by (cbn; lia). reflexivity.
  - split; [apply bytes_of_Trade_of_bytes|]. split.
    + unfold Trade_of_bytes.
      cbn [tr_ts_ns tr_symbol_id tr_price tr_size tr_aggressor_side tr_seq].
      unfold u64, u32, u8. repeat split; try apply to_signed64_range; apply get_le_range.
    + intros rest Hp. unfold sizeof_Trade in Hp. do 3 f_equal. unfold Trade_of_bytes.
      rewrite !get_le_app by (cbn; lia). reflexivity.
  - split; [apply bytes_of_Hb_of_bytes|]. split.
    + unfold Hb_of_bytes. cbn [hb_ts_ns]. unfold u64. apply get_le_range.
    + intros rest Hp. unfold sizeof_Hb in Hp. do 3 f_equal. unfold Hb_of_bytes.
      rewrite !get_le_app by (cbn; lia). reflexivity.
  - split; [apply bytes_of_Ack_of_bytes|]. split.
    + unfold Ack_of_bytes. cbn [ack_code reserved]. unfold u32.
      split; apply get_le_range.
    + intros rest Hp. unfold sizeof_Ack in Hp. do 3 f_equal. unfold Ack_of_bytes.
      rewrite !get_le_app by (cbn; lia). reflexivity.
Qed.

(** The checks a buffer has passed when [decode_frame] returns a frame. *)
Lemma decode_frame_Some data f :
  decode_frame data = Some f ->
  (HEADER_SIZE <= length data)%nat
  /\ magic (header_of_bytes data) = FRAME_MAGIC
  /\ version (header_of_bytes data) = 1
  /\ Z.of_nat HEADER_SIZE + body_len (header_of_bytes data) <= Z.of_nat (length data)
  /\ calculate_crc32 (firstn (Z.to_nat (body_len (header_of_bytes data)))
                             (skipn HEADER_SIZE data))
     = crc32 (header_of_bytes data)
  /\ decode_body (header_of_bytes data) (skipn HEADER_SIZE data) = Some f.
Proof.
  unfold decode_frame. cbv zeta. set (hdr := header_of_bytes data).
  destruct (Nat.ltb_spec (length data) HEADER_SIZE) as [|Hlong]; [discriminate|].
  destruct (Z.eqb_spec (magic hdr) FRAME_MAGIC) as [Hm|]; [|discriminate].
  destruct (Z.eqb_spec (version hdr) 1) as [Hv|]; [|discriminate].
  cbn [negb orb].
  destruct (Z.ltb_spec (Z.of_nat (length data)) (Z.of_nat HEADER_SIZE + body_len hdr))
    as [|Hwhole]; [discriminate|].
  destruct (Z.eqb_spec (calculate_crc32 (firstn (Z.to_nat (body_len hdr))
                                                (skipn HEADER_SIZE data))) (crc32 hdr))
    as [Hcrc|]; [|discriminate].
  cbn [negb]. intros H. repeat split; assumption.
Qed.

(** Decoding the encoding of a constructed frame, for a valid body. *)
Lemma decode_encode_Frame_of b crc0 :
  valid_body b ->
  decode_frame (encode_frame (Frame_of b crc0))
  = Some (Frame_of b (calculate_crc32 (bytes_of_body b))).
Proof.
  intros Hv. rewrite encode_frame_Frame_of.
  rewrite decode_frame_wire; try reflexivity; [| apply valid_header_Frame_of |].
  - pose proof (body_roundtrip b Hv) as Hb.
    destruct b; cbn in Hb |- *; unfold decode_body; cbn; rewrite Hb; reflexivity.
  - cbn. f_equal. apply length_bytes_of_body.
Qed.

(** Property X3.  Decoding is the inverse of encoding on everything it accepts:
    when [decode_frame] returns a frame, encoding that frame gives back
    exactly the bytes the decoder consumed, the first 16 + [body_len]
    bytes of the buffer. *)
Theorem decode_then_encode (data : list byte) (f : Frame) :
  decode_frame data = Some f ->
  encode_frame f = firstn (HEADER_SIZE + Z.to_nat (body_len (header f))) data.
Proof.
  intros H. apply decode_frame_Some in H.
  destruct H as (Hlong & Hm & Hv & Hwhole & Hcrc & Hbody).
  apply decode_body_Some in Hbody.
  destruct Hbody as (Hh & Hmt & Hlen & Hbytes & _ & _).
  assert (Hp : (body_sizeof (body f) <= length (skipn HEADER_SIZE data))%nat)
    by (rewrite length_skipn; lia).
  specialize (Hbytes Hp).
  unfold encode_frame. rewrite Hh, Hlen, Nat2Z.id, Hbytes.
  rewrite resize_copy_exact by (rewrite length_firstn; lia).
  rewrite Hlen, Nat2Z.id in Hcrc. rewrite Hcrc.
  replace {| magic := magic (header_of_bytes data);
             version := version (header_of_bytes data);
             msg_type := msg_type (header_of_bytes data);
             body_len := Z.of_nat (body_sizeof (body f));
             crc32 := crc32 (header_of_bytes data) |}
    with (header_of_bytes data) by (rewrite <- Hlen; reflexivity).
  rewrite bytes_of_header_of_bytes by exact Hlong.
  change (firstn HEADER_SIZE data) with (firstn HEADER_SIZE (skipn 0 data)).
  change (skipn HEADER_SIZE data) with (skipn (0 + HEADER_SIZE) data).
  rewrite <- firstn_chunk. reflexivity.
Qed.

Lemma decode_then_encode_witness :
  let data := encode_frame sample_heartbeat ++ [Byte.xff] in
  let f := Frame_of (BodyHb {| hb_ts_ns := 1000000000 |}) 0x6743A31E in
  decode_frame data = Some f
  /\ encode_frame f = firstn (HEADER_SIZE + Z.to_nat (body_len (header f))) data.
Proof.
  intros data f.
  assert (H : decode_frame data = Some f) by (vm_compute; reflexivity).
  split; [exact H|]. apply decode_then_encode. exact H.
Defined.

Lemma header_of_bytes_app data rest :
  (HEADER_SIZE <= length data)%nat ->
  header_of_bytes (data ++ rest) = header_of_bytes data.
Proof.
  unfold HEADER_SIZE. intros H. unfold header_of_bytes.
  rewrite !get_le_app by (cbn; lia). reflexivity.
Qed.

(** Property X4.  A successful decode depends only on the frame's own bytes:
    whatever follows the frame in the buffer (the next frames of a
    stream, say) does not change the result. *)
Theorem decode_frame_ignores_rest (data rest : list byte) (f : Frame) :
  decode_frame data = Some f -> decode_frame (data ++ rest) = Some f.
Proof.
  intros H. apply decode_frame_Some in H.
  destruct H as (Hlong & Hm & Hv & Hwhole & Hcrc & Hbody).
  pose proof (decode_body_Some _ _ _ Hbody) as (_ & _ & Hlen & _ & _ & Happ).
  assert (Hp : (body_sizeof (body f) <= length (skipn HEADER_SIZE data))%nat)
    by (rewrite length_skipn; lia).
  unfold decode_frame. rewrite header_of_bytes_app by exact Hlong.
  rewrite length_app.
  destruct (Nat.ltb_spec (length data + length rest) HEADER_SIZE) as [|_]; [lia|].
  rewrite Hm, Hv, !Z.eqb_refl. cbn [negb orb].
  destruct (Z.ltb_spec (Z.of_nat (length data + length rest))
              (Z.of_nat HEADER_SIZE + body_len (header_of_bytes data))) as [|_]; [lia|].
  rewrite skipn_app.
  replace (HEADER_SIZE - length data)%nat with 0%nat by lia. cbn [skipn].
  rewrite firstn_app.
  replace (Z.to_nat (body_len (header_of_bytes data)) - length (skipn HEADER_SIZE data))%nat
    with 0%nat by lia.
  rewrite firstn_O, app_nil_r, Hcrc, Z.eqb_refl. cbn [negb].
  apply Happ, Hp.
Qed.

Lemma decode_frame_ignores_rest_witness :
  decode_frame (encode_frame sample_heartbeat ++ encode_frame sample_heartbeat)
  = decode_frame (encode_frame sample_heartbeat).
Proof.
  rewrite (decode_frame_ignores_rest (encode_frame sample_heartbeat)
             (encode_frame sample_heartbeat)
             (Frame_of (BodyHb {| hb_ts_ns := 1000000000 |}) 0x6743A31E));
    vm_compute; reflexivity.
Defined.

Lemma decode_frame_canonical data f :
  decode_frame data = Some f ->
  f = Frame_of (body f) (calculate_crc32 (bytes_of_body (body f)))
  /\ valid_body (body f).
Proof.
  intros H. apply decode_frame_Some in H.
  destruct H as (Hlong & Hm & Hv & Hwhole & Hcrc & Hbody).
  pose proof (decode_body_Some _ _ _ Hbody) as (Hh & Hmt & Hlen & Hbytes & Hvalid & _).
  assert (Hp : (body_sizeof (body f) <= length (skipn HEADER_SIZE data))%nat)
    by (rewrite length_skipn; lia).
  split; [|exact Hvalid].
  rewrite (Hbytes Hp). rewrite Hlen, Nat2Z.id in Hcrc. rewrite Hcrc.
  destruct f as [h b]. cbn [header body] in *. subst h.
  unfold Frame_of. f_equal. rewrite <- Hm, <- Hv, <- Hmt, <- Hlen.
  reflexivity.
Qed.

(** Property X5.  Every frame [decode_frame] returns is in canonical form: magic
    and version are the expected constants, [msg_type] and [body_len]
    are those of the body variant, the [crc32] field is the CRC of the
    body bytes, and every body field lies in the range of its C++ type. *)
Theorem decoded_frame_canonical (data : list byte) (f : Frame) :
  decode_frame data = Some f ->
  f = Frame_of (body f) (calculate_crc32 (bytes_of_body (body f)))
  /\ valid_body (body f).
Proof. apply decode_frame_canonical. Qed.

Lemma decoded_frame_canonical_witness :
  valid_body (body (Frame_of (BodyHb {| hb_ts_ns := 1000000000 |}) 0x6743A31E)).
Proof.
  apply (decoded_frame_canonical (encode_frame sample_heartbeat)).
  vm_compute. reflexivity.
Defined.

(** Property X6.  Damage to the body never gets through: if one byte of the body
    of an encoded frame is replaced by a different byte, [decode_frame]
    rejects the buffer. *)
Theorem decode_rejects_body_corruption
        (b : FrameBody) (crc0 : Z) (i : nat) (x y : byte) :
  bytes_of_body b !! i = Some y -> x <> y ->
  decode_frame (<[(HEADER_SIZE + i)%nat := x]> (encode_frame (Frame_of b crc0))) = None.
Proof.
  intros Hi Hne. rewrite encode_frame_Frame_of.
  set (h := header (Frame_of b (calculate_crc32 (bytes_of_body b)))).
  pose proof (valid_header_Frame_of b) as Hh. fold h in Hh.
  rewrite insert_app_r_alt by (rewrite length_bytes_of_header; lia).
  rewrite length_bytes_of_header.
  replace (HEADER_SIZE + i - HEADER_SIZE)%nat with i by lia.
  pose proof (take_drop_middle _ _ _ Hi) as Hsplit.
  assert (Hins : <[i := x]> (bytes_of_body b)
                 = take i (bytes_of_body b) ++ x :: drop (S i) (bytes_of_body b)).
  { rewrite <- Hsplit at 1.
    pose proof (lookup_lt_Some _ _ _ Hi) as Hlt.
    rewrite insert_app_r_alt by (rewrite length_take; lia).
    rewrite length_take. replace (i - i `min` length (bytes_of_body b))%nat with 0%nat by lia.
    reflexivity. }
  rewrite Hins.
  set (region := take i (bytes_of_body b) ++ x :: drop (S i) (bytes_of_body b)).
  assert (Hlen : length region = body_sizeof b).
  { rewrite <- (length_bytes_of_body b), <- Hsplit at 1.
    unfold region. rewrite !length_app. reflexivity. }
  unfold decode_frame.
  rewrite (header_roundtrip h region Hh), skipn_header.
  rewrite length_app, length_bytes_of_header.
  destruct (Nat.ltb_spec (HEADER_SIZE + length region) HEADER_SIZE) as [|_]; [lia|].
  change (magic h) with FRAME_MAGIC. change (version h) with 1.
  rewrite !Z.eqb_refl. cbn [negb orb].
  change (body_len h) with (Z.of_nat (body_sizeof b)).
  destruct (Z.ltb_spec (Z.of_nat (HEADER_SIZE + length region))
              (Z.of_nat HEADER_SIZE + Z.of_nat (body_sizeof b))) as [|_]; [lia|].
  rewrite Nat2Z.id, <- Hlen, firstn_all.
  change (crc32 h) with (calculate_crc32 (bytes_of_body b)).
  destruct (Z.eqb_spec (calculate_crc32 region) (calculate_crc32 (bytes_of_body b)))
    as [Heq|_]; [|reflexivity].
  exfalso. rewrite <- Hsplit in Heq. unfold region in Heq.
  exact (CrcDetection.crc32_detects_bytes _ _ _ _ Hne Heq).
Qed.

Lemma decode_rejects_body_corruption_witness :
  decode_frame (<[(HEADER_SIZE + 3)%nat := Byte.xff]> (encode_frame sample_heartbeat)) = None.
Proof.
  apply (decode_rejects_body_corruption (BodyHb {| hb_ts_ns := 1000000000 |}) 0 3
           Byte.xff Byte.x3b); [reflexivity|discriminate].
Defined.

Lemma Ack_of_heartbeat_bytes ts :
  Ack_of_bytes (le_split 8 ts)
  = {| ack_code := ts mod 2 ^ 32; reserved := Z.shiftr ts 32 mod 2 ^ 32 |}.
Proof.
  unfold Ack_of_bytes, get_le. f_equal.
  - change (skipn 0 (le_split 8 ts)) with (le_split 8 ts).
    rewrite le_combine_firstn, le_combine_split.
    change (8 * Z.of_nat 4) with 32. change (Z.of_nat 8 * 8) with 64.
    apply Z.mod_mod_divide. exists (2 ^ 32). reflexivity.
  - rewrite (skipn_le_split 4 8 ts) by lia.
    change (8 - 4)%nat with 4%nat.
    rewrite firstn_all2 by (rewrite length_le_split; lia).
    rewrite le_combine_split. reflexivity.
Qed.

(** Property X7.  The CRC protects the body only.  Take the encoding of any
    heartbeat frame and change the one header byte that holds the
    message type from 4 to 5 (a single flipped bit): [decode_frame]
    accepts the buffer and returns a ControlAck frame, whose [ack_code]
    is the low half of the heartbeat timestamp.  The header fields are
    not covered by the checksum, and the two 8-byte bodies are not told
    apart by their size. *)
Theorem header_not_covered_by_crc (ts crc0 : Z) :
  decode_frame (<[6%nat := Byte.x05]>
                  (encode_frame (Frame_of (BodyHb {| hb_ts_ns := ts |}) crc0)))
  = Some (Frame_of (BodyAck {| ack_code := ts mod 2 ^ 32;
                               reserved := Z.shiftr ts 32 mod 2 ^ 32 |})
                   (calculate_crc32 (le_split 8 ts))).
Proof.
  rewrite encode_frame_Frame_of.
  change (bytes_of_body (BodyHb {| hb_ts_ns := ts |})) with (le_split 8 ts).
  set (crc := calculate_crc32 (le_split 8 ts)).
  pose proof (calculate_crc32_range (le_split 8 ts)) as Hcrc. fold crc in Hcrc.
  set (h5 := {| magic := FRAME_MAGIC; version := 1; msg_type := MT_ControlAck;
                body_len := 8; crc32 := crc |}).
  assert (Hbytes : <[6%nat := Byte.x05]>
                     (bytes_of_header (header (Frame_of (BodyHb {| hb_ts_ns := ts |}) crc))
                      ++ le_split 8 ts)
                   = bytes_of_header h5 ++ le_split 8 ts).
  { unfold bytes_of_header, h5.
    cbn [header Frame_of magic version msg_type body_len crc32 body_msg_type body_sizeof].
    rewrite <- !app_assoc.
    rewrite (insert_app_r_alt (le_split 4 FRAME_MAGIC)) by (rewrite length_le_split; lia).
    rewrite length_le_split.
    rewrite (insert_app_r_alt (le_split 2 1)) by (rewrite length_le_split; lia).
    rewrite length_le_split. change (6 - 4 - 2)%nat with 0%nat.
    reflexivity. }
  rewrite Hbytes.
  rewrite decode_frame_wire; try reflexivity.
  - unfold decode_body, h5. cbn [msg_type body_len MT_ControlAck sizeof_Ack].
    change (8 =? Z.of_nat 8) with true. cbn [negb].
    rewrite Ack_of_heartbeat_bytes. reflexivity.
  - unfold valid_header, h5, u32, u16. cbn. unfold FRAME_MAGIC, MT_ControlAck. lia.
Qed.

End WireInverse.

(** ** Symbol registry *)
Module RegistryFacts.
Import Registry.

Lemma consistent_new : consistent SymbolRegistry_new.
Proof.
  split; cbn; try reflexivity.
  intros s id. rewrite lookup_empty. split; [discriminate|].
  intros [Hid H]. destruct (Z.to_nat id) as [|n] eqn:E; [lia|]. discriminate.
Qed.

(** A symbol that is already registered: nothing changes. *)
Lemma get_or_add_known s id r :
  symbol_to_id_ r !! s = Some id -> get_or_add s r = (id, r).
Proof. intros H. unfold get_or_add. rewrite H. reflexivity. Qed.

(** A new symbol takes the next id and the next slot of the vector. *)
Lemma get_or_add_fresh s r :
  symbol_to_id_ r !! s = None ->
  next_id_ r = Z.of_nat (length (symbols_ r)) -> next_id_ r + 1 < 2 ^ 32 ->
  get_or_add s r
  = (next_id_ r,
     {| symbol_to_id_ := <[s := next_id_ r]> (symbol_to_id_ r);
        symbols_ := symbols_ r ++ [s];
        next_id_ := next_id_ r + 1 |}).
Proof.
  intros Hnone Hnext Hbound. unfold get_or_add. rewrite Hnone. f_equal. f_equal.
  - destruct (Z.leb_spec (Z.of_nat (length (symbols_ r))) (next_id_ r)) as [_|]; [|lia].
    replace (Z.to_nat (next_id_ r + 1) - length (symbols_ r))%nat with 1%nat by lia.
    cbn [repeat]. rewrite Hnext, Nat2Z.id.
    rewrite insert_app_r_alt by lia. rewrite Nat.sub_diag. reflexivity.
  - apply Z.mod_small. lia.
Qed.

Lemma get_or_add_consistent s r :
  consistent r -> next_id_ r + 1 < 2 ^ 32 ->
  consistent (snd (get_or_add s r))
  /\ symbol_to_id_ (snd (get_or_add s r)) !! s = Some (fst (get_or_add s r))
  /\ next_id_ r <= next_id_ (snd (get_or_add s r)) <= next_id_ r + 1
  /\ dom (symbol_to_id_ (snd (get_or_add s r))) = {[s]} ∪ dom (symbol_to_id_ r).
Proof.
  intros [Hnext Hsize H0 Hmap] Hbound.
  destruct (symbol_to_id_ r !! s) as [id|] eqn:Hs.
  - rewrite (get_or_add_known s id r Hs). cbn [fst snd].
    split; [split; assumption|]. split; [exact Hs|]. split; [lia|].
    apply elem_of_dom_2 in Hs. symmetry. apply subseteq_union_1_L.
    apply singleton_subseteq_l. exact Hs.
  - rewrite (get_or_add_fresh s r Hs Hnext Hbound). cbn [fst snd].
    pose proof (lookup_lt_Some _ _ _ H0) as Hlen.
    split; [split; cbn [symbol_to_id_ symbols_ next_id_]|].
    + rewrite length_app. cbn [length]. lia.
    + rewrite map_size_insert_None by exact Hs. lia.
    + rewrite lookup_app_l by lia. exact H0.
    + intros s' id'. destruct (decide (s' = s)) as [->|Hne].
      * rewrite lookup_insert_eq. split.
        -- intros [= <-]. split; [lia|].
           rewrite Hnext, Nat2Z.id. apply list_lookup_middle. reflexivity.
        -- intros [Hid Hl]. f_equal.
           destruct (decide (Z.to_nat id' < length (symbols_ r))%nat) as [Hlt|Hge].
           ++ rewrite lookup_app_l in Hl by exact Hlt.
              assert (Hold : symbol_to_id_ r !! s = Some id') by (apply Hmap; auto).
              congruence.
           ++ apply lookup_lt_Some in Hl. rewrite length_app in Hl. cbn [length] in Hl. lia.
      * rewrite lookup_insert_ne by congruence. rewrite Hmap. split.
        -- intros [Hid Hl]. split; [exact Hid|].
           rewrite lookup_app_l by (apply lookup_lt_Some in Hl; exact Hl). exact Hl.
        -- intros [Hid Hl]. split; [exact Hid|].
           destruct (decide (Z.to_nat id' < length (symbols_ r))%nat) as [Hlt|Hge].
           ++ rewrite lookup_app_l in Hl by exact Hlt. exact Hl.
           ++ pose proof (lookup_lt_Some _ _ _ Hl) as Hl'.
              rewrite length_app in Hl'. cbn [length] in Hl'.
              replace (Z.to_nat id') with (length (symbols_ r) + 0)%nat in Hl by lia.
              rewrite lookup_app_r in Hl by lia.
              replace (length (symbols_ r) + 0 - length (symbols_ r))%nat with 0%nat in Hl by lia.
              cbn in Hl. congruence.
    + cbn [symbol_to_id_ next_id_]. split; [apply lookup_insert_eq|].
      split; [lia|]. apply dom_insert_L.
Qed.

Lemma add_all_consistent syms : forall r,
  consistent r -> next_id_ r + Z.of_nat (length syms) < 2 ^ 32 ->
  consistent (add_all syms r)
  /\ next_id_ (add_all syms r) <= next_id_ r + Z.of_nat (length syms)
  /\ dom (symbol_to_id_ (add_all syms r)) = list_to_set syms ∪ dom (symbol_to_id_ r).
Proof.
  induction syms as [|s syms IH]; intros r Hc Hb; cbn [add_all fold_left length] in *.
  - split; [exact Hc|]. split; [lia|]. cbn [list_to_set]. rewrite union_empty_l_L. reflexivity.
  - destruct (get_or_add_consistent s r Hc) as (Hc' & _ & Hn & Hd); [lia|].
    destruct (IH (snd (get_or_add s r)) Hc') as (Hc'' & Hn'' & Hd''); [lia|].
    split; [exact Hc''|]. split; [unfold add_all in *; lia|].
    unfold add_all in *. rewrite Hd'', Hd. cbn [list_to_set].
    rewrite (assoc_L (∪)), (comm_L (∪) (list_to_set syms)). reflexivity.
Qed.

Lemma registry_reachable syms :
  Z.of_nat (length syms) < 2 ^ 32 - 2 ->
  consistent (add_all syms SymbolRegistry_new)
  /\ next_id_ (add_all syms SymbolRegistry_new) + 1 < 2 ^ 32
  /\ dom (symbol_to_id_ (add_all syms SymbolRegistry_new)) = list_to_set syms.
Proof.
  intros Hb.
  destruct (add_all_consistent syms SymbolRegistry_new consistent_new)
    as (Hc & Hn & Hd); [cbn; lia|].
  cbn [next_id_ SymbolRegistry_new] in Hn.
  split; [exact Hc|]. split; [lia|].
  rewrite Hd. cbn [symbol_to_id_ SymbolRegistry_new].
  rewrite dom_empty_L, union_empty_r_L. reflexivity.
Qed.

Lemma by_id_lookup r id s :
  0 <= id -> symbols_ r !! Z.to_nat id = Some s -> by_id id r = s.
Proof.
  intros Hid Hl. unfold by_id.
  pose proof (lookup_lt_Some _ _ _ Hl) as Hlt.
  destruct (Z.leb_spec (Z.of_nat (length (symbols_ r))) id) as [|_]; [lia|].
  apply nth_lookup_Some with (d := EmptyString) in Hl. exact Hl.
Qed.

Lemma get_or_add_by_id syms s :
  Z.of_nat (length syms) < 2 ^ 32 - 2 ->
  let r := add_all syms SymbolRegistry_new in
  let id := fst (get_or_add s r) in
  1 <= id < 2 ^ 32 /\ by_id id (snd (get_or_add s r)) = s.
Proof.
  intros Hb r id.
  destruct (registry_reachable syms Hb) as (Hc & Hn & _). fold r in Hc, Hn.
  destruct (get_or_add_consistent s r Hc Hn) as (Hc' & Hs & Hn' & _).
  fold id in Hs. apply (cons_map _ Hc') in Hs. destruct Hs as [Hid Hl].
  split; [|apply by_id_lookup; [lia|exact Hl]].
  split; [exact Hid|].
  apply lookup_lt_Some in Hl. pose proof (cons_next _ Hc'). lia.
Qed.

(** Property X8.  Round trip through the registry: in a registry built by calls
    of [get_or_add] (fewer than 2^32 - 2 of them, so that the 32-bit id
    counter has not wrapped), the id [get_or_add] returns for a symbol
    is at least 1, fits 32 bits, and [by_id] maps it back to the
    symbol. *)
Theorem by_id_get_or_add (syms : list string) (s : string) :
  Z.of_nat (length syms) < 2 ^ 32 - 2 ->
  let r := add_all syms SymbolRegistry_new in
  let id := fst (get_or_add s r) in
  1 <= id < 2 ^ 32 /\ by_id id (snd (get_or_add s r)) = s.
Proof. apply get_or_add_by_id. Qed.

Lemma by_id_get_or_add_witness :
  by_id (fst (get_or_add "ETHUSDT" (add_all ["BTCUSDT"; "ETHUSDT"]%string SymbolRegistry_new)))
        (snd (get_or_add "ETHUSDT" (add_all ["BTCUSDT"; "ETHUSDT"]%string SymbolRegistry_new)))
  = "ETHUSDT"%string.
Proof.
  apply (by_id_get_or_add ["BTCUSDT"; "ETHUSDT"]%string "ETHUSDT"). cbn. lia.
Defined.

Lemma get_or_add_keeps s id t r :
  symbol_to_id_ r !! s = Some id ->
  symbol_to_id_ (snd (get_or_add t r)) !! s = Some id.
Proof.
  intros Hs. unfold get_or_add.
  destruct (symbol_to_id_ r !! t) as [id'|] eqn:Ht; cbn [snd symbol_to_id_]; [exact Hs|].
  rewrite lookup_insert_ne by congruence. exact Hs.
Qed.

Lemma get_or_add_registers s r :
  symbol_to_id_ (snd (get_or_add s r)) !! s = Some (fst (get_or_add s r)).
Proof.
  unfold get_or_add.
  destruct (symbol_to_id_ r !! s) as [id|] eqn:Hs; cbn [fst snd symbol_to_id_]; [exact Hs|].
  apply lookup_insert_eq.
Qed.

Lemma add_all_keeps s id later : forall r,
  symbol_to_id_ r !! s = Some id -> symbol_to_id_ (add_all later r) !! s = Some id.
Proof.
  induction later as [|t later IH]; intros r Hs; [exact Hs|].
  cbn [add_all fold_left]. apply IH, get_or_add_keeps, Hs.
Qed.

(** Property X9.  An id, once handed out, is permanent: whatever symbols are
    registered afterwards, asking again for the same symbol returns the
    same id and leaves the registry as it is.  This holds in every
    state of the registry. *)
Theorem get_or_add_stable (r : SymbolRegistry) (s : string) (later : list string) :
  get_or_add s (add_all later (snd (get_or_add s r)))
  = (fst (get_or_add s r), add_all later (snd (get_or_add s r))).
Proof.
  apply get_or_add_known, add_all_keeps, get_or_add_registers.
Qed.

Lemma elem_of_In_string (s : string) (l : list string) : s ∈ l <-> In s l.
Proof. apply list_elem_of_In. Qed.

Lemma registered_lookup syms s :
  Z.of_nat (length syms) < 2 ^ 32 - 2 -> In s syms ->
  exists id, symbol_to_id_ (add_all syms SymbolRegistry_new) !! s = Some id
             /\ get_or_add s (add_all syms SymbolRegistry_new)
                = (id, add_all syms SymbolRegistry_new).
Proof.
  intros Hb Hin. destruct (registry_reachable syms Hb) as (_ & _ & Hd).
  assert (Hs : s ∈ dom (symbol_to_id_ (add_all syms SymbolRegistry_new))).
  { rewrite Hd. apply elem_of_list_to_set, elem_of_In_string, Hin. }
  apply elem_of_dom in Hs. destruct Hs as [id Hs].
  exists id. split; [exact Hs|apply get_or_add_known, Hs].
Qed.

(** Property X10.  Distinct symbols have distinct ids: in a registry
    built by calls of [get_or_add], the ids [get_or_add] answers for two
    different registered symbols are different. *)
Theorem get_or_add_injective (syms : list string) (s t : string) :
  Z.of_nat (length syms) < 2 ^ 32 - 2 ->
  In s syms -> In t syms -> s <> t ->
  let r := add_all syms SymbolRegistry_new in
  fst (get_or_add s r) <> fst (get_or_add t r).
Proof.
  intros Hb Hs Ht Hne r.
  destruct (registry_reachable syms Hb) as (Hc & _ & _). fold r in Hc.
  destruct (registered_lookup syms s Hb Hs) as (i & Hi & Hgs).
  destruct (registered_lookup syms t Hb Ht) as (j & Hj & Hgt).
  fold r in Hi, Hj, Hgs, Hgt. rewrite Hgs, Hgt. cbn [fst]. intros <-.
  apply (cons_map _ Hc) in Hi, Hj. destruct Hi as [_ Hi], Hj as [_ Hj]. congruence.
Qed.

Lemma get_or_add_injective_witness :
  fst (get_or_add "BTCUSDT" (add_all ["BTCUSDT"; "ETHUSDT"; "BTCUSDT"]%string SymbolRegistry_new))
  <> fst (get_or_add "ETHUSDT"
            (add_all ["BTCUSDT"; "ETHUSDT"; "BTCUSDT"]%string SymbolRegistry_new)).
Proof.
  apply (get_or_add_injective ["BTCUSDT"; "ETHUSDT"; "BTCUSDT"]%string);
    [cbn; lia|cbn; auto|cbn; auto|discriminate].
Defined.

(** Property X11.  Ids are dense and follow the order of first appearance: a
    symbol that was not registered before gets the number of distinct
    symbols registered so far, plus one; the first symbol gets 1. *)
Theorem fresh_id_counts_symbols (syms : list string) (s : string) :
  Z.of_nat (length syms) < 2 ^ 32 - 2 ->
  ~ In s syms ->
  fst (get_or_add s (add_all syms SymbolRegistry_new))
  = 1 + Z.of_nat (size (list_to_set syms : gset string)).
Proof.
  intros Hb Hnin.
  destruct (registry_reachable syms Hb) as (Hc & Hn & Hd).
  assert (Hs : symbol_to_id_ (add_all syms SymbolRegistry_new) !! s = None).
  { apply not_elem_of_dom. rewrite Hd. rewrite elem_of_list_to_set, elem_of_In_string.
    exact Hnin. }
  rewrite (get_or_add_fresh s _ Hs (cons_next _ Hc) Hn). cbn [fst].
  rewrite (cons_size _ Hc), <- Hd, size_dom. reflexivity.
Qed.

Lemma fresh_id_counts_symbols_witness :
  fst (get_or_add "SOLUSDT" (add_all ["BTCUSDT"; "ETHUSDT"; "BTCUSDT"]%string SymbolRegistry_new))
  = 1 + Z.of_nat (size (list_to_set ["BTCUSDT"; "ETHUSDT"; "BTCUSDT"]%string : gset string)).
Proof.
  apply fresh_id_counts_symbols; [cbn; lia|].
  cbn. intros [H|[H|[H|[]]]]; discriminate.
Defined.

(** Property X12.  [get_all] lists exactly the registered symbols that are not
    the empty string, each with the id [get_or_add] answers for it. *)
Theorem get_all_spec (syms : list string) (id : Z) (s : string) :
  Z.of_nat (length syms) < 2 ^ 32 - 2 ->
  let r := add_all syms SymbolRegistry_new in
  In (id, s) (get_all r)
  <-> s <> EmptyString /\ In s syms /\ fst (get_or_add s r) = id.
Proof.
  intros Hb r.
  destruct (registry_reachable syms Hb) as (Hc & _ & Hd). fold r in Hc, Hd.
  assert (Hreg : forall s' id', symbol_to_id_ r !! s' = Some id'
                                <-> In s' syms /\ fst (get_or_add s' r) = id').
  { intros s' id'. split.
    - intros Hs. split.
      + apply elem_of_In_string, (elem_of_list_to_set (C := gset string)).
        rewrite <- Hd. apply elem_of_dom. eauto.
      + rewrite (get_or_add_known _ _ _ Hs). reflexivity.
    - intros [Hin Hid].
      destruct (registered_lookup syms s' Hb Hin) as (i & Hi & Hg). fold r in Hi, Hg.
      rewrite Hg in Hid. cbn [fst] in Hid. subst i. exact Hi. }
  unfold get_all. rewrite filter_In, in_map_iff. cbn [snd].
  rewrite negb_true_iff, String.eqb_neq.
  rewrite <- Hreg, (cons_map _ Hc).
  split.
  - intros [(i & Heq & Hi) Hne]. injection Heq as <- <-.
    apply in_seq in Hi. split; [exact Hne|]. split; [lia|].
    rewrite Nat2Z.id.
    destruct (nth_lookup_or_length (symbols_ r) i EmptyString) as [Hl|Hl]; [exact Hl|lia].
  - intros (Hne & Hid & Hl). split; [|exact Hne].
    exists (Z.to_nat id). split.
    + f_equal; [lia|]. apply nth_lookup_Some with (d := EmptyString) in Hl. exact Hl.
    + apply in_seq. apply lookup_lt_Some in Hl. lia.
Qed.

Lemma get_all_spec_witness :
  In (3, "ETHUSDT"%string)
     (get_all (add_all ["BTCUSDT"; EmptyString; "ETHUSDT"]%string SymbolRegistry_new))
  <-> "ETHUSDT"%string <> EmptyString
      /\ In "ETHUSDT"%string ["BTCUSDT"; EmptyString; "ETHUSDT"]%string
      /\ fst (get_or_add "ETHUSDT"
                (add_all ["BTCUSDT"; EmptyString; "ETHUSDT"]%string SymbolRegistry_new)) = 3.
Proof.
  apply (get_all_spec ["BTCUSDT"; EmptyString; "ETHUSDT"]%string). cbn. lia.
Defined.

End RegistryFacts.

(** ** From an event to its topic and its bytes *)
Module PipelineFacts.
Import Crc32 Wire Double Registry Normalizer Distributor.
Import CrcFacts WireFacts WireInverse NormalizerFacts RegistryFacts.

(** The frame [normalize_event] builds, when it builds one. *)
Lemma normalize_event_Some event crc0 reg f :
  fst (normalize_event event crc0 reg) = Some f ->
  snd (normalize_event event crc0 reg) = snd (get_or_add (symbol event) reg)
  /\ exists b, f = Frame_of b crc0
     /\ body_msg_type b = match type event with L1 => 1 | L2 => 2 | Trade => 3 end
     /\ match b with
        | BodyL1 x => l1_symbol_id x = fst (get_or_add (symbol event) reg)
                      /\ l1_ts_ns x = timestamp_ns event /\ l1_seq x = sequence event
                      /\ i64 (bid_px x) /\ u64 (bid_sz x) /\ i64 (ask_px x) /\ u64 (ask_sz x)
        | BodyL2 x => l2_symbol_id x = fst (get_or_add (symbol event) reg)
                      /\ l2_ts_ns x = timestamp_ns event /\ l2_seq x = sequence event
                      /\ l2_side x = side event /\ l2_action x = action event
                      /\ l2_level x = level event
                      /\ i64 (l2_price x) /\ u64 (l2_size x)
        | BodyTrade x => tr_symbol_id x = fst (get_or_add (symbol event) reg)
                      /\ tr_ts_ns x = timestamp_ns event /\ tr_seq x = sequence event
                      /\ tr_aggressor_side x = aggressor_side event
                      /\ i64 (tr_price x) /\ u64 (tr_size x)
        | _ => False
        end.
Proof.
  unfold normalize_event.
  destruct (get_or_add (symbol event) reg) as [symbol_id reg'] eqn:Hg. cbn [fst snd].
  intros H. split; [reflexivity|].
  destruct (type event).
  - destruct (scale_price (bid_price event)) as [bp|] eqn:H1; [|discriminate].
    destruct (scale_size (bid_size event)) as [bs|] eqn:H2; [|discriminate].
    destruct (scale_price (ask_price event)) as [ap|] eqn:H3; [|discriminate].
    destruct (scale_size (ask_size event)) as [az|] eqn:H4; [|discriminate].
    cbn in H. injection H as <-. eexists. split; [reflexivity|]. split; [reflexivity|].
    cbn [l1_symbol_id l1_ts_ns l1_seq bid_px bid_sz ask_px ask_sz].
    apply to_int64_spec in H1, H3. apply to_uint64_spec in H2, H4.
    destruct H1 as [_ H1], H2 as [_ H2], H3 as [_ H3], H4 as [_ H4].
    repeat (split; [reflexivity || assumption|]); assumption.
  - destruct (scale_price (price event)) as [px|] eqn:H1; [|discriminate].
    destruct (scale_size (size event)) as [sz|] eqn:H2; [|discriminate].
    cbn in H. injection H as <-. eexists. split; [reflexivity|]. split; [reflexivity|].
    cbn [l2_symbol_id l2_ts_ns l2_seq l2_side l2_action l2_level l2_price l2_size].
    apply to_int64_spec in H1. apply to_uint64_spec in H2.
    destruct H1 as [_ H1], H2 as [_ H2].
    repeat (split; [reflexivity || assumption|]); assumption.
  - destruct (scale_price (trade_price event)) as [px|] eqn:H1; [|discriminate].
    destruct (scale_size (trade_size event)) as [sz|] eqn:H2; [|discriminate].
    cbn in H. injection H as <-. eexists. split; [reflexivity|]. split; [reflexivity|].
    cbn [tr_symbol_id tr_ts_ns tr_seq tr_aggressor_side tr_price tr_size].
    apply to_int64_spec in H1. apply to_uint64_spec in H2.
    destruct H1 as [_ H1], H2 as [_ H2].
    repeat (split; [reflexivity || assumption|]); assumption.
Qed.

(** Property X13.  The topic of an event.  Take a registry built by calls of
    [get_or_add], normalize an event in it, and let further symbols be
    registered before the distributor looks at the frame: the topic
    [generate_topic] derives is the kind of the event, a dot, and the
    symbol of the event ("UNKNOWN" when the symbol is the empty
    string). *)
Theorem topic_of_normalized_event
        (syms later : list string) (event : RawEvent) (crc0 : Z) (f : Frame) :
  Z.of_nat (length syms) + Z.of_nat (length later) < 2 ^ 32 - 3 ->
  let reg := add_all syms SymbolRegistry_new in
  fst (normalize_event event crc0 reg) = Some f ->
  generate_topic f (add_all later (snd (normalize_event event crc0 reg)))
  = Some (topic_prefix (type event) ++ "."
          ++ (if String.eqb (symbol event) EmptyString then "UNKNOWN"
              else symbol event))%string.
Proof.
  intros Hb reg Hf.
  destruct (normalize_event_Some _ _ _ _ Hf) as (Hreg & b & -> & Hmt & Hfields).
  rewrite Hreg.
  destruct (registry_reachable syms) as (Hc & Hn & _); [lia|]. fold reg in Hc, Hn.
  destruct (get_or_add_consistent (symbol event) reg Hc Hn) as (Hc1 & Hs & Hn1 & _).
  set (reg1 := snd (get_or_add (symbol event) reg)) in *.
  set (id := fst (get_or_add (symbol event) reg)) in *.
  assert (Hbound : next_id_ reg <= 1 + Z.of_nat (length syms)).
  { destruct (add_all_consistent syms SymbolRegistry_new consistent_new) as (_ & H & _);
      [cbn; lia|exact H]. }
  destruct (add_all_consistent later reg1 Hc1) as (Hc2 & _ & _); [lia|].
  apply (add_all_keeps _ _ later) in Hs. apply (cons_map _ Hc2) in Hs.
  destruct Hs as [Hid Hl].
  assert (Hby : by_id id (add_all later reg1) = symbol event)
    by (apply by_id_lookup; [lia|exact Hl]).
  unfold generate_topic. cbn [body Frame_of].
  destruct b as [x|x|x|x|x]; try contradiction;
    destruct Hfields as (-> & _); rewrite Hby;
    destruct (type event); cbn in Hmt; try discriminate; reflexivity.
Qed.

Lemma topic_of_normalized_event_witness :
  generate_topic
    (Frame_of (BodyL1 {| l1_ts_ns := 1000000000; l1_symbol_id := 1;
                         bid_px := 1000000000; bid_sz := 100000000;
                         ask_px := 1001000000; ask_sz := 200000000;
                         l1_seq := 1 |}) 0)
    (add_all ["ETHUSDT"%string]
       (snd (normalize_event scenario_l1 0 (add_all [] SymbolRegistry_new))))
  = Some "l1.BTCUSDT"%string.
Proof.
  apply (topic_of_normalized_event [] ["ETHUSDT"%string] scenario_l1 0); [cbn; lia|].
  apply scenario_l1_framed.
Defined.

(** Property X14.  What the normalizer builds survives the wire.  For an event
    whose integer fields are in the ranges of their C++ types, in a
    registry built by calls of [get_or_add], the frame [normalize_event]
    returns has a body whose every field fits its wire field, and
    decoding its encoding returns the frame, the [crc32] field filled
    in. *)
Theorem normalized_frame_roundtrip
        (syms : list string) (event : RawEvent) (crc0 : Z) (f : Frame) :
  Z.of_nat (length syms) < 2 ^ 32 - 2 ->
  valid_event event ->
  fst (normalize_event event crc0 (add_all syms SymbolRegistry_new)) = Some f ->
  valid_body (body f)
  /\ decode_frame (encode_frame f)
     = Some (Frame_of (body f) (calculate_crc32 (bytes_of_body (body f)))).
Proof.
  intros Hb (Hts & Hseq & Hact & Hside & Hlvl & Hagg) Hf.
  destruct (normalize_event_Some _ _ _ _ Hf) as (_ & b & -> & _ & Hfields).
  pose proof (get_or_add_by_id syms (symbol event) Hb) as Hid.
  cbv zeta in Hid. destruct Hid as [Hid _].
  assert (Hv : valid_body b).
  { destruct b as [x|x|x|x|x]; try contradiction; cbn [valid_body].
    - destruct Hfields as (-> & -> & -> & H1 & H2 & H3 & H4).
      unfold u32. repeat (split; [assumption || lia|]); assumption || lia.
    - destruct Hfields as (-> & -> & -> & -> & -> & -> & H1 & H2).
      unfold u32. repeat (split; [assumption || lia|]); assumption || lia.
    - destruct Hfields as (-> & -> & -> & -> & H1 & H2).
      unfold u32. repeat (split; [assumption || lia|]); assumption || lia. }
  cbn [body Frame_of]. split; [exact Hv|]. apply decode_encode_Frame_of, Hv.
Qed.

Lemma normalized_frame_roundtrip_witness :
  valid_body (body (Frame_of (BodyL1 {| l1_ts_ns := 1000000000; l1_symbol_id := 1;
                                        bid_px := 1000000000; bid_sz := 100000000;
                                        ask_px := 1001000000; ask_sz := 200000000;
                                        l1_seq := 1 |}) 0)).
Proof.
  apply (normalized_frame_roundtrip [] scenario_l1 0); [cbn; lia| |apply scenario_l1_framed].
  unfold valid_event, u64, u8, u16. cbn. lia.
Defined.

End PipelineFacts.

(** ** Metrics *)
Module MetricsFacts.
Import Metrics.

Lemma get_counter_inc name n d m :
  get_counter name (increment_counter n d m)
  = if String.eqb n name then (get_counter name m + d) mod 2 ^ 64 else get_counter name m.
Proof.
  unfold increment_counter, get_counter.
  destruct (String.eqb_spec n name) as [->|Hne].
  - rewrite lookup_insert_eq. reflexivity.
  - rewrite lookup_insert_ne by exact Hne. reflexivity.
Qed.

Lemma increment_all_mod name incs : forall m,
  get_counter name (increment_all incs m) mod 2 ^ 64
  = (get_counter name m + delta_sum name incs) mod 2 ^ 64.
Proof.
  induction incs as [|[n d] incs IH]; intros m;
    cbn [increment_all fold_left delta_sum fold_right fst snd].
  - rewrite Z.add_0_r. reflexivity.
  - fold (increment_all incs (increment_counter n d m)). fold (delta_sum name incs).
    rewrite IH, get_counter_inc.
    destruct (String.eqb n name); [|reflexivity].
    rewrite Zplus_mod_idemp_l. f_equal. lia.
Qed.

Lemma increment_all_range name incs : forall m,
  0 <= get_counter name m < 2 ^ 64 ->
  0 <= get_counter name (increment_all incs m) < 2 ^ 64.
Proof.
  induction incs as [|[n d] incs IH]; intros m Hm; cbn [increment_all fold_left fst snd];
    [exact Hm|].
  apply IH. rewrite get_counter_inc.
  destruct (String.eqb n name); [apply Z.mod_pos_bound; lia|exact Hm].
Qed.

(** Property X15.  A counter holds the sum of what was added to it: after any
    run of [increment_counter] calls on a fresh collector, [get_counter]
    reads, for each name, the sum of the deltas given for that name,
    modulo 2^64; calls for other names do not disturb it, and a name
    never incremented reads 0. *)
Theorem counter_is_sum_of_deltas (incs : list (string * Z)) (name : string) :
  get_counter name (increment_all incs ∅) = delta_sum name incs mod 2 ^ 64.
Proof.
  assert (H0 : 0 <= get_counter name ∅ < 2 ^ 64).
  { unfold get_counter. rewrite lookup_empty. cbn. lia. }
  rewrite <- (Z.mod_small _ (2 ^ 64)) by (apply increment_all_range; exact H0).
  rewrite increment_all_mod. unfold get_counter at 1. rewrite lookup_empty. reflexivity.
Qed.

(** *** The latency histogram *)

Lemma bucket_of_le latency bs : (bucket_of latency bs <= length bs)%nat.
Proof.
  induction bs as [|b bs IH]; cbn [bucket_of length]; [lia|].
  destruct (latency <=? b); lia.
Qed.

Lemma find_bucket_spec latency bs : forall i,
  find_bucket latency i bs
  = if (bucket_of latency bs <? length bs)%nat then (i + bucket_of latency bs)%nat else 0%nat.
Proof.
  induction bs as [|b bs IH]; intros i; cbn [find_bucket bucket_of length]; [reflexivity|].
  destruct (latency <=? b).
  - cbn. lia.
  - rewrite IH. change (S (bucket_of latency bs) <? S (length bs))%nat
      with (bucket_of latency bs <? length bs)%nat.
    destruct (bucket_of latency bs <? length bs)%nat; [lia|reflexivity].
Qed.

Lemma bucket_of_overflow latency bs :
  bucket_of latency bs = length bs -> Forall (fun b => b < latency) bs.
Proof.
  induction bs as [|b bs IH]; cbn [bucket_of length]; intros H; [constructor|].
  destruct (Z.leb_spec latency b); [discriminate|].
  constructor; [assumption|]. apply IH. lia.
Qed.

Lemma bucket_of_zero latency b bs : bucket_of latency (b :: bs) = 0%nat -> latency <= b.
Proof. cbn [bucket_of]. destruct (Z.leb_spec latency b); [auto|discriminate]. Qed.

Lemma sorted_head_le_last b bs back :
  StronglySorted Z.le (b :: bs) -> last (b :: bs) = Some back -> b <= back.
Proof.
  intros Hs Hl. apply StronglySorted_inv in Hs. destruct Hs as [_ Hall].
  destruct bs as [|b' bs]; [cbn in Hl; injection Hl as <-; lia|].
  rewrite last_cons_cons in Hl.
  rewrite List.Forall_forall in Hall. apply Hall.
  apply list_elem_of_In, last_Some_elem_of, Hl.
Qed.

(** The bucket [record] counts a latency in, for sorted bounds. *)
Lemma record_counts latency h :
  buckets_ h <> [] -> StronglySorted Z.le (buckets_ h) ->
  exists back, last (buckets_ h) = Some back
    /\ record latency h
       = Some {| buckets_ := buckets_ h;
                 counts_ :=
                   match counts_ h !! bucket_of latency (buckets_ h) with
                   | Some c => <[bucket_of latency (buckets_ h) := (c + 1) mod 2 ^ 64]>
                                 (counts_ h)
                   | None => counts_ h
                   end;
                 total_count_ := (total_count_ h + 1) mod 2 ^ 64;
                 max_value_ := if max_value_ h <? latency then latency
                               else max_value_ h |}.
Proof.
  intros Hne Hs. unfold record. rewrite find_bucket_spec.
  destruct (last (buckets_ h)) as [back|] eqn:Hl;
    [|apply last_None in Hl; contradiction].
  exists back. split; [reflexivity|]. f_equal.
  pose proof (bucket_of_le latency (buckets_ h)) as Hle.
  assert (Hidx : (if ((if (bucket_of latency (buckets_ h) <? length (buckets_ h))%nat
                       then (0 + bucket_of latency (buckets_ h))%nat else 0%nat) =? 0)%nat
                      && (back <? latency)
                  then length (buckets_ h)
                  else if (bucket_of latency (buckets_ h) <? length (buckets_ h))%nat
                       then (0 + bucket_of latency (buckets_ h))%nat else 0%nat)
                 = bucket_of latency (buckets_ h)).
  { destruct (Nat.ltb_spec (bucket_of latency (buckets_ h)) (length (buckets_ h))) as [Hlt|Hge].
    - cbn [Nat.add].
      destruct (Nat.eqb_spec (bucket_of latency (buckets_ h)) 0) as [H0|]; [|reflexivity].
      cbn [andb]. destruct (buckets_ h) as [|b bs] eqn:Hb; [contradiction|].
      apply bucket_of_zero in H0. pose proof (sorted_head_le_last _ _ _ Hs Hl).
      destruct (Z.ltb_spec back latency); [lia|]. symmetry.
      destruct (Z.leb_spec latency b) as [|]; [|lia]. cbn [bucket_of].
      destruct (Z.leb_spec latency b); [reflexivity|lia].
    - assert (Hk : bucket_of latency (buckets_ h) = length (buckets_ h)) by lia.
      pose proof (bucket_of_overflow _ _ Hk) as Hall.
      rewrite List.Forall_forall in Hall.
      assert (back < latency) by (apply Hall, list_elem_of_In, last_Some_elem_of, Hl).
      cbn. destruct (Z.ltb_spec back latency); [lia|lia]. }
  rewrite Hidx. reflexivity.
Qed.

(** Property X16.  With bounds in ascending order, [record] counts a latency in
    the first bucket whose bound it does not exceed, and in the overflow
    bucket when it exceeds every bound: that count goes up by one and no
    other count changes. *)
Theorem record_picks_bucket (latency : Z) (h : LatencyHistogram) :
  buckets_ h <> [] -> StronglySorted Z.le (buckets_ h) ->
  length (counts_ h) = (length (buckets_ h) + 1)%nat ->
  let k := bucket_of latency (buckets_ h) in
  exists h' c,
    record latency h = Some h'
    /\ counts_ h !! k = Some c
    /\ counts_ h' !! k = Some ((c + 1) mod 2 ^ 64)
    /\ (forall j, j <> k -> counts_ h' !! j = counts_ h !! j)
    /\ ((k < length (buckets_ h))%nat -> Forall (fun b => b < latency) (take k (buckets_ h))
                                   /\ exists b, buckets_ h !! k = Some b /\ latency <= b)
    /\ (k = length (buckets_ h) -> Forall (fun b => b < latency) (buckets_ h)).
Proof.
  intros Hne Hs Hlen k.
  destruct (record_counts latency h Hne Hs) as (back & _ & Hrec).
  pose proof (bucket_of_le latency (buckets_ h)) as Hle. fold k in Hle, Hrec.
  destruct (lookup_lt_is_Some_2 (counts_ h) k) as [c Hc]; [lia|].
  rewrite Hc in Hrec.
  eexists _, c. split; [exact Hrec|]. cbn [counts_].
  split; [exact Hc|]. split; [|split; [|split]].
  - apply list_lookup_insert_eq. apply lookup_lt_Some in Hc. exact Hc.
  - intros j Hj. apply list_lookup_insert_ne. congruence.
  - subst k. clear. induction (buckets_ h) as [|b bs IH]; cbn [bucket_of length];
      [lia|].
    destruct (Z.leb_spec latency b) as [Hb|Hb]; intros Hk.
    + split; [constructor|]. exists b. split; [reflexivity|exact Hb].
    + destruct IH as [IH1 (b' & IH2 & IH3)]; [lia|].
      split; [cbn [take]; constructor; assumption|].
      exists b'. split; [exact IH2|exact IH3].
  - apply bucket_of_overflow.
Qed.

Lemma record_picks_bucket_witness :
  exists h' c,
    record 700000 (LatencyHistogram_new default_buckets_) = Some h'
    /\ counts_ (LatencyHistogram_new default_buckets_) !! 2%nat = Some c
    /\ counts_ h' !! 2%nat = Some ((c + 1) mod 2 ^ 64).
Proof.
  destruct (record_picks_bucket 700000 (LatencyHistogram_new default_buckets_))
    as (h' & c & H1 & H2 & H3 & _).
  - discriminate.
  - cbn. repeat (constructor; [|repeat (constructor; [lia|]); constructor]). constructor.
  - reflexivity.
  - exists h', c. auto.
Defined.

Lemma count_sum_cons x l : count_sum (x :: l) = x + count_sum l.
Proof. reflexivity. Qed.

Lemma count_sum_insert counts : forall k c v,
  counts !! k = Some c -> count_sum (<[k := v]> counts) = count_sum counts - c + v.
Proof.
  induction counts as [|x counts IH]; intros k c v Hk; [discriminate|].
  destruct k as [|k]; cbn [lookup list_lookup] in Hk.
  - injection Hk as ->. change (<[0%nat := v]> (c :: counts)) with (v :: counts).
    rewrite !count_sum_cons. lia.
  - change (<[S k := v]> (x :: counts)) with (x :: <[k := v]> counts).
    rewrite !count_sum_cons, (IH k c v Hk). lia.
Qed.

Lemma count_sum_nonneg counts : Forall (fun x => 0 <= x) counts -> 0 <= count_sum counts.
Proof.
  induction 1 as [|x l Hx Hl IH]; [unfold count_sum; cbn; lia|].
  rewrite count_sum_cons. lia.
Qed.

Lemma count_le_sum counts : forall k c,
  Forall (fun x => 0 <= x) counts -> counts !! k = Some c -> 0 <= c <= count_sum counts.
Proof.
  induction counts as [|x counts IH]; intros k c Hall Hk; [discriminate|].
  apply Forall_cons_1 in Hall. destruct Hall as [Hx Hall].
  pose proof (count_sum_nonneg _ Hall) as H0. rewrite count_sum_cons.
  destruct k as [|k]; cbn [lookup list_lookup] in Hk.
  - injection Hk as ->. lia.
  - specialize (IH k c Hall Hk). lia.
Qed.

Lemma count_sum_repeat n : count_sum (repeat 0 n) = 0.
Proof.
  induction n as [|n IH]; [reflexivity|]. cbn [repeat]. rewrite count_sum_cons, IH.
  reflexivity.
Qed.

Lemma record_inv bs n latency h :
  bs <> [] -> 0 <= n -> n + 1 < 2 ^ 64 -> hist_inv bs n h ->
  exists h', record latency h = Some h' /\ hist_inv bs (n + 1) h'
             /\ max_value_ h' = Z.max (max_value_ h) latency.
Proof.
  intros Hne Hn Hb [Hbs Hlen Hnn Hsum Htot]. unfold record.
  rewrite find_bucket_spec, Hbs.
  destruct (last bs) as [back|] eqn:Hl; [|apply last_None in Hl; contradiction].
  pose proof (bucket_of_le latency bs) as Hle.
  set (idx := if _ && _ then _ else _).
  assert (Hidx : (idx <= length bs)%nat).
  { subst idx. destruct (_ && _); [lia|]. destruct (_ <? _)%nat; lia. }
  destruct (lookup_lt_is_Some_2 (counts_ h) idx) as [c Hc]; [lia|].
  rewrite Hc. eexists. split; [reflexivity|].
  pose proof (count_le_sum _ _ _ Hnn Hc) as Hcs.
  assert (Hmod : (c + 1) mod 2 ^ 64 = c + 1) by (apply Z.mod_small; lia).
  split; [split; cbn [buckets_ counts_ total_count_]|cbn [max_value_]].
  - reflexivity.
  - rewrite length_insert. exact Hlen.
  - rewrite Hmod. apply Forall_insert; [exact Hnn|lia].
  - rewrite (count_sum_insert _ _ c _ Hc), Hmod. lia.
  - rewrite Htot. apply Z.mod_small. lia.
  - destruct (Z.ltb_spec (max_value_ h) latency); lia.
Qed.

Lemma record_all_inv bs ls : forall n h,
  bs <> [] -> 0 <= n -> n + Z.of_nat (length ls) < 2 ^ 64 -> hist_inv bs n h ->
  exists h', record_all ls h = Some h' /\ hist_inv bs (n + Z.of_nat (length ls)) h'
             /\ max_value_ h' = fold_left Z.max ls (max_value_ h).
Proof.
  induction ls as [|l ls IH]; intros n h Hne Hn Hb Hinv;
    cbn [record_all length fold_left] in Hb |- *.
  - exists h. rewrite Z.add_0_r. auto.
  - destruct (record_inv bs n l h Hne Hn) as (h1 & -> & Hinv1 & Hmax1); [lia|exact Hinv|].
    destruct (IH (n + 1) h1 Hne) as (h' & Hrec & Hinv' & Hmax'); [lia|lia|exact Hinv1|].
    exists h'. split; [exact Hrec|]. split.
    + replace (n + Z.of_nat (S (length ls))) with (n + 1 + Z.of_nat (length ls)) by lia.
      exact Hinv'.
    + rewrite Hmax', Hmax1. reflexivity.
Qed.

(** Property X17.  The histogram loses no sample.  After any run of [record]
    calls (fewer than 2^64) on a new histogram with at least one bound,
    whatever the order of the bounds: [total_count_] is the number of
    calls, the counts of all buckets add up to it, and [max_value_] is
    the largest latency recorded (0 when there is none). *)
Theorem histogram_totals (bs ls : list Z) :
  bs <> [] -> Z.of_nat (length ls) < 2 ^ 64 ->
  exists h,
    record_all ls (LatencyHistogram_new bs) = Some h
    /\ total_count_ h = Z.of_nat (length ls)
    /\ count_sum (counts_ h) = Z.of_nat (length ls)
    /\ length (counts_ h) = (length bs + 1)%nat
    /\ max_value_ h = fold_right Z.max 0 ls.
Proof.
  intros Hne Hb.
  destruct (record_all_inv bs ls 0 (LatencyHistogram_new bs) Hne) as (h & Hrec & Hinv & Hmax);
    [lia|lia| |].
  - split; cbn [LatencyHistogram_new buckets_ counts_ total_count_]; try reflexivity.
    + apply repeat_length.
    + apply Forall_forall. intros x Hx. apply list_elem_of_In, repeat_spec in Hx. lia.
    + apply count_sum_repeat.
  - exists h. split; [exact Hrec|]. destruct Hinv as [_ Hlen _ Hsum Htot].
    rewrite Z.add_0_l in Hsum, Htot. repeat split; try assumption.
    rewrite Hmax. cbn [LatencyHistogram_new max_value_].
    apply fold_symmetric; intros; lia.
Qed.

Lemma histogram_totals_witness :
  exists h,
    record_all [700000; 60000000; 5] (LatencyHistogram_new default_buckets_) = Some h
    /\ total_count_ h = 3 /\ count_sum (counts_ h) = 3.
Proof.
  destruct (histogram_totals default_buckets_ [700000; 60000000; 5])
    as (h & H1 & H2 & H3 & _); [discriminate|cbn; lia|].
  exists h. auto.
Defined.

End MetricsFacts.

(** ** Publisher: what a connection keeps through every operation *)
Module PublisherInvariants.
Import Wire Metrics Publisher PublisherFacts.

Section WithRegex.
Context {std_regex : StdRegex}.

Lemma send_frame_keeps topic frame c m :
  let c' := fst (send_frame topic frame (c, m)) in
  auth_token_ c' = auth_token_ c /\ authenticated_ c' = authenticated_ c
  /\ subscriptions_ c' = subscriptions_ c.
Proof.
  pose proof (send_frame_queue topic frame c m) as H.
  destruct (send_frame topic frame (c, m)) as [c' m']. cbn [fst]. tauto.
Qed.

Lemma stop_keeps c m :
  let c' := fst (stop (c, m)) in
  auth_token_ c' = auth_token_ c /\ authenticated_ c' = authenticated_ c
  /\ subscriptions_ c' = subscriptions_ c.
Proof. unfold stop. destruct (running_ c); cbn; auto. Qed.

Lemma start_keeps c m :
  let c' := fst (start (c, m)) in
  auth_token_ c' = auth_token_ c /\ authenticated_ c' = authenticated_ c
  /\ subscriptions_ c' = subscriptions_ c
  /\ send_queue_ c' = send_queue_ c /\ socket_written_ c' = socket_written_ c.
Proof. unfold start. destruct (running_ c); cbn; auto 6. Qed.

Lemma write_batch_keeps c m :
  let c' := fst (write_batch (c, m)) in
  auth_token_ c' = auth_token_ c /\ authenticated_ c' = authenticated_ c
  /\ subscriptions_ c' = subscriptions_ c
  /\ exists batch, socket_written_ c' = socket_written_ c ++ batch
                   /\ send_queue_ c = batch ++ send_queue_ c'
                   /\ (length batch <= 100)%nat.
Proof.
  unfold write_batch. destruct (running_ c); cbn [negb].
  - destruct (firstn 100 (send_queue_ c)) as [|q batch] eqn:Hb.
    + cbn [fst]. repeat split. exists []. rewrite app_nil_r. cbn. split; [auto|split; [auto|lia]].
    + cbn [fst auth_token_ authenticated_ subscriptions_ socket_written_ send_queue_].
      repeat split. exists (q :: batch). rewrite <- Hb, firstn_skipn.
      split; [reflexivity|]. split; [reflexivity|]. apply firstn_le_length.
  - cbn [fst]. repeat split. exists []. rewrite app_nil_r. cbn. split; [auto|split; [auto|lia]].
Qed.

Lemma add_subscriptions_app topics ll : forall subs,
  exists extra, fst (add_subscriptions topics ll subs) = subs ++ extra.
Proof.
  induction topics as [|t topics IH]; intros subs; cbn [add_subscriptions].
  - exists []. rewrite app_nil_r. reflexivity.
  - destruct (TopicSubscription_new t ll) as [sub|].
    + destruct (IH (subs ++ [sub])) as [extra ->]. exists (sub :: extra).
      rewrite <- app_assoc. reflexivity.
    + exists []. rewrite app_nil_r. reflexivity.
Qed.

(** What a control message can do to the token, the authentication flag
    and the subscriptions. *)
Lemma process_control_message_keeps message c m :
  let c' := fst (state_of (process_control_message message (c, m))) in
  auth_token_ c' = auth_token_ c
  /\ (authenticated_ c' = authenticated_ c
      \/ authenticated_ c' = true
         /\ exists json, message = Object json
              /\ value (j_op json) EmptyString = Some "auth"%string
              /\ value (j_token json) EmptyString = Some (auth_token_ c))
  /\ exists extra, subscriptions_ c' = subscriptions_ c ++ extra
                   /\ (extra <> [] -> authenticated_ c = true).
Proof.
  assert (Hack : forall code,
    let c' := fst (send_control_ack code (c, m)) in
    auth_token_ c' = auth_token_ c
    /\ (authenticated_ c' = authenticated_ c
        \/ authenticated_ c' = true
           /\ exists json, message = Object json
                /\ value (j_op json) EmptyString = Some "auth"%string
                /\ value (j_token json) EmptyString = Some (auth_token_ c))
    /\ exists extra, subscriptions_ c' = subscriptions_ c ++ extra
                     /\ (extra <> [] -> authenticated_ c = true)).
  { intros code. destruct (send_frame_keeps "control"
      (Frame_of (BodyAck {| ack_code := code; reserved := 0 |}) 0) c m) as (H1 & H2 & H3).
    unfold send_control_ack. cbv zeta. split; [exact H1|]. split; [left; exact H2|].
    exists []. rewrite app_nil_r. split; [exact H3|]. intros []; reflexivity. }
  assert (Hsub : forall code extra, authenticated_ c = true ->
    let c' := fst (send_control_ack code
                     (set_subscriptions (subscriptions_ c ++ extra) c, m)) in
    auth_token_ c' = auth_token_ c
    /\ (authenticated_ c' = authenticated_ c
        \/ authenticated_ c' = true
           /\ exists json, message = Object json
                /\ value (j_op json) EmptyString = Some "auth"%string
                /\ value (j_token json) EmptyString = Some (auth_token_ c))
    /\ exists extra0, subscriptions_ c' = subscriptions_ c ++ extra0
                      /\ (extra0 <> [] -> authenticated_ c = true)).
  { intros code extra Ha. destruct (send_frame_keeps "control"
      (Frame_of (BodyAck {| ack_code := code; reserved := 0 |}) 0)
      (set_subscriptions (subscriptions_ c ++ extra) c) m) as (H1 & H2 & H3).
    unfold send_control_ack. cbv zeta. split; [exact H1|].
    split; [left; exact H2|]. exists extra. split; [exact H3|]. intros _. exact Ha. }
  unfold process_control_message.
  destruct message as [| |json]; cbn [state_of]; try apply Hack.
  destruct (value (j_op json) EmptyString) as [op|] eqn:Hop; cbn [state_of];
    [|apply Hack].
  destruct (String.eqb_spec op "auth") as [->|Hnauth].
  { destruct (value (j_token json) EmptyString) as [token|] eqn:Htok; cbn [state_of];
      [|apply Hack].
    destruct (String.eqb_spec token (auth_token_ c)) as [->|Hwrong]; cbn [state_of].
    - destruct (send_frame_keeps "control"
        (Frame_of (BodyAck {| ack_code := 200; reserved := 0 |}) 0)
        (set_authenticated true c) m) as (H1 & H2 & H3).
      unfold send_control_ack. cbv zeta. split; [exact H1|].
      split; [right; split; [exact H2|exists json; auto]|].
      exists []. rewrite app_nil_r. split; [exact H3|]. intros []; reflexivity.
    - destruct (Hack 401) as (H1 & H2 & H3). cbv zeta in *.
      destruct (send_control_ack 401 (c, m)) as [c1 m1]. cbn [fst state_of] in *.
      destruct (stop_keeps c1 (increment_counter "publisher_auth_failures_total" 1 m1))
        as (K1 & K2 & K3).
      rewrite K1, K2, K3. auto. }
  destruct (String.eqb op "subscribe").
  { destruct (authenticated_ c) eqn:Ha; cbn [negb state_of]; [|apply Hack].
    destruct (value (j_topics json) []) as [topics|]; cbn [state_of]; [|apply Hack].
    destruct (value (j_lossless json) false) as [ll|]; cbn [state_of]; [|apply Hack].
    destruct (add_subscriptions_app topics ll (subscriptions_ c)) as [extra Hextra].
    destruct (add_subscriptions topics ll (subscriptions_ c)) as [subs ok].
    cbn [fst] in Hextra. subst subs.
    destruct ok; cbn [state_of].
    - destruct (send_control_ack_call_cases true 200
                  (set_subscriptions (subscriptions_ c ++ extra) c) m)
        as [Hret|(_ & _ & _ & _ & Hblk)].
      + rewrite Hret. specialize (Hsub 200 extra eq_refl). cbv zeta in Hsub.
        destruct (send_control_ack 200 _) as [c1 m1]. exact Hsub.
      + rewrite Hblk. cbn [state_of fst set_subscriptions auth_token_ authenticated_
                           subscriptions_].
        split; [reflexivity|]. split; [left; exact Ha|].
        exists extra. split; [reflexivity|]. intros _. reflexivity.
    - apply (Hsub 400 extra eq_refl). }
  destruct (String.eqb op "unsubscribe"); cbn [state_of]; apply Hack.
Qed.

(** One operation on a connection. *)
Lemma client_step_keeps st op :
  let c := fst st in
  let c' := fst (client_step st op) in
  auth_token_ c' = auth_token_ c
  /\ (authenticated_ c' = authenticated_ c
      \/ authenticated_ c' = true
         /\ exists json, op = OpControl (Object json)
              /\ value (j_op json) EmptyString = Some "auth"%string
              /\ value (j_token json) EmptyString = Some (auth_token_ c))
  /\ exists extra, subscriptions_ c' = subscriptions_ c ++ extra
                   /\ (extra <> [] -> authenticated_ c = true).
Proof.
  destruct st as [c m]. cbn [fst].
  assert (Hsame : forall c', auth_token_ c' = auth_token_ c /\
                             authenticated_ c' = authenticated_ c /\
                             subscriptions_ c' = subscriptions_ c ->
    auth_token_ c' = auth_token_ c
    /\ (authenticated_ c' = authenticated_ c
        \/ authenticated_ c' = true
           /\ exists json, op = OpControl (Object json)
                /\ value (j_op json) EmptyString = Some "auth"%string
                /\ value (j_token json) EmptyString = Some (auth_token_ c))
    /\ exists extra, subscriptions_ c' = subscriptions_ c ++ extra
                     /\ (extra <> [] -> authenticated_ c = true)).
  { intros c' (H1 & H2 & H3). split; [exact H1|]. split; [left; exact H2|].
    exists []. rewrite app_nil_r. split; [exact H3|]. intros []; reflexivity. }
  destruct op as [topic frame|now|message| | |]; cbn [client_step].
  - apply Hsame, send_frame_keeps.
  - apply Hsame. unfold send_heartbeat. apply send_frame_keeps.
  - destruct (process_control_message_keeps message c m) as (H1 & H2 & H3).
    split; [exact H1|]. split; [|exact H3].
    destruct H2 as [H2|(H2 & json & -> & Hop & Htok)]; [left; exact H2|].
    right. split; [exact H2|]. exists json. auto.
  - apply Hsame. destruct (write_batch_keeps c m) as (H1 & H2 & H3 & _). auto.
  - apply Hsame. destruct (start_keeps c m) as (H1 & H2 & H3 & _). auto.
  - apply Hsame, stop_keeps.
Qed.

Lemma run_client_auth ops : forall st,
  let c := fst st in
  let c' := fst (fold_left client_step ops st) in
  auth_token_ c' = auth_token_ c
  /\ (authenticated_ c = true -> authenticated_ c' = true)
  /\ (authenticated_ c = false -> authenticated_ c' = true ->
      exists json, In (OpControl (Object json)) ops
        /\ value (j_op json) EmptyString = Some "auth"%string
        /\ value (j_token json) EmptyString = Some (auth_token_ c)).
Proof.
  induction ops as [|op ops IH]; intros st; cbn [fold_left].
  - split; [reflexivity|]. split; [auto|]. intros H1 H2. congruence.
  - destruct (IH (client_step st op)) as (I1 & I2 & I3).
    destruct (client_step_keeps st op) as (S1 & S2 & _). cbv zeta in *.
    split; [congruence|]. split.
    + intros Ha. apply I2. destruct S2 as [S2|[S2 _]]; congruence.
    + intros Ha Ha'.
      destruct (authenticated_ (fst (client_step st op))) eqn:Hmid.
      * destruct S2 as [S2|(_ & json & -> & Hop & Htok)]; [congruence|].
        exists json. split; [left; reflexivity|auto].
      * destruct (I3 eq_refl Ha') as (json & Hin & Hop & Htok).
        exists json. split; [right; exact Hin|]. split; [exact Hop|]. congruence.
Qed.

(** Property X18.  Authentication comes from the token and is never undone.
    Through any run of operations on a connection: a connection that is
    authenticated stays so (also after a later failed [auth] and after
    [stop]); and a connection that was not authenticated and now is has
    received an [auth] message whose token is the configured one. *)
Theorem authentication_only_by_token (ops : list ClientOp) (st : ClientState) :
  let c := fst st in
  let c' := fst (fold_left client_step ops st) in
  auth_token_ c' = auth_token_ c
  /\ (authenticated_ c = true -> authenticated_ c' = true)
  /\ (authenticated_ c = false -> authenticated_ c' = true ->
      exists json, In (OpControl (Object json)) ops
        /\ value (j_op json) EmptyString = Some "auth"%string
        /\ value (j_token json) EmptyString = Some (auth_token_ c)).
Proof. apply run_client_auth. Qed.

(** Property X19.  Subscriptions are only ever added.  Through any run of
    operations ([unsubscribe] messages included) the subscription list
    of a connection keeps every entry it had, in order, new ones being
    appended; and a connection that ends the run unauthenticated has
    gained none. *)
Theorem subscriptions_only_grow (ops : list ClientOp) (st : ClientState) :
  let c := fst st in
  let c' := fst (fold_left client_step ops st) in
  exists extra, subscriptions_ c' = subscriptions_ c ++ extra
                /\ (authenticated_ c' = false -> extra = []).
Proof.
  revert st. induction ops as [|op ops IH]; intros st; cbn [fold_left].
  - exists []. rewrite app_nil_r. auto.
  - destruct (IH (client_step st op)) as (extra2 & I1 & I2).
    destruct (client_step_keeps st op) as (_ & S2 & extra1 & S3 & S4).
    pose proof (run_client_auth ops (client_step st op)) as (_ & A2 & _).
    cbv zeta in *. exists (extra1 ++ extra2).
    rewrite I1, S3, <- app_assoc. split; [reflexivity|].
    intros Hfin. rewrite (I2 Hfin), app_nil_r.
    destruct extra1 as [|x extra1]; [reflexivity|].
    assert (Ha : authenticated_ (fst st) = true) by (apply S4; discriminate).
    assert (Hmid : authenticated_ (fst (client_step st op)) = true)
      by (destruct S2 as [S2|[S2 _]]; congruence).
    rewrite (A2 Hmid) in Hfin. discriminate.
Qed.

(** *** What a full queue drops *)






(** *** The server and its client list *)












End WithRegex.

(** *** Concrete runs *)

#[local] Existing Instance fragment_only.

Lemma authentication_only_by_token_witness :
  exists json, In (OpControl (Object json))
                  [OpControl (msg_op "unsubscribe"); OpControl (msg_auth "secret")]
    /\ value (j_op json) EmptyString = Some "auth"%string
    /\ value (j_token json) EmptyString = Some "secret"%string.
Proof.
  apply (authentication_only_by_token
           [OpControl (msg_op "unsubscribe"); OpControl (msg_auth "secret")]
           (unauth_client, ∅)); reflexivity.
Defined.


End PublisherInvariants.

(** ** Recorder: the content of the segment files *)
Module RecorderContent.
Import Wire Recorder WireFacts RecorderFacts.

Lemma overwrite_header h' h rest :
  overwrite 0 (bytes_of_MdfHeader h') (bytes_of_MdfHeader h ++ rest)
  = bytes_of_MdfHeader h' ++ rest.
Proof.
  unfold overwrite. cbn [firstn app Nat.add].
  rewrite !length_bytes_of_MdfHeader, skipn_app, length_bytes_of_MdfHeader.
  rewrite skipn_all2 by (rewrite length_bytes_of_MdfHeader; lia).
  rewrite Nat.sub_diag. reflexivity.
Qed.

(** The header [update_mdf_header] writes. *)
Lemma update_mdf_header_content now r h rest :
  mdf_file_ r = Some (bytes_of_MdfHeader h ++ rest) ->
  update_mdf_header now r
  = {| roll_bytes_ := roll_bytes_ r; index_interval_ := index_interval_ r;
       mdf_file_ :=
         Some (bytes_of_MdfHeader
                 {| mdf_magic := MDF_MAGIC; mdf_version := 1; mdf_reserved := 0;
                    start_ts_ns := current_file_start_ts_ r;
                    end_ts_ns := now mod 2 ^ 64; symbol_count := 0;
                    frame_count := current_frame_count_ r |} ++ rest);
       idx_file_ := idx_file_ r;
       current_file_start_ts_ := current_file_start_ts_ r;
       current_file_bytes_ := current_file_bytes_ r;
       current_frame_count_ := current_frame_count_ r;
       frames_since_last_index_ := frames_since_last_index_ r;
       needs_fsync_ := needs_fsync_ r;
       frames_written := frames_written r; bytes_written := bytes_written r;
       files_rolled := files_rolled r;
       current_mdf_path_ := current_mdf_path_ r;
       closed_segments := closed_segments r;
       closed_mdf_ := closed_mdf_ r; closed_idx_ := closed_idx_ r |}.
Proof.
  intros H. unfold update_mdf_header. rewrite H, overwrite_header. reflexivity.
Qed.

Lemma encode_all_snoc frames f : encode_all (frames ++ [f]) = encode_all frames ++ encode_frame f.
Proof. unfold encode_all. rewrite flat_map_app. cbn. rewrite app_nil_r. reflexivity. Qed.

Lemma open_new_files_open r0 ts : open_segment r0 ts [] (open_new_files true true ts r0).
Proof.
  unfold open_new_files. cbn [negb orb].
  split; cbn [mdf_file_ idx_file_ current_frame_count_ current_file_start_ts_
              closed_segments roll_bytes_ current_mdf_path_ closed_mdf_ closed_idx_
              length List.map]; try reflexivity.
  - eexists. unfold encode_all. cbn [flat_map]. rewrite app_nil_r. reflexivity.
  - eauto.
Qed.

Lemma write_frame_open r0 ts pre r now f :
  open_segment r0 ts pre r ->
  open_segment r0 ts (pre ++ [(now, f)]) (write_frame now f r).
Proof.
  intros [[h Hm] [entries Hi] Hc Hs Hcl Hr Hp Hdm Hdi].
  unfold write_frame. rewrite Hm. cbv zeta.
  set (r1 := {| roll_bytes_ := roll_bytes_ r; index_interval_ := index_interval_ r;
                mdf_file_ := Some ((bytes_of_MdfHeader h ++ encode_all (List.map snd pre))
                                   ++ encode_frame f) |}).
  set (r2 := if index_interval_ r1 <=? frames_since_last_index_ r1 then _ else r1).
  assert (H2 : mdf_file_ r2 = mdf_file_ r1 /\ is_Some (idx_file_ r2)
               /\ current_frame_count_ r2 = current_frame_count_ r1
               /\ current_file_start_ts_ r2 = current_file_start_ts_ r
               /\ closed_segments r2 = closed_segments r
               /\ roll_bytes_ r2 = roll_bytes_ r
               /\ current_mdf_path_ r2 = current_mdf_path_ r
               /\ closed_mdf_ r2 = closed_mdf_ r
               /\ closed_idx_ r2 = closed_idx_ r).
  { subst r2. destruct (index_interval_ r1 <=? frames_since_last_index_ r1).
    - unfold write_index_entry. subst r1. cbn [idx_file_]. rewrite Hi. cbn. eauto 12.
    - subst r1. cbn. rewrite Hi. eauto 12. }
  destruct H2 as (M2 & I2 & C2 & S2 & L2 & R2 & P2 & D2 & E2).
  assert (Hcount : current_frame_count_ r1 = Z.of_nat (length (pre ++ [(now, f)])) mod 2 ^ 32).
  { subst r1. cbn [current_frame_count_]. rewrite Hc, length_app. cbn [length].
    rewrite Zplus_mod_idemp_l. f_equal. lia. }
  assert (Hm2 : mdf_file_ r2
                = Some (bytes_of_MdfHeader h ++ encode_all (List.map snd (pre ++ [(now, f)])))).
  { rewrite M2. subst r1. cbn [mdf_file_]. rewrite List.map_app. cbn [List.map snd].
    rewrite encode_all_snoc, app_assoc.
    reflexivity. }
  destruct (current_frame_count_ r2 mod 1000 =? 0).
  - rewrite (update_mdf_header_content now r2 _ _ Hm2).
    split; cbn [mdf_file_ idx_file_ current_frame_count_ current_file_start_ts_
                closed_segments roll_bytes_ current_mdf_path_ closed_mdf_ closed_idx_];
      try congruence; eauto.
  - split; try congruence; eauto.
Qed.

Lemma write_frames_open r0 ts frames :
  open_segment r0 ts frames (write_frames frames (open_new_files true true ts r0)).
Proof.
  induction frames as [|[now f] frames IH] using rev_ind.
  - apply open_new_files_open.
  - rewrite write_frames_snoc. apply write_frame_open, IH.
Qed.

(** Inserting a file under a path forgets the file deleted there. *)
Lemma store_closed_delete {A : Type} (content : A) (p : Z) (dir : gmap Z A) :
  store_closed (Some content) (Some p) (delete p dir) = <[p := content]> dir.
Proof. unfold store_closed. apply insert_delete_eq. Qed.

Lemma close_after_write r0 ts now frames :
  let r := close_current_files now (write_frames frames (open_new_files true true ts r0)) in
  mdf_file_ r = None /\ idx_file_ r = None
  /\ exists entries,
       idx_file_ (write_frames frames (open_new_files true true ts r0)) = Some entries
       /\ closed_segments r
          = closed_segments r0
            ++ [(bytes_of_MdfHeader
                   {| mdf_magic := MDF_MAGIC; mdf_version := 1; mdf_reserved := 0;
                      start_ts_ns := ts; end_ts_ns := now mod 2 ^ 64; symbol_count := 0;
                      frame_count := Z.of_nat (length frames) mod 2 ^ 32 |}
                 ++ encode_all (List.map snd frames), entries)]
       /\ closed_mdf_ r
          = <[generate_filename ts :=
                bytes_of_MdfHeader
                  {| mdf_magic := MDF_MAGIC; mdf_version := 1; mdf_reserved := 0;
                     start_ts_ns := ts; end_ts_ns := now mod 2 ^ 64; symbol_count := 0;
                     frame_count := Z.of_nat (length frames) mod 2 ^ 32 |}
                ++ encode_all (List.map snd frames)]> (closed_mdf_ r0)
       /\ closed_idx_ r = <[generate_filename ts := entries]> (closed_idx_ r0).
Proof.
  intros r. subst r.
  destruct (write_frames_open r0 ts frames) as [[h Hm] [entries Hi] Hc Hs Hcl Hr Hp Hdm Hdi].
  unfold close_current_files.
  rewrite (update_mdf_header_content now _ _ _ Hm).
  cbn [mdf_file_ idx_file_ closed_segments closed_mdf_ closed_idx_ current_mdf_path_].
  split; [reflexivity|]. split; [reflexivity|].
  exists entries. split; [exact Hi|].
  rewrite Hi, Hc, Hs, Hcl, Hp, Hdm, Hdi, !store_closed_delete. auto.
Qed.

(** Property X22.  What a closed segment file holds.  Open a segment at [ts],
    append any frames, close it at clock reading [now]: the closed file
    is the 32-byte header, with [start_ts_ns = ts], [end_ts_ns = now]
    and [frame_count] the number of frames appended (modulo 2^32),
    followed by the encodings of the frames in the order they were
    written, and nothing else; the recorder has no open file left.  In
    the data directory that file and its index are the files of the
    path made from [ts], replacing whatever files had that path. *)
Theorem closed_segment_content (r0 : Recorder) (ts now : Z) (frames : list (Z * Frame)) :
  let r := close_current_files now (write_frames frames (open_new_files true true ts r0)) in
  mdf_file_ r = None /\ idx_file_ r = None
  /\ exists entries,
       idx_file_ (write_frames frames (open_new_files true true ts r0)) = Some entries
       /\ closed_segments r
          = closed_segments r0
            ++ [(bytes_of_MdfHeader
                   {| mdf_magic := MDF_MAGIC; mdf_version := 1; mdf_reserved := 0;
                      start_ts_ns := ts; end_ts_ns := now mod 2 ^ 64; symbol_count := 0;
                      frame_count := Z.of_nat (length frames) mod 2 ^ 32 |}
                 ++ encode_all (List.map snd frames), entries)]
       /\ closed_mdf_ r
          = <[generate_filename ts :=
                bytes_of_MdfHeader
                  {| mdf_magic := MDF_MAGIC; mdf_version := 1; mdf_reserved := 0;
                     start_ts_ns := ts; end_ts_ns := now mod 2 ^ 64; symbol_count := 0;
                     frame_count := Z.of_nat (length frames) mod 2 ^ 32 |}
                ++ encode_all (List.map snd frames)]> (closed_mdf_ r0)
       /\ closed_idx_ r = <[generate_filename ts := entries]> (closed_idx_ r0).
Proof. apply close_after_write. Qed.

(** *** Index entries *)

Lemma marks_snoc frames x e : marks frames e -> marks (frames ++ [x]) e.
Proof.
  intros (pre & nf & post & -> & Ho & Ht). exists pre, nf, (post ++ [x]).
  rewrite <- app_assoc. auto.
Qed.

(** The entry a [write_frame] may add to the index. *)
Lemma write_frame_entries k pre r nf entries :
  0 <= k < 2 ^ 32 ->
  32 + encoded_size (pre ++ [nf]) < 2 ^ 64 ->
  seg_inv k pre r ->
  idx_file_ r = Some entries ->
  exists new,
    idx_file_ (write_frame (fst nf) (snd nf) r) = Some (entries ++ new)
    /\ (new = []
        \/ new = [{| ts_ns_first := frame_ts nf;
                     file_offset := 32 + encoded_size pre |}]).
Proof.
  intros Hk Hfit [Hki (content & Hc & Hlen) _ Hb Hs] He.
  rewrite encoded_size_app, encoded_size_single in Hfit.
  pose proof (encoded_size_nonneg pre) as Hnn.
  set (size := Z.of_nat (length (encode_frame (snd nf)))) in *.
  unfold write_frame. rewrite Hc.
  match goal with
  | |- exists new, idx_file_ (if _ then update_mdf_header _ ?r2 else ?r2) = _ /\ _ =>
      assert (H2 : exists new, idx_file_ r2 = Some (entries ++ new)
                     /\ (new = [] \/ new = [{| ts_ns_first := frame_ts nf;
                                               file_offset := 32 + encoded_size pre |}])
                     /\ is_Some (mdf_file_ r2))
  end.
  { cbn [index_interval_ frames_since_last_index_ current_file_bytes_].
    fold size. rewrite Hb.
    rewrite (Z.mod_small (32 + encoded_size pre + size) (2 ^ 64)) by lia.
    replace (32 + encoded_size pre + size - size) with (32 + encoded_size pre) by lia.
    rewrite (Z.mod_small (32 + encoded_size pre) (2 ^ 64)) by lia.
    destruct (_ <=? _).
    - unfold write_index_entry. cbn [idx_file_]. rewrite He. cbn.
      eexists. split; [reflexivity|]. split; [right; reflexivity|eauto].
    - cbn. exists []. rewrite app_nil_r. split; [exact He|]. split; [left; reflexivity|eauto]. }
  destruct H2 as (new & Hi & Hnew & [c2 Hm2]).
  exists new. split; [|exact Hnew].
  destruct (_ =? 0); [|exact Hi].
  unfold update_mdf_header. rewrite Hm2. cbn [idx_file_]. exact Hi.
Qed.

Lemma encoded_size_fits pre post :
  32 + encoded_size (pre ++ post) < 2 ^ 64 -> 32 + encoded_size pre < 2 ^ 64.
Proof.
  rewrite encoded_size_app. pose proof (encoded_size_nonneg post). lia.
Qed.

Lemma write_frames_marks r0 ts frames :
  0 <= index_interval_ r0 < 2 ^ 32 ->
  32 + encoded_size frames < 2 ^ 64 ->
  exists entries,
    idx_file_ (write_frames frames (open_new_files true true ts r0)) = Some entries
    /\ Forall (marks frames) entries.
Proof.
  intros Hk. induction frames as [|nf pre IH] using rev_ind; intros Hfit.
  - exists []. split; [reflexivity|constructor].
  - destruct IH as (entries & He & Hall); [eapply encoded_size_fits, Hfit|].
    rewrite write_frames_snoc.
    destruct (write_frame_entries (index_interval_ r0) pre
                (write_frames pre (open_new_files true true ts r0)) nf entries Hk Hfit)
      as (new & Hi & Hnew).
    + apply write_frames_inv; [exact Hk|reflexivity|eapply encoded_size_fits, Hfit].
    + exact He.
    + exists (entries ++ new). split; [exact Hi|].
      apply Forall_app. split.
      * eapply List.Forall_impl; [|exact Hall]. intros e. apply marks_snoc.
      * destruct Hnew as [->| ->]; [constructor|].
        constructor; [|constructor]. exists pre, nf, []. auto.
Qed.

Lemma length_encode_all frames :
  Z.of_nat (length (encode_all (List.map snd frames))) = encoded_size frames.
Proof.
  induction frames as [|nf frames IH]; [reflexivity|].
  unfold encode_all in *. cbn [List.map flat_map encoded_size fold_right].
  rewrite length_app, Nat2Z.inj_add, IH. reflexivity.
Qed.

(** Property X23.  Every index entry points at a frame.  After any frames were
    appended to a freshly opened segment (total size below 2^64), each
    entry of the index file carries the timestamp of one of the frames
    and the offset at which that very frame starts in the data file:
    the bytes found at that offset are the encoding of the frame. *)
Theorem index_entries_point_at_frames (r0 : Recorder) (ts : Z) (frames : list (Z * Frame)) :
  0 <= index_interval_ r0 < 2 ^ 32 ->
  32 + encoded_size frames < 2 ^ 64 ->
  let r := write_frames frames (open_new_files true true ts r0) in
  exists content entries,
    mdf_file_ r = Some content /\ idx_file_ r = Some entries
    /\ Forall (fun e =>
         exists pre nf post rest,
           frames = pre ++ nf :: post
           /\ ts_ns_first e = body_ts_ns (body (snd nf))
           /\ file_offset e = 32 + encoded_size pre
           /\ skipn (Z.to_nat (file_offset e)) content = encode_frame (snd nf) ++ rest)
         entries.
Proof.
  intros Hk Hfit r. subst r.
  destruct (write_frames_marks r0 ts frames Hk Hfit) as (entries & He & Hall).
  destruct (write_frames_open r0 ts frames) as [[h Hm] _ _ _ _ _].
  eexists _, entries. split; [exact Hm|]. split; [exact He|].
  eapply List.Forall_impl; [|exact Hall].
  intros e (pre & nf & post & -> & Ho & Ht).
  exists pre, nf, post, (encode_all (List.map snd post)).
  split; [reflexivity|]. split; [exact Ht|]. split; [exact Ho|].
  rewrite Ho, List.map_app. cbn [List.map].
  unfold encode_all. rewrite flat_map_app. cbn [flat_map]. fold (encode_all (List.map snd pre)).
  fold (encode_all (List.map snd post)).
  pose proof (length_encode_all pre) as Hlen.
  pose proof (encoded_size_nonneg pre) as Hnn.
  rewrite app_assoc, skipn_app.
  rewrite skipn_all2 by (rewrite length_app, length_bytes_of_MdfHeader; unfold sizeof_MdfHeader; lia).
  rewrite length_app, length_bytes_of_MdfHeader. unfold sizeof_MdfHeader.
  replace (Z.to_nat (32 + encoded_size pre) - (32 + length (encode_all (List.map snd pre))))%nat
    with 0%nat by lia.
  reflexivity.
Qed.

Lemma index_entries_point_at_frames_witness :
  exists content entries,
    mdf_file_ (write_frames unordered_run
                 (open_new_files true true 1 (Recorder_new 2147483648 2))) = Some content
    /\ idx_file_ (write_frames unordered_run
                 (open_new_files true true 1 (Recorder_new 2147483648 2))) = Some entries
    /\ Forall (fun e =>
         exists pre nf post rest,
           unordered_run = pre ++ nf :: post
           /\ ts_ns_first e = body_ts_ns (body (snd nf))
           /\ file_offset e = 32 + encoded_size pre
           /\ skipn (Z.to_nat (file_offset e)) content = encode_frame (snd nf) ++ rest)
         entries.
Proof.
  apply (index_entries_point_at_frames (Recorder_new 2147483648 2) 1 unordered_run).
  - cbn. lia.
  - vm_compute. reflexivity.
Defined.

(** *** Rolling *)

Lemma write_frame_fields now f r h body entries :
  mdf_file_ r = Some (bytes_of_MdfHeader h ++ body) ->
  idx_file_ r = Some entries ->
  exists h' entries',
    mdf_file_ (write_frame now f r)
    = Some (bytes_of_MdfHeader h' ++ body ++ encode_frame f)
    /\ idx_file_ (write_frame now f r) = Some entries'
    /\ current_file_bytes_ (write_frame now f r)
       = (current_file_bytes_ r + Z.of_nat (length (encode_frame f))) mod 2 ^ 64
    /\ closed_segments (write_frame now f r) = closed_segments r
    /\ files_rolled (write_frame now f r) = files_rolled r
    /\ roll_bytes_ (write_frame now f r) = roll_bytes_ r.
Proof.
  intros Hm Hi. unfold write_frame. rewrite Hm. cbv zeta.
  set (r1 := {| roll_bytes_ := roll_bytes_ r; index_interval_ := index_interval_ r;
                mdf_file_ := Some ((bytes_of_MdfHeader h ++ body) ++ encode_frame f) |}).
  set (r2 := if index_interval_ r1 <=? frames_since_last_index_ r1 then _ else r1).
  assert (H2 : mdf_file_ r2 = Some (bytes_of_MdfHeader h ++ body ++ encode_frame f)
               /\ (exists entries', idx_file_ r2 = Some entries')
               /\ current_file_bytes_ r2
                  = (current_file_bytes_ r + Z.of_nat (length (encode_frame f))) mod 2 ^ 64
               /\ closed_segments r2 = closed_segments r
               /\ files_rolled r2 = files_rolled r
               /\ roll_bytes_ r2 = roll_bytes_ r).
  { subst r2. destruct (index_interval_ r1 <=? frames_since_last_index_ r1).
    - unfold write_index_entry. subst r1. cbn [idx_file_]. rewrite Hi. cbn.
      rewrite <- app_assoc. eauto 10.
    - subst r1. cbn. rewrite Hi, <- app_assoc. eauto 10. }
  destruct H2 as (M2 & [entries' I2] & B2 & L2 & F2 & R2).
  destruct (current_frame_count_ r2 mod 1000 =? 0).
  - rewrite (update_mdf_header_content now r2 _ _ M2).
    cbn [mdf_file_ idx_file_ current_file_bytes_ closed_segments files_rolled roll_bytes_].
    eauto 10.
  - eauto 10.
Qed.

Lemma payload_header h body : payload (bytes_of_MdfHeader h ++ body) = body.
Proof.
  unfold payload. rewrite skipn_app, length_bytes_of_MdfHeader, Nat.sub_diag.
  rewrite skipn_all2 by (rewrite length_bytes_of_MdfHeader; lia). reflexivity.
Qed.

(** The roll decision keeps what is on disk and leaves a file open. *)
Lemma roll_file_if_needed_recording rb frames now ts r :
  recording rb frames r ->
  recording rb frames (roll_file_if_needed true true now ts r)
  /\ exists h body entries,
       mdf_file_ (roll_file_if_needed true true now ts r)
       = Some (bytes_of_MdfHeader h ++ body)
       /\ idx_file_ (roll_file_if_needed true true now ts r) = Some entries.
Proof.
  intros [Hrb Hopen Hbytes Hclosed Hrolled].
  unfold roll_file_if_needed.
  destruct Hopen as [[Hm Hi]|(h & body & entries & Hm & Hi & Hb)].
  - (* nothing open: the first segment *)
    rewrite Hm. unfold close_current_files, update_mdf_header. rewrite Hm.
    unfold open_new_files. cbn [negb orb].
    split; [split|]; cbn [roll_bytes_ mdf_file_ idx_file_ current_file_bytes_
                           closed_segments files_rolled]; rewrite ?Hm.
    + exact Hrb.
    + right. eexists _, [], []. rewrite app_nil_r. auto.
    + rewrite <- Hbytes. unfold recorded_bytes. cbn [mdf_file_ closed_segments default].
      rewrite Hm. reflexivity.
    + exact Hclosed.
    + rewrite Hrolled. unfold segment_files. cbn [mdf_file_ closed_segments].
      rewrite Hm, app_nil_r, length_app. cbn [length].
      rewrite Zplus_mod_idemp_l. f_equal. lia.
    + eexists _, [], []. rewrite app_nil_r. auto.
  - rewrite Hm, Hi.
    destruct (Z.leb_spec (roll_bytes_ r) (current_file_bytes_ r)) as [Hfull|Hroom].
    + (* the segment has reached [roll_bytes_] *)
      unfold close_current_files. rewrite (update_mdf_header_content now r _ _ Hm).
      cbn [mdf_file_ idx_file_ closed_segments roll_bytes_ index_interval_
           current_file_start_ts_ current_file_bytes_ current_frame_count_
           frames_since_last_index_ needs_fsync_ frames_written bytes_written
           files_rolled].
      rewrite Hi. cbn [default].
      unfold open_new_files. cbn [negb orb].
      split; [split|]; cbn [roll_bytes_ mdf_file_ idx_file_ current_file_bytes_
                             closed_segments files_rolled].
      * exact Hrb.
      * right. eexists _, [], []. rewrite app_nil_r. auto.
      * rewrite <- Hbytes. unfold recorded_bytes.
        cbn [mdf_file_ closed_segments default]. rewrite Hm. cbn [default].
        rewrite flat_map_app. cbn [flat_map fst]. unfold id.
        rewrite !payload_header, ?app_nil_r. reflexivity.
      * apply Forall_app. split; [exact Hclosed|]. constructor; [|constructor].
        cbn [fst]. rewrite length_app, length_bytes_of_MdfHeader. unfold sizeof_MdfHeader.
        split; [lia|]. rewrite Nat2Z.inj_add. change (Z.of_nat 32) with 32. lia.
      * rewrite Hrolled. unfold segment_files. cbn [mdf_file_ closed_segments].
        rewrite Hm, List.map_app, !length_app. cbn [length List.map].
        rewrite Zplus_mod_idemp_l. f_equal. lia.
      * eexists _, [], []. rewrite app_nil_r. auto.
    + split; [split; auto|]. * right. eauto 10. * eauto.
Qed.

Lemma record_frame_recording rb frames n1 n2 f r :
  recording rb frames r ->
  recording rb (frames ++ [f]) (record_frame true true n1 n2 f r).
Proof.
  intros Hrec. unfold record_frame.
  destruct (roll_file_if_needed_recording rb frames n1 (body_ts_ns (body f)) r Hrec)
    as ([Hrb Hopen Hbytes Hclosed Hrolled] & h & data & entries & Hm & Hi).
  set (r1 := roll_file_if_needed true true n1 (body_ts_ns (body f)) r) in *.
  destruct (write_frame_fields n2 f r1 h data entries Hm Hi)
    as (h' & entries' & Hm' & Hi' & Hb' & Hcl' & Hf' & Hr').
  split.
  - congruence.
  - right. exists h', (data ++ encode_frame f), entries'.
    split; [exact Hm'|]. split; [exact Hi'|]. rewrite Hb'.
    destruct Hopen as [[Hm0 _]|(h0 & data0 & entries0 & Hm0 & _ & Hb0)]; [congruence|].
    assert (Heq : bytes_of_MdfHeader h ++ data = bytes_of_MdfHeader h0 ++ data0)
      by congruence.
    assert (Hlen : length data = length data0).
    { apply (f_equal (@length byte)) in Heq.
      rewrite !length_app, !length_bytes_of_MdfHeader in Heq. lia. }
    rewrite Hb0, <- Hlen, length_app, Zplus_mod_idemp_l. f_equal. lia.
  - rewrite encode_all_snoc, <- Hbytes. unfold recorded_bytes.
    rewrite Hcl', Hm', Hm. cbn [default]. unfold id.
    rewrite !payload_header, app_assoc. reflexivity.
  - rewrite Hcl'. exact Hclosed.
  - rewrite Hf', Hrolled. unfold segment_files. rewrite Hcl', Hm', Hm.
    rewrite !length_app. reflexivity.
Qed.

Lemma recording_new rb k : recording rb [] (Recorder_new rb k).
Proof. split; cbn; auto. Qed.

Lemma record_frames_snoc items it r :
  record_frames (items ++ [it]) r
  = record_frame true true (fst (fst it)) (snd (fst it)) (snd it) (record_frames items r).
Proof. unfold record_frames. rewrite fold_left_app. reflexivity. Qed.

Lemma record_frames_recording rb k items :
  recording rb (List.map snd items) (record_frames items (Recorder_new rb k)).
Proof.
  induction items as [|it items IH] using rev_ind.
  - apply recording_new.
  - rewrite record_frames_snoc, List.map_app. cbn [List.map].
    apply record_frame_recording, IH.
Qed.

(** *** The data directory *)

Lemma write_frame_directory now f r :
  current_mdf_path_ (write_frame now f r) = current_mdf_path_ r
  /\ closed_mdf_ (write_frame now f r) = closed_mdf_ r
  /\ closed_idx_ (write_frame now f r) = closed_idx_ r.
Proof.
  unfold write_frame. destruct (mdf_file_ r) as [content|]; [|auto]. cbv zeta.
  repeat match goal with
         | |- context [if ?c then _ else _] => destruct c
         end;
    unfold update_mdf_header, reset_frames_since_last_index, write_index_entry;
    cbn [idx_file_ mdf_file_]; destruct (idx_file_ r);
    cbn [mdf_file_ current_mdf_path_ closed_mdf_ closed_idx_]; auto.
Qed.

Lemma update_mdf_header_directory now r :
  current_mdf_path_ (update_mdf_header now r) = current_mdf_path_ r
  /\ closed_mdf_ (update_mdf_header now r) = closed_mdf_ r
  /\ idx_file_ (update_mdf_header now r) = idx_file_ r
  /\ files_rolled (update_mdf_header now r) = files_rolled r.
Proof. unfold update_mdf_header. destruct (mdf_file_ r); cbn; auto. Qed.

(** A roll: the open files, if any, are closed under their path, and
    new ones are opened under the path of the timestamp, truncating
    what that path held. *)
Lemma roll_file_if_needed_rolls now ts r :
  mdf_file_ r = None \/ idx_file_ r = None \/ roll_bytes_ r <= current_file_bytes_ r ->
  let r1 := roll_file_if_needed true true now ts r in
  mdf_file_ r1
  = Some (bytes_of_MdfHeader
            {| mdf_magic := MDF_MAGIC; mdf_version := 1; mdf_reserved := 0;
               start_ts_ns := ts; end_ts_ns := ts; symbol_count := 0;
               frame_count := 0 |} ++ [])
  /\ idx_file_ r1 = Some []
  /\ current_mdf_path_ r1 = Some (generate_filename ts)
  /\ closed_mdf_ r1
     = delete (generate_filename ts)
              (store_closed (mdf_file_ (update_mdf_header now r)) (current_mdf_path_ r)
                            (closed_mdf_ r))
  /\ files_rolled r1 = (files_rolled r + 1) mod 2 ^ 64
  /\ current_frame_count_ r1 = 0.
Proof.
  intros Hroll r1. subst r1. unfold roll_file_if_needed.
  assert (Hs : match mdf_file_ r, idx_file_ r with
               | Some _, Some _ => roll_bytes_ r <=? current_file_bytes_ r
               | _, _ => true
               end = true).
  { destruct (mdf_file_ r), (idx_file_ r); try reflexivity.
    destruct Hroll as [H|[H|H]]; try discriminate. apply Z.leb_le, H. }
  rewrite Hs. unfold open_new_files, close_current_files.
  destruct (update_mdf_header_directory now r) as (Hp & Hc & _ & Hf).
  cbn [negb mdf_file_ idx_file_ current_mdf_path_ closed_mdf_ files_rolled
       current_frame_count_].
  rewrite Hp, Hc, Hf, app_nil_r. auto 7.
Qed.

Lemma roll_file_if_needed_stays now ts r content entries :
  mdf_file_ r = Some content -> idx_file_ r = Some entries ->
  current_file_bytes_ r < roll_bytes_ r ->
  roll_file_if_needed true true now ts r = r.
Proof.
  intros Hm Hi Hlt. unfold roll_file_if_needed. rewrite Hm, Hi.
  destruct (Z.leb_spec (roll_bytes_ r) (current_file_bytes_ r)); [lia|reflexivity].
Qed.

Lemma frame_bytes_of_snoc names p d :
  frame_bytes_of (names ++ [p]) d
  = frame_bytes_of names d ++ payload (default [] (d !! p)).
Proof.
  unfold frame_bytes_of. rewrite flat_map_app. cbn [flat_map]. rewrite app_nil_r.
  reflexivity.
Qed.

Lemma frame_bytes_of_insert names q c d :
  q ∉ names -> frame_bytes_of names (<[q := c]> d) = frame_bytes_of names d.
Proof.
  unfold frame_bytes_of. induction names as [|n names IH]; intros Hq; [reflexivity|].
  cbn [flat_map]. apply not_elem_of_cons in Hq. destruct Hq as [Hne Hq].
  rewrite lookup_insert_ne by congruence. rewrite IH by exact Hq. reflexivity.
Qed.

(** The frame bytes when the last path holds the file [c]. *)
Lemma frame_bytes_of_last names p c d :
  p ∉ names ->
  frame_bytes_of (names ++ [p]) (<[p := c]> d) = frame_bytes_of names d ++ payload c.
Proof.
  intros Hp. rewrite frame_bytes_of_snoc, frame_bytes_of_insert by exact Hp.
  rewrite lookup_insert_eq. reflexivity.
Qed.

Lemma files_rolled_succ n x :
  x = Z.of_nat n mod 2 ^ 64 -> (x + 1) mod 2 ^ 64 = Z.of_nat (n + 1) mod 2 ^ 64.
Proof. intros ->. rewrite Zplus_mod_idemp_l. f_equal. lia. Qed.

Lemma stored_new rb k : stored [] [] (Recorder_new rb k).
Proof.
  split.
  - constructor.
  - unfold mdf_directory. cbn. apply dom_empty_L.
  - reflexivity.
  - left. auto.
  - reflexivity.
Qed.

(** One turn of the recording loop, for a frame whose second is not the
    path of a segment opened so far. *)
Lemma record_frame_stored names frames n1 n2 f r :
  stored names frames r ->
  generate_filename (body_ts_ns (body f)) ∉ names ->
  exists names',
    (names' = names \/ names' = names ++ [generate_filename (body_ts_ns (body f))])
    /\ stored names' (frames ++ [f]) (record_frame true true n1 n2 f r).
Proof.
  intros [Hnd Hdom Hbytes Hopen Hrolled] Hq.
  set (q := generate_filename (body_ts_ns (body f))) in *.
  unfold record_frame.
  set (r1 := roll_file_if_needed true true n1 (body_ts_ns (body f)) r).
  destruct (write_frame_directory n2 f r1) as (Wp & Wc & _).
  assert (Hrollcase :
            forall (X : gmap Z (list byte)),
              (mdf_file_ r = None \/ idx_file_ r = None
               \/ roll_bytes_ r <= current_file_bytes_ r) ->
              store_closed (mdf_file_ (update_mdf_header n1 r)) (current_mdf_path_ r)
                           (closed_mdf_ r) = X ->
              dom X = list_to_set names ->
              frame_bytes_of names X = encode_all frames ->
              stored (names ++ [q]) (frames ++ [f]) (write_frame n2 f r1)).
  { intros X Hroll HX HdomX HbytesX.
    destruct (roll_file_if_needed_rolls n1 (body_ts_ns (body f)) r Hroll)
      as (M1 & I1 & P1 & C1 & F1 & _). fold r1 q in M1, I1, P1, C1, F1.
    destruct (write_frame_fields n2 f r1 _ _ _ M1 I1)
      as (h' & entries' & Hm' & Hi' & _ & _ & Hf' & _).
    cbn [app] in Hm'.
    assert (Hdir : mdf_directory (write_frame n2 f r1)
                   = <[q := bytes_of_MdfHeader h' ++ encode_frame f]> X).
    { unfold mdf_directory. rewrite Hm', Wp, Wc, P1, C1, HX.
      apply store_closed_delete. }
    split.
    - apply NoDup_app. split; [exact Hnd|]. split; [|apply NoDup_singleton].
      intros x Hx Hx'. apply list_elem_of_singleton in Hx'. subst x. contradiction.
    - rewrite Hdir, dom_insert_L, HdomX, list_to_set_app_L. cbn [list_to_set].
      rewrite union_empty_r_L. apply (comm_L union).
    - rewrite Hdir, frame_bytes_of_last by exact Hq.
      rewrite HbytesX, payload_header, encode_all_snoc. reflexivity.
    - right. exists q, h', (encode_frame f), entries'.
      rewrite last_snoc, Wp, P1. auto.
    - rewrite Hf', F1, length_app. cbn [length]. apply files_rolled_succ, Hrolled. }
  destruct Hopen as [(-> & Hm & Hi)|(p & h & data & entries & Hlast & Hp & Hm & Hi)].
  - (* nothing open yet: the first segment *)
    exists [q]. split; [right; reflexivity|].
    apply (Hrollcase (closed_mdf_ r)); [left; exact Hm| | |].
    + unfold update_mdf_header. rewrite Hm. rewrite Hm. reflexivity.
    + rewrite <- Hdom. unfold mdf_directory. rewrite Hm. reflexivity.
    + rewrite <- Hbytes. unfold mdf_directory. rewrite Hm. reflexivity.
  - apply last_Some in Hlast. destruct Hlast as [cn ->].
    apply NoDup_app in Hnd. destruct Hnd as (Hcn & Hpcn & _).
    assert (Hp' : p ∉ cn).
    { intros Hin. apply (Hpcn p Hin). apply list_elem_of_singleton. reflexivity. }
    unfold mdf_directory in Hdom, Hbytes. rewrite Hm, Hp in Hdom, Hbytes.
    cbn [store_closed] in Hdom, Hbytes.
    rewrite frame_bytes_of_last, payload_header in Hbytes by exact Hp'.
    destruct (Z.leb_spec (roll_bytes_ r) (current_file_bytes_ r)) as [Hfull|Hroom].
    + (* the open segment is closed and a new one opened *)
      exists ((cn ++ [p]) ++ [q]). split; [right; reflexivity|].
      pose proof (update_mdf_header_content n1 r h data Hm) as Hu.
      apply (f_equal mdf_file_) in Hu. cbn [mdf_file_] in Hu.
      eapply Hrollcase; [right; right; exact Hfull|rewrite Hu, Hp; reflexivity| |];
        cbn [store_closed].
      * rewrite dom_insert_L in Hdom |- *. exact Hdom.
      * rewrite frame_bytes_of_last, payload_header by exact Hp'. exact Hbytes.
    + (* the frame goes to the open segment *)
      exists (cn ++ [p]). split; [left; reflexivity|].
      assert (Hr1 : r1 = r) by (apply (roll_file_if_needed_stays _ _ _ _ _ Hm Hi Hroom)).
      rewrite Hr1 in *.
      destruct (write_frame_fields n2 f r _ _ _ Hm Hi)
        as (h' & entries' & Hm' & Hi' & _ & _ & Hf' & _).
      assert (Hdir : mdf_directory (write_frame n2 f r)
                     = <[p := bytes_of_MdfHeader h' ++ data ++ encode_frame f]>
                         (closed_mdf_ r)).
      { unfold mdf_directory. rewrite Hm', Wp, Wc, Hp. reflexivity. }
      split.
      * apply NoDup_app. split; [exact Hcn|]. split; [exact Hpcn|apply NoDup_singleton].
      * rewrite Hdir. rewrite dom_insert_L in Hdom |- *. exact Hdom.
      * rewrite Hdir, frame_bytes_of_last, payload_header by exact Hp'.
        rewrite encode_all_snoc, <- Hbytes, app_assoc. reflexivity.
      * right. exists p, h', (data ++ encode_frame f), entries'.
        rewrite last_snoc, Wp, Hp. auto.
      * rewrite Hf'. exact Hrolled.
Qed.

Lemma record_frames_stored rb k items :
  NoDup (List.map item_path items) ->
  exists names,
    sublist names (List.map item_path items)
    /\ stored names (List.map snd items) (record_frames items (Recorder_new rb k)).
Proof.
  induction items as [|it items IH] using rev_ind; intros Hnd.
  - exists []. split; [constructor|apply stored_new].
  - rewrite List.map_app in Hnd. cbn [List.map] in Hnd.
    apply NoDup_app in Hnd. destruct Hnd as (Hnd & Hnew & _).
    destruct (IH Hnd) as (names & Hsub & Hst).
    assert (Hq : item_path it ∉ names).
    { intros Hin. apply (Hnew (item_path it)).
      - apply (elem_of_sublist _ _ _ Hin Hsub).
      - apply list_elem_of_singleton. reflexivity. }
    destruct (record_frame_stored names _ (fst (fst it)) (snd (fst it)) (snd it) _ Hst Hq)
      as (names' & Hnames & Hst').
    exists names'. rewrite record_frames_snoc, !List.map_app. cbn [List.map].
    split; [|exact Hst'].
    destruct Hnames as [->| ->].
    + apply sublist_inserts_r, Hsub.
    + apply sublist_app; [exact Hsub|reflexivity].
Qed.

(** Property X24.  Rolling keeps every frame when no two frames fall in
    the same second.  A segment file is named after the second of the
    frame it is opened for.  If the frames the recording loop
    processes carry timestamps of pairwise different seconds (the files
    opening each time), then, whatever the roll threshold and the index
    interval, the data directory holds one data file for each segment
    opened, under the paths [names], which are seconds of the frames in
    arrival order; the frame bytes of those files, taken in that order,
    are the encodings of the frames in the order they arrived; and
    [files_rolled] counts the files. *)
Theorem rolling_keeps_every_frame (rb k : Z) (items : list (Z * Z * Frame)) :
  NoDup (List.map item_path items) ->
  let r := record_frames items (Recorder_new rb k) in
  exists names,
    sublist names (List.map item_path items)
    /\ dom (mdf_directory r) = list_to_set names
    /\ frame_bytes_of names (mdf_directory r) = encode_all (List.map snd items)
    /\ files_rolled r = Z.of_nat (length names) mod 2 ^ 64.
Proof.
  intros Hnd r. destruct (record_frames_stored rb k items Hnd) as (names & Hsub & Hst).
  destruct Hst as [_ Hdom Hbytes _ Hrolled]. exists names. auto.
Qed.

Lemma rolling_keeps_every_frame_witness :
  exists names,
    sublist names [1; 2; 3]
    /\ dom (mdf_directory (record_frames spaced_items (Recorder_new 40 2)))
       = list_to_set names
    /\ frame_bytes_of names (mdf_directory (record_frames spaced_items (Recorder_new 40 2)))
       = encode_all (List.map snd spaced_items)
    /\ files_rolled (record_frames spaced_items (Recorder_new 40 2))
       = Z.of_nat (length names) mod 2 ^ 64.
Proof.
  apply (rolling_keeps_every_frame 40 2 spaced_items).
  apply NoDup_ListNoDup. repeat constructor; cbn; intuition discriminate.
Defined.

(** Without that condition frames are lost: three frames of the same
    second, a roll at each; three segments are opened under the same
    path, two are closed, and the directory ends with one file, which
    holds the last frame only. *)
Example same_second_rolls_overwrite :
  let r := record_frames heartbeat_items (Recorder_new 40 2) in
  List.map item_path heartbeat_items = [0; 0; 0]
  /\ length (closed_segments r) = 2%nat
  /\ files_rolled r = 3
  /\ map_to_list (mdf_directory r)
     = [(0, bytes_of_MdfHeader
              {| mdf_magic := MDF_MAGIC; mdf_version := 1; mdf_reserved := 0;
                 start_ts_ns := 3; end_ts_ns := 3; symbol_count := 0; frame_count := 0 |}
            ++ encode_frame (snd (hb 3)))].
Proof. vm_compute. auto. Qed.

Lemma length_recorded_bytes r :
  Forall (fun seg => (32 <= length (fst seg))%nat) (closed_segments r) ->
  forall seg, In seg (closed_segments r) ->
  (length (fst seg) <= 32 + length (recorded_bytes r))%nat.
Proof.
  unfold recorded_bytes. rewrite length_app.
  induction (closed_segments r) as [|s l IH]; intros Hall seg Hin; [destruct Hin|].
  apply Forall_cons_1 in Hall. destruct Hall as [Hs Hall].
  cbn [flat_map]. rewrite length_app. unfold payload at 1. rewrite length_skipn.
  unfold sizeof_MdfHeader. destruct Hin as [<-|Hin]; [lia|].
  specialize (IH Hall seg Hin). lia.
Qed.

(** Property X25.  A segment is closed by the loop only once it has reached the
    roll threshold: after any run of frames whose encodings, with one
    header, stay below 2^64 bytes, every closed segment file is at
    least [roll_bytes_] long (and holds at least its header). *)
Theorem closed_segments_reach_roll_bytes (rb k : Z) (items : list (Z * Z * Frame)) :
  32 + Z.of_nat (length (encode_all (List.map snd items))) < 2 ^ 64 ->
  Forall (fun seg => 32 <= Z.of_nat (length (fst seg))
                     /\ rb <= Z.of_nat (length (fst seg)))
         (closed_segments (record_frames items (Recorder_new rb k))).
Proof.
  intros Hfit.
  destruct (record_frames_recording rb k items) as [_ _ Hbytes Hclosed _].
  set (r := record_frames items (Recorder_new rb k)) in *.
  assert (H32 : Forall (fun seg => (32 <= length (fst seg))%nat) (closed_segments r))
    by (eapply List.Forall_impl; [|exact Hclosed]; intros seg [H _]; exact H).
  pose proof (length_recorded_bytes r H32) as Hle. rewrite Hbytes in Hle.
  apply List.Forall_forall. intros seg Hin.
  rewrite List.Forall_forall in Hclosed. destruct (Hclosed seg Hin) as [H1 H2].
  specialize (Hle seg Hin).
  rewrite Z.mod_small in H2 by lia. lia.
Qed.

Lemma closed_segments_reach_roll_bytes_witness :
  Forall (fun seg => 32 <= Z.of_nat (length (fst seg))
                     /\ 40 <= Z.of_nat (length (fst seg)))
         (closed_segments (record_frames heartbeat_items (Recorder_new 40 2))).
Proof. apply closed_segments_reach_roll_bytes. vm_compute. reflexivity. Defined.

(** Property X26.  [force_roll] makes the next frame start a new segment,
    whatever the size of the current one.  With a segment open under the
    path [p], after [force_roll] the loop closes the current files (the
    header updated, all frame bytes and the index in them) and opens new
    ones, with the frame as their first, under the path [q] made from
    the second of the frame; the new files replace whatever files had
    that path.  So the segment just closed stays in the directory when
    the frame falls in another second than the one the segment was
    named after, and is overwritten by the new segment when it falls in
    the same second. *)
Theorem force_roll_starts_new_segment
        (r : Recorder) (h : MdfHeader) (data : list byte) (entries : list IndexEntry)
        (p now_roll now : Z) (f : Frame) :
  mdf_file_ r = Some (bytes_of_MdfHeader h ++ data) ->
  idx_file_ r = Some entries ->
  current_mdf_path_ r = Some p ->
  let q := generate_filename (body_ts_ns (body f)) in
  let closed :=
    bytes_of_MdfHeader
      {| mdf_magic := MDF_MAGIC; mdf_version := 1; mdf_reserved := 0;
         start_ts_ns := current_file_start_ts_ r;
         end_ts_ns := now_roll mod 2 ^ 64; symbol_count := 0;
         frame_count := current_frame_count_ r |} ++ data in
  let r' := record_frame true true now_roll now f (force_roll r) in
  closed_segments r' = closed_segments r ++ [(closed, entries)]
  /\ files_rolled r' = (files_rolled r + 1) mod 2 ^ 64
  /\ current_mdf_path_ r' = Some q
  /\ closed_mdf_ r' = delete q (<[p := closed]> (closed_mdf_ r))
  /\ exists h', mdf_file_ r' = Some (bytes_of_MdfHeader h' ++ encode_frame f)
                /\ start_ts_ns h' = body_ts_ns (body f)
                /\ (q <> p -> mdf_directory r' !! p = Some closed)
                /\ (q = p -> mdf_directory r' !! p
                             = Some (bytes_of_MdfHeader h' ++ encode_frame f)).
Proof.
  intros Hm Hi Hp q closed r'. subst r'. unfold record_frame.
  set (r1 := roll_file_if_needed true true now_roll (body_ts_ns (body f)) (force_roll r)).
  assert (Hu : mdf_file_ (update_mdf_header now_roll (force_roll r)) = Some closed).
  { erewrite update_mdf_header_content by (cbn [force_roll mdf_file_]; exact Hm).
    reflexivity. }
  destruct (roll_file_if_needed_rolls now_roll (body_ts_ns (body f)) (force_roll r))
    as (M1 & I1 & P1 & D1 & F1 & N1).
  { right. right. cbn [force_roll roll_bytes_ current_file_bytes_]. lia. }
  fold r1 q in M1, I1, P1, D1, F1, N1.
  rewrite Hu in D1. cbn [force_roll current_mdf_path_ closed_mdf_ files_rolled] in D1, F1.
  rewrite Hp in D1. cbn [store_closed] in D1.
  assert (C1 : closed_segments r1 = closed_segments r ++ [(closed, entries)]).
  { subst r1. unfold roll_file_if_needed, force_roll.
    cbn [mdf_file_ idx_file_ roll_bytes_ current_file_bytes_]. rewrite Hm, Hi, Z.leb_refl.
    unfold close_current_files.
    erewrite update_mdf_header_content by (cbn [mdf_file_]; reflexivity).
    cbn [mdf_file_ idx_file_ closed_segments roll_bytes_ index_interval_
         current_file_start_ts_ current_file_bytes_ current_frame_count_
         frames_since_last_index_ needs_fsync_ frames_written bytes_written
         files_rolled].
    rewrite ?Hi. unfold open_new_files. cbn [negb orb].
    cbn [closed_segments default]. rewrite ?Hi. reflexivity. }
  destruct (write_frame_fields now f r1 _ _ _ M1 I1)
    as (h' & entries' & Hm' & _ & _ & Hcl' & Hf' & _).
  destruct (write_frame_directory now f r1) as (Wp & Wc & _).
  rewrite Hcl', Hf', C1, F1, Wp, Wc, P1, D1.
  split; [reflexivity|]. split; [reflexivity|]. split; [reflexivity|].
  split; [reflexivity|].
  (* one frame in the new file: its header is still the one written at the opening *)
  assert (Hhdr : exists h', mdf_file_ (write_frame now f r1)
                            = Some (bytes_of_MdfHeader h' ++ encode_frame f)
                            /\ start_ts_ns h' = body_ts_ns (body f)).
  { unfold write_frame. rewrite M1. cbv zeta.
    match goal with
    | |- exists h', mdf_file_ (if ?c then _ else _) = _ /\ _ =>
        assert (Hc : c = false)
    end.
    { match goal with
      | |- (current_frame_count_ ?r2 mod 1000 =? 0) = false =>
          assert (H2 : current_frame_count_ r2 = 1)
      end.
      { destruct (_ <=? _); [unfold write_index_entry; cbn [idx_file_]; rewrite I1|];
          cbn; rewrite N1; reflexivity. }
      rewrite H2. reflexivity. }
    rewrite Hc. eexists. split.
    - destruct (_ <=? _); [unfold write_index_entry; cbn [idx_file_]; rewrite I1|];
        cbn [mdf_file_ reset_frames_since_last_index]; rewrite app_nil_r; reflexivity.
    - reflexivity. }
  destruct Hhdr as (h2 & Hm2 & Hs2). exists h2.
  split; [exact Hm2|]. split; [exact Hs2|].
  unfold mdf_directory. rewrite Hm2, Wp, Wc, P1, D1. cbn [store_closed].
  split.
  - intros Hne. rewrite lookup_insert_ne by exact Hne.
    rewrite lookup_delete_ne by exact Hne. apply lookup_insert_eq.
  - intros ->. apply lookup_insert_eq.
Qed.

Lemma force_roll_starts_new_segment_witness :
  let r := write_frames unordered_run
             (open_new_files true true 1 (Recorder_new 2147483648 2)) in
  exists h', mdf_file_ (record_frame true true 7 8 (snd (hb 9)) (force_roll r))
             = Some (bytes_of_MdfHeader h' ++ encode_frame (snd (hb 9)))
             /\ start_ts_ns h' = 9
             /\ mdf_directory (record_frame true true 7 8 (snd (hb 9)) (force_roll r)) !! 0
                = Some (bytes_of_MdfHeader h' ++ encode_frame (snd (hb 9))).
Proof.
  intros r.
  destruct (write_frames_open (Recorder_new 2147483648 2) 1 unordered_run)
    as [[h Hm] [entries Hi] _ _ _ _ Hp _ _]. fold r in Hm, Hi, Hp.
  destruct (force_roll_starts_new_segment r h _ entries _ 7 8 (snd (hb 9)) Hm Hi Hp)
    as (_ & _ & _ & _ & h' & H1 & H2 & _ & H4).
  exists h'. split; [exact H1|]. split; [exact H2|]. apply H4. reflexivity.
Defined.

End RecorderContent.

(** ** Replayer: reading back what the recorder wrote *)
Module ReplayerReading.
Import Crc32 Wire Double Recorder Replayer.
Import CrcFacts WireFacts WireInverse RecorderFacts RecorderContent.

Lemma length_encode_Frame_of b crc0 :
  length (encode_frame (Frame_of b crc0)) = (HEADER_SIZE + body_sizeof b)%nat.
Proof.
  rewrite encode_frame_Frame_of, length_app, length_bytes_of_header, length_bytes_of_body.
  reflexivity.
Qed.

(** [read_next_frame] on a stream that stands at an encoded frame. *)
Lemma read_next_frame_encoded s b crc0 rest :
  valid_body b ->
  s_good (mdf_file s) = true ->
  skipn (s_pos (mdf_file s)) (s_bytes (mdf_file s))
  = encode_frame (Frame_of b crc0) ++ rest ->
  read_next_frame s
  = (Some (sealed (Frame_of b crc0)),
     with_stream {| is_open := is_open (mdf_file s); s_bytes := s_bytes (mdf_file s);
                    s_pos := s_pos (mdf_file s) + length (encode_frame (Frame_of b crc0));
                    s_good := true; s_max_offset := s_max_offset (mdf_file s) |} s).
Proof.
  intros Hv Hgood Hskip.
  pose proof (decode_encode_Frame_of b crc0 Hv) as Hdec.
  rewrite length_encode_Frame_of.
  rewrite encode_frame_Frame_of in Hskip, Hdec.
  set (h := header (Frame_of b (calculate_crc32 (bytes_of_body b)))) in *.
  pose proof (valid_header_Frame_of b) as Hh. fold h in Hh.
  unfold read_next_frame. rewrite Hgood. cbn [negb].
  unfold read at 1. rewrite Hgood. cbn [negb]. rewrite Hskip, <- app_assoc.
  assert (Hfirst : firstn HEADER_SIZE (bytes_of_header h ++ bytes_of_body b ++ rest)
                   = bytes_of_header h).
  { rewrite firstn_app, length_bytes_of_header, Nat.sub_diag, firstn_O, app_nil_r.
    apply firstn_all2. rewrite length_bytes_of_header. lia. }
  rewrite Hfirst, length_bytes_of_header, Nat.eqb_refl. cbn [negb].
  assert (Hhb : header_of_bytes (bytes_of_header h) = h).
  { rewrite <- (app_nil_r (bytes_of_header h)). apply header_roundtrip, Hh. }
  rewrite !Hhb.
  change (magic h) with FRAME_MAGIC. change (version h) with 1.
  rewrite !Z.eqb_refl. cbn [negb orb].
  change (body_len h) with (Z.of_nat (body_sizeof b)). rewrite Nat2Z.id.
  unfold read. cbn [s_good s_pos s_bytes is_open negb].
  assert (Hbody : firstn (body_sizeof b)
                    (skipn (s_pos (mdf_file s) + HEADER_SIZE) (s_bytes (mdf_file s)))
                  = bytes_of_body b).
  { rewrite Nat.add_comm, <- skipn_skipn, Hskip, <- app_assoc, skipn_header.
    rewrite firstn_app, length_bytes_of_body, Nat.sub_diag, firstn_O, app_nil_r.
    apply firstn_all2. rewrite length_bytes_of_body. lia. }
  rewrite Hbody, length_bytes_of_body, Z.eqb_refl, Nat.eqb_refl. cbn [negb].
  rewrite Hdec. unfold sealed. cbn [body Frame_of].
  f_equal. f_equal. f_equal. lia.
Qed.

Lemma encode_all_cons f fs : encode_all (f :: fs) = encode_frame f ++ encode_all fs.
Proof. reflexivity. Qed.

(** At the end of the data nothing more is read. *)
Lemma read_next_frame_eof s :
  skipn (s_pos (mdf_file s)) (s_bytes (mdf_file s)) = [] ->
  fst (read_next_frame s) = None.
Proof.
  intros Hskip. unfold read_next_frame.
  destruct (s_good (mdf_file s)) eqn:Hgood; cbn [negb]; [|reflexivity].
  unfold read at 1. rewrite Hgood, Hskip. cbn [negb firstn length]. reflexivity.
Qed.

Lemma read_frames_encoded frames : forall s,
  Forall constructed frames ->
  s_good (mdf_file s) = true ->
  skipn (s_pos (mdf_file s)) (s_bytes (mdf_file s)) = encode_all frames ->
  forall n, fst (read_frames n s) = List.map sealed (firstn n frames).
Proof.
  induction frames as [|f frames IH]; intros s Hall Hgood Hskip n.
  - rewrite firstn_nil. destruct n; [reflexivity|]. cbn [read_frames List.map].
    pose proof (read_next_frame_eof s Hskip) as Heof.
    destruct (read_next_frame s) as [[f|] s']; [discriminate|reflexivity].
  - destruct n as [|n]; [reflexivity|].
    apply Forall_cons_1 in Hall. destruct Hall as [(b & crc0 & -> & Hv) Hall].
    rewrite encode_all_cons in Hskip.
    cbn [read_frames firstn List.map].
    rewrite (read_next_frame_encoded s b crc0 _ Hv Hgood Hskip).
    match goal with
    | |- fst (let '(fs, s'') := read_frames n ?s1 in _) = _ =>
        specialize (IH s1 Hall); destruct (read_frames n s1) as [fs s2] eqn:Hrf
    end.
    cbn [fst]. f_equal.
    rewrite <- (IH eq_refl); [rewrite Hrf; reflexivity|].
    cbn [with_stream mdf_file s_pos s_bytes].
    rewrite Nat.add_comm, <- skipn_skipn, Hskip.
    rewrite skipn_app, Nat.sub_diag. rewrite skipn_all2 by lia. reflexivity.
Qed.

(** Property X27.  Replay reads back what the recorder wrote.  Record any
    constructed frames in a segment and close it; open the closed file
    (on any file system), seek past its 32-byte header and read frames
    until the reader stops: the frames read are the frames recorded, in
    order, each as the decoder returns it (the [crc32] field filled in),
    and the reader stops at the end of the file. *)
Theorem replay_reads_recorded_segment
        (r0 : Recorder) (ts now : Z) (frames : list (Z * Frame))
        (content : list byte) (entries : list IndexEntry) (s : ReplaySession) (n : nat)
        (lim : Z) :
  Forall constructed (List.map snd frames) ->
  last (closed_segments
          (close_current_files now (write_frames frames (open_new_files true true ts r0))))
  = Some (content, entries) ->
  let mdf := seekg (Z.of_nat sizeof_MdfHeader)
               {| is_open := true; s_bytes := content; s_pos := 0; s_good := true;
                  s_max_offset := lim |} in
  fst (read_frames n (with_stream mdf s)) = List.map sealed (firstn n (List.map snd frames)).
Proof.
  intros Hall Hlast mdf.
  destruct (close_after_write r0 ts now frames) as (_ & _ & entries' & _ & Hcl & _).
  cbv zeta in Hcl. rewrite Hcl, last_snoc in Hlast.
  set (h := {| mdf_magic := MDF_MAGIC |}) in Hlast.
  assert (Hc : content = bytes_of_MdfHeader h ++ encode_all (List.map snd frames))
    by congruence.
  clear Hlast Hcl. subst content.
  assert (Hmdf : mdf = {| is_open := true;
                          s_bytes := bytes_of_MdfHeader h ++ encode_all (List.map snd frames);
                          s_pos := sizeof_MdfHeader; s_good := true;
                          s_max_offset := lim |}).
  { subst mdf. unfold seekg, seek_limit. cbn [s_good negb s_max_offset].
    change (Z.of_nat sizeof_MdfHeader <? 2 ^ 63) with true.
    destruct (Z.leb_spec (Z.of_nat sizeof_MdfHeader) (Z.max (2 ^ 31 - 1) lim)) as [_|Hlim];
      [|unfold sizeof_MdfHeader in Hlim; lia].
    cbn [andb is_open s_bytes]. rewrite Nat2Z.id. reflexivity. }
  rewrite Hmdf.
  apply read_frames_encoded; [exact Hall|reflexivity|].
  cbn [with_stream mdf_file s_pos s_bytes].
  exact (payload_header h (encode_all (List.map snd frames))).
Qed.

Lemma replay_reads_recorded_segment_witness :
  let r := close_current_files 9
             (write_frames unordered_run
                (open_new_files true true 1 (Recorder_new 2147483648 2))) in
  exists content entries,
    last (closed_segments r) = Some (content, entries)
    /\ fst (read_frames 5
              (with_stream
                 (seekg (Z.of_nat sizeof_MdfHeader)
                    {| is_open := true; s_bytes := content; s_pos := 0; s_good := true;
                       s_max_offset := 17592186040320 |})
                 sample_session))
       = List.map sealed (firstn 5 (List.map snd unordered_run)).
Proof.
  cbv zeta.
  destruct (last (closed_segments _)) as [[content entries]|] eqn:H;
    [|vm_compute in H; discriminate].
  exists content, entries. split; [reflexivity|].
  refine (replay_reads_recorded_segment (Recorder_new 2147483648 2) 1 9 unordered_run
            content entries sample_session 5 17592186040320 _ H).
  unfold unordered_run, hb. cbn [List.map snd].
  repeat (constructor;
          [eexists _, _; split; [reflexivity|unfold valid_body, u64; cbn; lia]|]).
  constructor.
Defined.

(** *** Seeking through the index *)

Lemma sorted_lookup (l : list Z) : forall i j a b,
  StronglySorted Z.le l -> (i <= j)%nat -> l !! i = Some a -> l !! j = Some b -> a <= b.
Proof.
  induction l as [|x l IH]; intros i j a b Hs Hij Hi Hj; [discriminate|].
  apply StronglySorted_inv in Hs. destruct Hs as [Hs Hall].
  destruct i as [|i], j as [|j]; cbn [lookup list_lookup] in Hi, Hj.
  - injection Hi as <-. injection Hj as <-. lia.
  - injection Hi as <-. rewrite List.Forall_forall in Hall. apply Hall.
    apply list_elem_of_In. eapply list_elem_of_lookup_2, Hj.
  - lia.
  - apply (IH i j a b Hs); [lia|exact Hi|exact Hj].
Qed.

Lemma entries_sorted_lookup entries i j a b :
  StronglySorted Z.le (List.map ts_ns_first entries) -> (i <= j)%nat ->
  entries !! i = Some a -> entries !! j = Some b -> ts_ns_first a <= ts_ns_first b.
Proof.
  intros Hs Hij Hi Hj.
  apply (sorted_lookup _ i j _ _ Hs Hij).
  - change (List.map ts_ns_first entries) with (ts_ns_first <$> entries).
    rewrite list_lookup_fmap, Hi. reflexivity.
  - change (List.map ts_ns_first entries) with (ts_ns_first <$> entries).
    rewrite list_lookup_fmap, Hj. reflexivity.
Qed.

(** The halving loop keeps the target between the two parts of the
    array. *)
Lemma lower_bound_loop_spec entries target :
  StronglySorted Z.le (List.map ts_ns_first entries) ->
  forall fuel first len,
  (len < fuel)%nat -> (first + len <= length entries)%nat ->
  (forall j e, (j < first)%nat -> entries !! j = Some e -> ts_ns_first e < target) ->
  (forall j e, (first + len <= j)%nat -> entries !! j = Some e -> target <= ts_ns_first e) ->
  let k := lower_bound_loop fuel entries target first len in
  (first <= k <= first + len)%nat
  /\ (forall j e, (j < k)%nat -> entries !! j = Some e -> ts_ns_first e < target)
  /\ (forall j e, (k <= j)%nat -> entries !! j = Some e -> target <= ts_ns_first e).
Proof.
  intros Hs. induction fuel as [|fuel IH]; intros first len Hfuel Hlen Hlo Hhi; [lia|].
  cbn [lower_bound_loop].
  destruct (Nat.eqb_spec len 0) as [->|Hpos].
  - cbv zeta. split; [lia|]. split; [exact Hlo|]. intros j e Hj. apply Hhi. lia.
  - assert (Hhalf : (Nat.div2 len < len)%nat) by (apply Nat.lt_div2; lia).
    set (half := Nat.div2 len) in *. clearbody half.
    destruct (lookup_lt_is_Some_2 entries (first + half)) as [e He]; [lia|].
    rewrite He.
    destruct (Z.ltb_spec (ts_ns_first e) target) as [Hlt|Hge].
    + destruct (IH (first + half + 1)%nat (len - half - 1)%nat)
        as (Hk & Hlo' & Hhi'); [lia|lia| | |].
      * intros j e' Hj He'.
        pose proof (entries_sorted_lookup entries j (first + half) e' e Hs
                      ltac:(lia) He' He). lia.
      * intros j e' Hj. apply Hhi. lia.
      * cbv zeta in *. split; [lia|]. split; assumption.
    + destruct (IH first half) as (Hk & Hlo' & Hhi'); [lia|lia|exact Hlo| |].
      * intros j e' Hj He'.
        pose proof (entries_sorted_lookup entries (first + half) j e e' Hs
                      ltac:(lia) He He'). lia.
      * cbv zeta in *. split; [lia|]. split; assumption.
Qed.

Lemma lower_bound_spec entries target :
  StronglySorted Z.le (List.map ts_ns_first entries) ->
  (lower_bound entries target <= length entries)%nat
  /\ forall j e, entries !! j = Some e ->
       (ts_ns_first e <? target) = (j <? lower_bound entries target)%nat.
Proof.
  intros Hs. unfold lower_bound.
  destruct (lower_bound_loop_spec entries target Hs (S (length entries)) 0 (length entries))
    as (Hk & Hlo & Hhi); [lia|lia| | |].
  - intros j e Hj. lia.
  - intros j e Hj He. apply lookup_lt_Some in He. lia.
  - cbv zeta in *. split; [lia|]. intros j e He.
    destruct (Nat.ltb_spec j (lower_bound_loop (S (length entries)) entries target 0
                                (length entries))) as [Hj|Hj].
    + apply Z.ltb_lt. eapply Hlo; eassumption.
    + apply Z.ltb_ge. eapply Hhi; eassumption.
Qed.

Lemma filter_prefix {A} (f : A -> bool) (l : list A) : forall k,
  (k <= length l)%nat ->
  (forall j e, l !! j = Some e -> f e = (j <? k)%nat) ->
  List.filter f l = firstn k l.
Proof.
  induction l as [|x l IH]; intros k Hk Hf; [destruct k; reflexivity|].
  cbn [List.filter]. rewrite (Hf 0%nat x eq_refl).
  destruct k as [|k].
  - cbn. apply (IH 0%nat); [lia|]. intros j e He. rewrite (Hf (S j) e He). reflexivity.
  - cbn [Nat.ltb Nat.leb firstn]. f_equal. apply IH; [cbn in Hk; lia|].
    intros j e He. rewrite (Hf (S j) e He). reflexivity.
Qed.

(** The index file read back as entries. *)
Lemma entries_of_bytes_idx_file_bytes entries :
  Forall (fun e => u64 (ts_ns_first e) /\ u64 (file_offset e)) entries ->
  entries_of_bytes (length entries) (idx_file_bytes entries) = entries.
Proof.
  induction 1 as [|e entries [Hts Hoff] _ IH]; [reflexivity|].
  cbn [length entries_of_bytes]. unfold idx_file_bytes in *. cbn [flat_map].
  assert (Hlen : length (bytes_of_IndexEntry e) = sizeof_IndexEntry).
  { unfold bytes_of_IndexEntry. rewrite length_app, !length_le_split. reflexivity. }
  rewrite !get_le_app by (rewrite Hlen; unfold sizeof_IndexEntry; lia).
  rewrite skipn_app, Hlen, Nat.sub_diag, skipn_all2 by lia.
  change (drop 0 ?l) with l. cbn [app].
  rewrite IH. f_equal. destruct e as [t o]. cbn [ts_ns_first file_offset] in *.
  unfold bytes_of_IndexEntry. cbn [ts_ns_first file_offset].
  f_equal; le_field.
Qed.

(** Property X28.  Where a seek lands.  When the index holds entries in
    non-decreasing timestamp order, [seek_to_timestamp] positions the
    data stream at the offset of the last entry whose timestamp is
    strictly below the target, and just past the file header when there
    is no such entry (an empty index included); the seek fails, the
    stream staying where it was with its fail bit set, and the call
    reports failure, exactly when that offset does not fit the signed
    64-bit stream offset or exceeds the largest offset the file system
    of the data file accepts. *)
Theorem seek_to_timestamp_sorted
        (mdf idx : IFStream) (entries : list IndexEntry) (target : Z) :
  Forall (fun e => u64 (ts_ns_first e) /\ u64 (file_offset e)) entries ->
  StronglySorted Z.le (List.map ts_ns_first entries) ->
  s_bytes idx = idx_file_bytes entries ->
  s_good mdf = true ->
  let off := match seek_entry entries target with
             | Some e => file_offset e
             | None => Z.of_nat sizeof_MdfHeader
             end in
  seek_to_timestamp mdf idx target
  = (seekg off mdf, (off <? 2 ^ 63) && (off <=? seek_limit mdf))
  /\ seekg off mdf
     = {| is_open := is_open mdf; s_bytes := s_bytes mdf;
          s_pos := if (off <? 2 ^ 63) && (off <=? seek_limit mdf)
                   then Z.to_nat off else s_pos mdf;
          s_good := (off <? 2 ^ 63) && (off <=? seek_limit mdf);
          s_max_offset := s_max_offset mdf |}.
Proof.
  intros Hrange Hs Hbytes Hgood off.
  assert (Hgoodness : forall o, s_good (seekg o mdf)
                                = (o <? 2 ^ 63) && (o <=? seek_limit mdf)).
  { intros o. unfold seekg. rewrite Hgood. cbn [negb].
    destruct ((o <? 2 ^ 63) && (o <=? seek_limit mdf)); reflexivity. }
  split.
  2:{ unfold seekg. rewrite Hgood. cbn [negb].
      destruct ((off <? 2 ^ 63) && (off <=? seek_limit mdf)); reflexivity. }
  unfold seek_to_timestamp. rewrite Hbytes, length_idx_file_bytes.
  rewrite Nat.mul_comm, Nat.div_mul by (unfold sizeof_IndexEntry; lia).
  rewrite (entries_of_bytes_idx_file_bytes entries Hrange).
  destruct (lower_bound_spec entries target Hs) as (Hk & Hf).
  pose proof (filter_prefix (fun e => ts_ns_first e <? target) entries _ Hk Hf) as Hfilter.
  subst off. unfold seek_entry. rewrite Hfilter.
  destruct (Nat.eqb_spec (length entries) 0) as [Hnil|Hnonnil].
  - destruct entries; [|discriminate]. rewrite firstn_nil. cbn [last].
    assert (Hhdr : (Z.of_nat sizeof_MdfHeader <? 2 ^ 63)
                   && (Z.of_nat sizeof_MdfHeader <=? seek_limit mdf) = true).
    { unfold seek_limit, sizeof_MdfHeader. apply andb_true_intro. split; [reflexivity|].
      apply Z.leb_le. lia. }
    rewrite Hhdr. reflexivity.
  - destruct (Nat.eqb_spec (lower_bound entries target) 0) as [->|Hk0].
    + cbn [firstn last]. rewrite Hgoodness. reflexivity.
    + destruct (lookup_lt_is_Some_2 entries (lower_bound entries target - 1)) as [e He];
        [lia|].
      rewrite He.
      assert (Hlast : last (firstn (lower_bound entries target) entries) = Some e).
      { rewrite last_lookup, length_take, Nat.min_l by lia.
        rewrite lookup_take_lt by lia.
        replace (Nat.pred (lower_bound entries target)) with
          (lower_bound entries target - 1)%nat by lia. exact He. }
      rewrite Hlast, Hgoodness. reflexivity.
Qed.

Lemma seek_to_timestamp_sorted_witness :
  let entries := [ {| ts_ns_first := 100; file_offset := 56 |};
                   {| ts_ns_first := 200; file_offset := 104 |} ] in
  let mdf := open_stream quiet_gap_dir "md_19700101_000001.mdf" in
  let idx := {| is_open := true; s_bytes := idx_file_bytes entries; s_pos := 0;
                s_good := true; s_max_offset := 17592186040320 |} in
  seek_to_timestamp mdf idx 200 = (seekg 56 mdf, true).
Proof.
  intros entries mdf idx.
  assert (H1 : Forall (fun e => u64 (ts_ns_first e) /\ u64 (file_offset e)) entries).
  { subst entries. unfold u64. repeat (constructor; [cbn; lia|]). constructor. }
  assert (H2 : StronglySorted Z.le (List.map ts_ns_first entries)).
  { subst entries. cbn. repeat (constructor; [|repeat (constructor; [lia|]); constructor]).
    constructor. }
  exact (proj1 (seek_to_timestamp_sorted mdf idx entries 200 H1 H2 eq_refl eq_refl)).
Defined.

End ReplayerReading.

(** ** Replayer: playback and the session table *)
Module ReplayerSessions.
Import Crc32 Wire Double Recorder Replayer.
Import WireFacts WireInverse.








(** *** The session table *)

Lemma table_inv_new : table_inv Replayer_new.
Proof.
  unfold table_inv, Replayer_new. cbn [sessions_ active_sessions].
  rewrite map_size_empty. split; [unfold MAX_CONCURRENT_SESSIONS; lia|].
  split; [reflexivity|]. intros id s H. rewrite lookup_empty in H. discriminate.
Qed.

(** Replacing a session of the table by one with the same parameters. *)
Lemma table_inv_update r id s s' :
  table_inv r -> sessions_ r !! id = Some s ->
  (valid_session id s -> valid_session id s') ->
  table_inv (with_sessions (<[id := s']> (sessions_ r)) r).
Proof.
  intros (Hsize & Hact & Hval) Hs Hs'.
  unfold table_inv, with_sessions. cbn [sessions_ active_sessions].
  assert (Hsz : size (<[id := s']> (sessions_ r)) = size (sessions_ r)).
  { rewrite map_size_insert, Hs. reflexivity. }
  rewrite Hsz. split; [exact Hsize|]. split; [exact Hact|].
  intros id' s0 H0. destruct (decide (id' = id)) as [->|Hne].
  - rewrite lookup_insert_eq in H0. injection H0 as <-. apply Hs', Hval, Hs.
  - rewrite lookup_insert_ne in H0 by congruence. apply Hval, H0.
Qed.

Lemma of_Z_0 : of_Z 0 = S754_zero false.
Proof. vm_compute. reflexivity. Qed.

Lemma of_Z_100 : of_Z 100 = S754_finite false 7036874417766400 (-46).
Proof. vm_compute. reflexivity. Qed.

(** On positive finite values, [a > b] false gives [b >= a]. *)
Lemma finite_not_lt_le (K m : positive) (E e : Z) :
  SFltb (S754_finite false K E) (S754_finite false m e) = false ->
  SFleb (S754_finite false m e) (S754_finite false K E) = true.
Proof.
  unfold SFltb, SFleb. cbn [SFcompare].
  rewrite (Z.compare_antisym e E).
  destruct (e ?= E); cbn [CompOpp]; [|reflexivity|discriminate].
  pose proof (Pos.compare_antisym m K) as Ha.
  unfold Pos.compare in Ha. rewrite Ha.
  destruct (Pos.compare_cont Eq m K); cbn [CompOpp];
    [reflexivity|reflexivity|discriminate].
Qed.

(** The two comparisons of the rate test, read positively. *)
Lemma rate_test_accepted rate :
  leb rate (of_Z 0) = false -> ltb MAX_RATE_MULTIPLIER rate = false ->
  rate_accepted rate.
Proof.
  unfold rate_accepted, leb, ltb, MAX_RATE_MULTIPLIER.
  rewrite of_Z_0, of_Z_100.
  destruct rate as [s|s| |s m e]; intros H0 H100.
  - discriminate.
  - destruct s; discriminate.
  - left. reflexivity.
  - right. destruct s; [discriminate|]. split; [reflexivity|].
    apply finite_not_lt_le, H100.
Qed.
Lemma start_session_inv dir draws now from_ts_ns to_ts_ns tps rate r :
  table_inv r ->
  table_inv (snd (start_session dir draws now from_ts_ns to_ts_ns tps rate r)).
Proof.
  intros Hinv. pose proof Hinv as (Hsize & Hact & Hval). unfold start_session.
  destruct (Z.leb_spec to_ts_ns from_ts_ns) as [|Hrange]; [exact Hinv|].
  destruct (leb rate (of_Z 0)) eqn:Hr0; [exact Hinv|].
  destruct (ltb MAX_RATE_MULTIPLIER rate) eqn:Hr1; [exact Hinv|]. cbn [orb].
  destruct tps as [|t tps]; [exact Hinv|].
  destruct (Nat.leb_spec MAX_CONCURRENT_SESSIONS (size (sessions_ r))) as [|Hroom];
    [exact Hinv|].
  destruct (find_files_for_timestamp from_ts_ns dir) as [[mdf_path idx_path]|];
    [|exact Hinv].
  destruct (negb (is_open (open_stream dir mdf_path))
            || negb (is_open (open_stream dir idx_path))); [exact Hinv|].
  destruct (seek_to_timestamp _ _ from_ts_ns) as [mdf' ok].
  destruct ok; cbn [negb]; [|exact Hinv].
  cbn [snd]. unfold table_inv. cbn [sessions_ active_sessions].
  split; [|split; [reflexivity|]].
  - rewrite map_size_insert.
    destruct (sessions_ r !! generate_session_id draws); unfold id; lia.
  - intros id s H0. destruct (decide (id = generate_session_id draws)) as [->|Hne].
    + rewrite lookup_insert_eq in H0. injection H0 as <-.
      unfold valid_session.
      cbn [session_id rs_start_ts_ns rs_end_ts_ns rate_multiplier topics running].
      split; [reflexivity|]. split; [lia|].
      split; [exact (rate_test_accepted rate Hr0 Hr1)|].
      split; [discriminate|reflexivity].
    + rewrite lookup_insert_ne in H0 by congruence. apply Hval, H0.
Qed.

Lemma replay_call_inv r c : table_inv r -> table_inv (replay_call r c).
Proof.
  intros Hinv.
  destruct c as [dir draws now from_ts_ns to_ts_ns tps rate|id|id now|id ts|id];
    cbn [replay_call].
  - apply start_session_inv, Hinv.
  - unfold pause_session. destruct (sessions_ r !! id) as [s|] eqn:Hs; [|exact Hinv].
    apply (table_inv_update r id s _ Hinv Hs). unfold valid_session. cbn. auto.
  - unfold resume_session. destruct (sessions_ r !! id) as [s|] eqn:Hs; [|exact Hinv].
    apply (table_inv_update r id s _ Hinv Hs). unfold valid_session. cbn. auto.
  - unfold seek_session. destruct (sessions_ r !! id) as [s|] eqn:Hs; [|exact Hinv].
    destruct ((rs_start_ts_ns s <=? ts) && (ts <=? rs_end_ts_ns s)); [|exact Hinv].
    destruct (seek_to_timestamp (mdf_file s) (idx_file s) ts) as [mdf' ok].
    apply (table_inv_update r id s _ Hinv Hs). unfold valid_session.
    destruct ok; cbn; auto.
  - unfold stop_session. destruct (sessions_ r !! id) as [s|] eqn:Hs; [|exact Hinv].
    destruct Hinv as (Hsize & Hact & Hval).
    unfold table_inv. cbn [sessions_ active_sessions].
    split; [|split; [reflexivity|]].
    + rewrite map_size_delete, Hs. lia.
    + intros id' s' H0. apply lookup_delete_Some in H0. apply Hval, H0.
Qed.

(** Property X30.  The session table through any calls.  Whatever sequence of
    start, pause, resume, seek and stop calls the replayer receives, its
    table never holds more than 10 sessions, [active_sessions] is the
    number of sessions in it, and every session in it is stored under
    its own id and has the parameters [start_session] accepted: a start
    before its end, at least one topic, and a rate that is above 0 and
    at most 100 or is a NaN (the test [rate <= 0 || rate > 100] does not
    reject a NaN). *)
Theorem session_table_invariant (calls : list ReplayCall) :
  let r := fold_left replay_call calls Replayer_new in
  (size (sessions_ r) <= 10)%nat
  /\ active_sessions r = Z.of_nat (size (sessions_ r))
  /\ forall id s, sessions_ r !! id = Some s -> valid_session id s.
Proof.
  cbv zeta. generalize table_inv_new. generalize Replayer_new.
  induction calls as [|c calls IH]; intros r Hinv; cbn [fold_left]; [exact Hinv|].
  apply IH, replay_call_inv, Hinv.
Qed.

(** A NaN passes the rate test and the session is started with it. *)
Example nan_rate_is_accepted :
  let res := start_session quiet_gap_dir zero_draws 0 0 10000000000
                           ["trade"%string] S754_nan Replayer_new in
  fst res = Started "rpl_00000000"
  /\ rate_multiplier <$> sessions_ (snd res) !! "rpl_00000000"%string = Some S754_nan.
Proof. vm_compute. split; reflexivity. Qed.

End ReplayerSessions.
